(** * validino: error aggregation and validator composition

    A shallow embedding of [src/validino/base.py]: the [Invalid] exception
    with its construction, [add_error_message] and [unpack_errors], the
    combinators [compose], [either], [check] and [excursion], the leaf
    validators ([integer], [strip], [clamp], [clamp_length], [equal],
    [empty], [belongs], [translate], [boolean], the tests on types,
    [fields_equal] and their companions), [Schema.__call__], and
    [dict_nest] with [dict_unnest].  The validators that call into the
    [re], [time], [datetime] and [uuid] modules or decode text are not
    modelled, nor are [fields_match] and [nested], whose arguments are
    dicts of values.

    Modelling conventions.
    - Python values that validators exchange are the inductive [pyval].
    - Plain error messages are strings; an entry of an error list is a
      plain message or an exception object ([entry]).
    - Dictionaries that the code iterates over (the [errors] of an
      [Invalid], its unpacked form, the [exceptions] buckets of a schema
      call, the [subvalidators] of a schema) are association lists with
      unique keys: the list order is the iteration order of the dict,
      which Python 2 does not fix, so every general statement below
      quantifies over all orders.  Dictionaries that are only looked up and
      stored to (the [data] and [res] of a schema call) are [gmap]s, and
      they live in a store of objects, because [Schema.__call__] may return
      the very object it was given.
    - A call either returns or raises: [outcome]. *)

From Stdlib Require Import ZArith String Ascii List Sorted.
From stdpp Require Import base decidable option list gmap strings fin_maps.

Set Warnings "-register-all".
Local Open Scope Z_scope.

(** ** Python values *)

Inductive pyval : Type :=
| VNone
| VBool (b : bool)
| VInt (n : Z)
| VStr (s : string)
| VTuple (l : list pyval)
| VList (l : list pyval).

(** Field keys of an error mapping: [None], a field name, or the tuple of
    field names of a plural schema key. *)
Inductive FieldKey : Type :=
| FNone
| FName (s : string)
| FTuple (l : list string).

#[global] Instance FieldKey_eq_dec : EqDecision FieldKey.
Proof. solve_decision. Defined.

(** Keys of [Schema.subvalidators]: a field name, or a tuple of them. *)
Inductive SchemaKey : Type :=
| Singular (s : string)
| Plural (l : list string).

#[global] Instance SchemaKey_eq_dec : EqDecision SchemaKey.
Proof. solve_decision. Defined.

Definition field_of_key (k : SchemaKey) : FieldKey :=
  match k with
  | Singular s => FName s
  | Plural l => FTuple l
  end.

(** ** Exceptions and error entries *)

Inductive entry_of (E : Type) : Type :=
| Msg (m : string)
| Exc (e : E).
Arguments Msg {E} m.
Arguments Exc {E} e.

(** An exception object.  [InvalidExc] is an instance of [Invalid] with its
    [message] and [errors] attributes; [OtherExc] is any other [Exception]
    with its class name and [args].  [field] is the optional [field]
    attribute that [Schema.__call__] reads with [getattr]. *)
Inductive exn : Type :=
| InvalidExc (field : option FieldKey) (message : option string)
             (errors : list (FieldKey * list (entry_of exn)))
| OtherExc (cls : string) (field : option FieldKey) (args : list string).

Abbreviation entry := (entry_of exn).

Inductive outcome (A : Type) : Type :=
| Return (a : A)
| Raise (e : exn).
Arguments Return {A} a.
Arguments Raise {A} e.

Definition exn_field (e : exn) : option FieldKey :=
  match e with
  | InvalidExc f _ _ => f
  | OtherExc _ f _ => f
  end.

Definition AttributeError (m : string) : exn := OtherExc "AttributeError" None [m].
Definition IndexError (m : string) : exn := OtherExc "IndexError" None [m].
Definition KeyError (m : string) : exn := OtherExc "KeyError" None [m].
Definition TypeError (m : string) : exn := OtherExc "TypeError" None [m].
Definition ValueError (m : string) : exn := OtherExc "ValueError" None [m].
Definition UnboundLocalError (m : string) : exn :=
  OtherExc "UnboundLocalError" None [m].

(** ** Ordered dictionaries (association lists with unique keys) *)

Section pydict.
Context {K V : Type} `{EqDecision K}.

(** [d.get(k)] *)
Fixpoint dget (d : list (K * V)) (k : K) : option V :=
  match d with
  | [] => None
  | (k', v) :: d' => if decide (k' = k) then Some v else dget d' k
  end.

(** [d[k] = v] *)
Fixpoint dset (d : list (K * V)) (k : K) (v : V) : list (K * V) :=
  match d with
  | [] => [(k, v)]
  | (k', v') :: d' =>
      if decide (k' = k) then (k', v) :: d' else (k', v') :: dset d' k v
  end.

(** [d.setdefault(k, v)], for its effect on [d] *)
Definition setdefault (d : list (K * V)) (k : K) (v : V) : list (K * V) :=
  match dget d k with
  | Some _ => d
  | None => d ++ [(k, v)]
  end.

(** in-place change of the object stored under [k] *)
Fixpoint dalter (f : V → V) (k : K) (d : list (K * V)) : list (K * V) :=
  match d with
  | [] => []
  | (k', v) :: d' =>
      if decide (k' = k) then (k', f v) :: d' else (k', v) :: dalter f k d'
  end.

(** [dict(items)] *)
Definition dict_of_items (items : list (K * V)) : list (K * V) :=
  fold_left (λ d kv, dset d kv.1 kv.2) items [].

(** [d.update(d2)] *)
Definition dupdate (d d2 : list (K * V)) : list (K * V) :=
  fold_left (λ d kv, dset d kv.1 kv.2) d2 d.

Definition dkeys (d : list (K * V)) : list K := map fst d.
End pydict.

(** A loop whose body may raise. *)
Section foldM.
Context {A B : Type} (f : A → B → outcome A).

Fixpoint foldM (l : list B) (a : A) : outcome A :=
  match l with
  | [] => Return a
  | x :: l' =>
      match f a x with
      | Return a' => foldM l' a'
      | Raise e => Raise e
      end
  end.
End foldM.

(** ** [Invalid] *)

(** A value found in a mapping given to [Invalid]: a single entry, or a
    list/tuple of entries. *)
Inductive dval (A : Type) : Type :=
| One (a : A)
| Many (l : list A).
Arguments One {A} a.
Arguments Many {A} l.

Definition dval_items {A} (v : dval A) : list A :=
  match v with
  | One a => [a]
  | Many l => l
  end.

(** A positional argument of [Invalid(...)]: a dict, or anything else (a
    plain message). *)
Inductive init_arg : Type :=
| Plain (m : string)
| Mapping (d : list (FieldKey * dval entry)).

Definition str_truthy (s : string) : bool :=
  match s with
  | EmptyString => false
  | _ => true
  end.

Definition message_truthy (m : option string) : bool :=
  match m with
  | Some s => str_truthy s
  | None => false
  end.

Definition list_truthy {A} (l : list A) : bool :=
  match l with
  | [] => false
  | _ => true
  end.

(** Python's [==] on entries: strings compare by content, exception
    objects by identity.  Object identity is not part of an [exn] value; it
    is the relation [same_object] that every statement quantifies over. *)
Definition entry_eq (same_object : exn → exn → bool) (x y : entry) : bool :=
  match x, y with
  | Msg a, Msg b => bool_decide (a = b)
  | Exc a, Exc b => same_object a b
  | _, _ => false
  end.

(** [_add_error_message(d, k, msg)] *)
Definition _add_error_message (same_object : exn → exn → bool)
    (d : list (FieldKey * list entry)) (k : FieldKey) (msg : entry)
    : list (FieldKey * list entry) :=
  let d := setdefault d k [] in
  if negb (existsb (λ x, entry_eq same_object x msg) (default [] (dget d k)))
  then dalter (λ l, l ++ [msg]) k d
  else d.

(** What [unpack_errors] returns: the bare top message, a mapping to single
    messages, or a mapping to lists of messages. *)
Inductive unpacked : Type :=
| UMsg (m : option string)
| UDict (d : list (FieldKey * string))
| UList (d : list (FieldKey * list string)).

(** [dict([(e, m[0]) for e, m in result.items() if m])] *)
Definition collapse (result : list (FieldKey * list string))
    : list (FieldKey * string) :=
  dict_of_items
    (omap (λ em, match em.2 with
                 | [] => None
                 | m0 :: _ => Some (em.1, m0)
                 end) result).

Definition exn_errors (e : exn) : list (FieldKey * list entry) :=
  match e with
  | InvalidExc _ _ errors => errors
  | OtherExc _ _ _ => []
  end.

Module Invalid.

(** [_join_dicts(res, d)]: [append] and [extend] both add at the end of
    the list stored under [k]. *)
Definition _join_dicts {A} (res : list (FieldKey * list A))
    (d : list (FieldKey * dval A)) : list (FieldKey * list A) :=
  fold_left
    (λ res kv,
       let res := setdefault res kv.1 [] in
       match kv.2 with
       | One a => dalter (λ l, l ++ [a]) kv.1 res
       | Many l' => dalter (λ l, l ++ l') kv.1 res
       end)
    d res.

Definition _normalize_dict {A} (d : list (FieldKey * dval A))
    : list (FieldKey * list A) :=
  if list_truthy d then
    fold_left
      (λ res kv,
         match kv.2 with
         | One a => dset res kv.1 [a]
         | Many l => dset res kv.1 l
         end)
      d []
  else [].

(** The constructor of [Invalid], with its positional arguments [args]
    and keyword arguments [kw].  The constructed object has no [field]
    attribute. *)
Definition __init__ (args : list init_arg)
    (kw : list (string * dval entry)) : exn :=
  let dp :=
    fold_left
      (λ (dp : list (FieldKey * list entry) * list string) a,
         match a with
         | Mapping a => (_join_dicts dp.1 a, dp.2)
         | Plain a => (dp.1, dp.2 ++ [a])
         end)
      args ([], []) in
  let d := dupdate dp.1 (_normalize_dict (map (λ kv, (FName kv.1, kv.2)) kw)) in
  InvalidExc None (head dp.2) d.

(** [_safe_append(adict, key, thing)] for a [thing] that is a message
    (neither a list nor a dict): it is wrapped in a one-element list. *)
Definition _safe_append (adict : list (FieldKey * list string))
    (key : FieldKey) (thing : string) : list (FieldKey * list string) :=
  let thing := [thing] in
  match dget adict key with
  | Some _ => dalter (λ l, l ++ thing) key adict
  | None => dset adict key thing
  end.

(** The body of the inner loop of [unpack_errors], for one entry [m] of
    the list stored under [name]; [unpack] is the recursive call
    [m.unpack_errors(force_dict=False)].  An entry that is an exception but
    not an [Invalid] has no [unpack_errors] method: that is the
    [AttributeError] branch, which reads [m.args[0]]. *)
Definition unpack_entry (unpack : exn → outcome unpacked) (name : FieldKey)
    (result : list (FieldKey * list string)) (m : entry)
    : outcome (list (FieldKey * list string)) :=
  match m with
  | Exc (OtherExc _ _ args) =>
      match args with
      | a0 :: _ => Return (_safe_append result name a0)
      | [] => Raise (IndexError "tuple index out of range")
      end
  | Exc m =>
      match unpack m with
      | Raise e => Raise e
      | Return (UDict d) =>
          Return (_join_dicts result (map (λ kv, (kv.1, One kv.2)) d))
      | Return (UList d) =>
          Return (_join_dicts result (map (λ kv, (kv.1, Many kv.2)) d))
      | Return (UMsg unpacked) =>
          if message_truthy unpacked
          then Return (_safe_append result name (default EmptyString unpacked))
          else Return result
      end
  | Msg m => Return (_safe_append result name m)
  end.

(** [unpack_errors(self, force_dict, list_of_errors)] *)
Fixpoint unpack_errors (self : exn) (force_dict list_of_errors : bool)
    : outcome unpacked :=
  match self with
  | OtherExc _ _ _ => Raise (AttributeError "unpack_errors")
  | InvalidExc _ message errors =>
      if list_truthy errors || force_dict then
        let result : list (FieldKey * list string) :=
          match message with
          | Some m => if str_truthy m then [(FNone, [m])] else []
          | None => []
          end in
        let looped :=
          if list_truthy errors then
            foldM
              (λ result (item : FieldKey * list entry),
                 foldM
                   (unpack_entry (λ m, unpack_errors m false false) item.1)
                   item.2 result)
              errors result
          else Return result in
        match looped with
        | Raise e => Raise e
        | Return result =>
            if list_of_errors then Return (UList result)
            else Return (UDict (collapse result))
        end
      else Return (UMsg message)
  end.

(** The loop of [unpack_errors] over [self.errors], by name. *)
Definition unpack_loop (errors : list (FieldKey * list entry))
    (result : list (FieldKey * list string))
    : outcome (list (FieldKey * list string)) :=
  foldM
    (λ result (item : FieldKey * list entry),
       foldM (unpack_entry (λ m, unpack_errors m false false) item.1) item.2 result)
    errors result.

(** [add_error_message(self, key, message)]; on an object that is
    not an [Invalid] the method does not exist and nothing is changed. *)
Definition add_error_message (same_object : exn → exn → bool)
    (self : exn) (key : FieldKey) (message : entry) : exn :=
  match self with
  | InvalidExc f m errors =>
      InvalidExc f m (_add_error_message same_object errors key message)
  | OtherExc _ _ _ => self
  end.

End Invalid.

(** ** Validators and combinators *)

Abbreviation Validator := (pyval → outcome pyval).

(** The [msg] argument of a validator or schema: absent ([None]), a literal
    message, or a dict from failure kind to message. *)
Inductive MsgSource : Type :=
| MsgNone
| MsgLiteral (m : string)
| MsgDict (d : gmap string string).

(** [_msg(msg, key, default)]: only a dict has [get]. *)
Definition _msg (msg : MsgSource) (key default : string) : string :=
  match msg with
  | MsgDict d =>
      match d !! key with
      | Some m => m
      | None => default
      end
  | MsgNone => default
  | MsgLiteral m => m
  end.

(** [compose(validators)(value)] *)
Definition compose (validators : list Validator) : Validator :=
  λ value, foldM (λ value v, v value) validators value.

(** The loop of [either(validators)(value)].  [last_exception] is a local
    variable of the inner function [f], because [f] assigns it: it is
    unbound ([None] here) until a validator has raised.  [calls] records
    the argument of every validator invocation, in order. *)
Fixpoint either_loop (validators : list Validator) (value : pyval)
    (last_exception : option exn) (calls : list pyval)
    : list pyval * outcome pyval :=
  match validators with
  | [] =>
      (calls,
       match last_exception with
       | Some e => Raise e
       | None =>
           Raise (UnboundLocalError
                    "local variable 'last_exception' referenced before assignment")
       end)
  | v :: validators' =>
      match v value with
      | Raise e => either_loop validators' value (Some e) (calls ++ [value])
      | Return value' => (calls ++ [value], Return value')
      end
  end.

Definition either_run (validators : list Validator) (value : pyval)
    : list pyval * outcome pyval :=
  either_loop validators value None [].

(** [either(validators)] as a validator. *)
Definition either (validators : list Validator) : Validator :=
  λ value, (either_run validators value).2.

(** *** [integer] *)

(** C [isspace] in the C locale. *)
Definition is_space (c : ascii) : bool :=
  let n := nat_of_ascii c in
  bool_decide (n = 32%nat) || (bool_decide (9 ≤ n)%nat && bool_decide (n ≤ 13)%nat).

Definition digit_value (c : ascii) : option Z :=
  let n := Z.of_nat (nat_of_ascii c) in
  if bool_decide (48 ≤ n) && bool_decide (n ≤ 57) then Some (n - 48) else None.

Fixpoint skip_spaces (s : string) : string :=
  match s with
  | String c s' => if is_space c then skip_spaces s' else s
  | EmptyString => s
  end.

(** Reads decimal digits; returns the number read so far and the rest. *)
Fixpoint read_digits (s : string) (acc : Z) (seen : bool)
    : option Z * string :=
  match s with
  | String c s' =>
      match digit_value c with
      | Some d => read_digits s' (10 * acc + d) true
      | None => (if seen then Some acc else None, s)
      end
  | EmptyString => (if seen then Some acc else None, s)
  end.

(** [int(s)] for a byte string, base 10: blanks, an optional sign, blanks,
    at least one digit, blanks, end of string. *)
Definition int_of_str (s : string) : option Z :=
  let s := skip_spaces s in
  let '(sign, s) :=
    match s with
    | String "+"%char s' => (1, s')
    | String "-"%char s' => (-1, s')
    | _ => (1, s)
    end in
  let s := skip_spaces s in
  match read_digits s 0 false with
  | (Some n, rest) =>
      match skip_spaces rest with
      | EmptyString => Some (sign * n)
      | _ => None
      end
  | (None, _) => None
  end.

(** The builtin [int(value)]. *)
Definition py_int (v : pyval) : outcome Z :=
  match v with
  | VInt n => Return n
  | VBool b => Return (if b then 1 else 0)
  | VStr s =>
      match int_of_str s with
      | Some n => Return n
      | None => Raise (ValueError "invalid literal for int() with base 10")
      end
  | VNone | VTuple _ | VList _ =>
      Raise (TypeError "int() argument must be a string or a number")
  end.

Definition exn_cls (e : exn) : string :=
  match e with
  | InvalidExc _ _ _ => "Invalid"
  | OtherExc cls _ _ => cls
  end.

(** [integer(msg)] *)
Definition integer (msg : MsgSource) : Validator :=
  λ value,
    match py_int value with
    | Return n => Return (VInt n)
    | Raise e =>
        if bool_decide (exn_cls e = "TypeError") || bool_decide (exn_cls e = "ValueError")
        then Raise (Invalid.__init__ [Plain (_msg msg "integer" "not an integer")] [])
        else Raise e
    end.

(** ** [Schema] *)

(** The order of [sorted] on schema keys (Python 2): byte strings compare
    lexicographically, tuples compare element by element, and a string is
    smaller than any tuple (objects of different types are ordered by
    type name, and ["str" < "tuple"]). *)
Fixpoint tuple_leb (a b : list string) : bool :=
  match a, b with
  | [], _ => true
  | _ :: _, [] => false
  | x :: a', y :: b' => if bool_decide (x = y) then tuple_leb a' b' else String.leb x y
  end.

Definition key_leb (a b : SchemaKey) : bool :=
  match a, b with
  | Singular x, Singular y => String.leb x y
  | Singular _, Plural _ => true
  | Plural _, Singular _ => false
  | Plural x, Plural y => tuple_leb x y
  end.

Fixpoint insert_key (k : SchemaKey) (l : list SchemaKey) : list SchemaKey :=
  match l with
  | [] => [k]
  | y :: l' => if key_leb k y then k :: y :: l' else y :: insert_key k l'
  end.

(** [sorted(keys)], a stable sort. *)
Definition sorted (l : list SchemaKey) : list SchemaKey :=
  foldr insert_key [] l.

(** The value of a schema entry: a validator, or a list/tuple of
    validators. *)
Inductive SubValidator : Type :=
| VFunc (f : Validator)
| VSeq (fs : list Validator).

(** [if isinstance(vfunc, (list, tuple)): vfunc = compose(vfunc...)] *)
Definition as_validator (vfunc : SubValidator) : Validator :=
  match vfunc with
  | VSeq fs => compose fs
  | VFunc f => f
  end.

(** [getattr(e, 'field', k) or k] *)
Definition field_truthy (f : FieldKey) : bool :=
  match f with
  | FNone => false
  | FName s => str_truthy s
  | FTuple l => list_truthy l
  end.

Definition bucket_name (e : exn) (k : SchemaKey) : FieldKey :=
  match exn_field e with
  | Some f => if field_truthy f then f else field_of_key k
  | None => field_of_key k
  end.

(** What iterating over a value yields; [None] when it is not iterable. *)
Definition iterate (v : pyval) : option (list pyval) :=
  match v with
  | VTuple l => Some l
  | VList l => Some l
  | VStr s => Some (map (λ c, VStr (String c EmptyString)) (list_ascii_of_string s))
  | VNone | VBool _ | VInt _ => None
  end.

(** The objects of a call: the store of dict objects, addressed by their
    position, and the record of subvalidator invocations (schema key and
    argument), which is observation only. *)
Record world : Type := World {
  heap : list (gmap string pyval);
  calls : list (SchemaKey * pyval)
}.

Definition hread (w : world) (l : nat) : gmap string pyval :=
  default ∅ (heap w !! l).

Definition hwrite (w : world) (l : nat) (d : gmap string pyval) : world :=
  World (<[l := d]> (heap w)) (calls w).

Definition halloc (w : world) (d : gmap string pyval) : world * nat :=
  (World (heap w ++ [d]) (calls w), length (heap w)).

Definition log_call (w : world) (k : SchemaKey) (v : pyval) : world :=
  World (heap w) (calls w ++ [(k, v)]).

(** [res.get(x, data.get(x))] *)
Definition gather (res data : gmap string pyval) (x : string) : pyval :=
  match res !! x with
  | Some v => v
  | None => default VNone (data !! x)
  end.

(** [dict(zip(k, tmp))]: a later pair replaces an earlier one with the same
    key. *)
Definition dict_zip (k : list string) (tmp : list pyval) : gmap string pyval :=
  fold_left (λ d kv, <[kv.1 := kv.2]> d) (zip k tmp) ∅.

Module Schema.

Record t : Type := Make {
  subvalidators : list (SchemaKey * SubValidator);
  msg : MsgSource;
  allow_missing : bool;
  allow_extra : bool;
  filter_extra : bool
}.

(** [_keys(self)] *)
Definition _keys (self : t) : gset string :=
  fold_left
    (λ schemakeys x,
       match x with
       | Plural x => fold_left (λ schemakeys x1, schemakeys ∪ {[x1]}) x schemakeys
       | Singular x => schemakeys ∪ {[x]}
       end)
    (dkeys (subvalidators self)) ∅.

(** The checks on the key sets of [__call__]: [Some e] when one raises. *)
Definition key_checks (self : t) (data : gmap string pyval) : option exn :=
  if negb (allow_extra self && allow_missing self) then
    let inputkeys : gset string := dom data in
    let schemakeys := _keys self in
    if negb (allow_extra self) && bool_decide (inputkeys ∖ schemakeys ≠ ∅) then
      Some (Invalid.__init__
              [Plain (_msg (msg self) "schema.extra" "extra keys in input")] [])
    else if negb (allow_missing self) && bool_decide (schemakeys ∖ inputkeys ≠ ∅) then
      Some (Invalid.__init__
              [Plain (_msg (msg self) "schema.missing" "missing keys in input")] [])
    else None
  else None.

(** The value handed to the subvalidator of key [k]. *)
Definition vdata_of (w : world) (res data : nat) (k : SchemaKey) : pyval :=
  match k with
  | Plural k => VTuple (map (gather (hread w res) (hread w data)) k)
  | Singular k => gather (hread w res) (hread w data) k
  end.

(** One iteration of the loop over [sorted(self.subvalidators)].  The
    state is the world and the [exceptions] dict; an exception raised
    outside the [try] leaves the loop. *)
Definition step (self : t) (data res : nat)
    (st : world * list (FieldKey * list exn)) (k : SchemaKey)
    : world * outcome (list (FieldKey * list exn)) :=
  let '(w, exceptions) := st in
  match dget (subvalidators self) k with
  | None => (w, Raise (KeyError "subvalidators"))
  | Some vfunc =>
      let vfunc := as_validator vfunc in
      let vdata := vdata_of w res data k in
      let w := log_call w k vdata in
      match vfunc vdata with
      | Raise e =>
          let name := bucket_name e k in
          let exceptions := setdefault exceptions name [] in
          (w, Return (dalter (λ l, l ++ [e]) name exceptions))
      | Return tmp =>
          match k with
          | Plural k =>
              match iterate tmp with
              | Some tmp =>
                  (hwrite w res (dict_zip k tmp ∪ hread w res), Return exceptions)
              | None => (w, Raise (TypeError "zip argument #2 must support iteration"))
              end
          | Singular k =>
              (hwrite w res (<[k := tmp]> (hread w res)), Return exceptions)
          end
      end
  end.

Fixpoint loop (self : t) (data res : nat) (keys : list SchemaKey)
    (st : world * list (FieldKey * list exn))
    : world * outcome (list (FieldKey * list exn)) :=
  match keys with
  | [] => (st.1, Return st.2)
  | k :: keys' =>
      match step self data res st k with
      | (w, Return exceptions) => loop self data res keys' (w, exceptions)
      | (w, Raise e) => (w, Raise e)
      end
  end.

(** [__call__(self, data)]: [data] is a reference into the store; the
    result is the reference held by [res], or the exception raised. *)
Definition __call__ (self : t) (data : nat) (w : world) : world * outcome nat :=
  let '(w, res) :=
    if negb (filter_extra self) then (w, data) else halloc w ∅ in
  let exceptions : list (FieldKey * list exn) := [] in
  match key_checks self (hread w data) with
  | Some e => (w, Raise e)
  | None =>
      match loop self data res (sorted (dkeys (subvalidators self))) (w, exceptions) with
      | (w, Raise e) => (w, Raise e)
      | (w, Return exceptions) =>
          if list_truthy exceptions then
            (w, Raise (Invalid.__init__
                         [Plain (_msg (msg self) "schema.error"
                                   "Problems were found in the submitted data.");
                          Mapping (map (λ kv, (kv.1, Many (map Exc kv.2))) exceptions)]
                         []))
          else (w, Return res)
      end
  end.

End Schema.

(** A call on a fresh store that holds only the caller's dict. *)
Definition call_on (self : Schema.t) (data : gmap string pyval) : world * outcome nat :=
  Schema.__call__ self 0%nat (World [data] []).

(** ** More of Python, and the remaining validators *)

(** The classes that [isinstance] is asked about. *)
Inductive pytype : Type :=
| TyNone
| TyBool
| TyInt
| TyStr
| TyTuple
| TyList.

(** [isinstance(v, ts)]; [bool] is a subclass of [int]. *)
Definition has_type (v : pyval) (t : pytype) : bool :=
  match v, t with
  | VNone, TyNone => true
  | VBool _, TyBool => true
  | VBool _, TyInt => true
  | VInt _, TyInt => true
  | VStr _, TyStr => true
  | VTuple _, TyTuple => true
  | VList _, TyList => true
  | _, _ => false
  end.

Definition isinstance (v : pyval) (ts : list pytype) : bool :=
  existsb (has_type v) ts.

(** The number that a [bool] or [int] stands for. *)
Definition py_num (v : pyval) : option Z :=
  match v with
  | VBool b => Some (if b then 1 else 0)
  | VInt n => Some n
  | _ => None
  end.

(** [a == b]: numbers by value ([True == 1]), strings by content, tuples
    and lists element by element, and values of different kinds are
    different. *)
Fixpoint py_eq (a b : pyval) {struct a} : bool :=
  let fix all_eq (l m : list pyval) {struct l} : bool :=
    match l, m with
    | [], [] => true
    | x :: l', y :: m' => py_eq x y && all_eq l' m'
    | _, _ => false
    end in
  match a, b with
  | VNone, VNone => true
  | VStr s, VStr t => bool_decide (s = t)
  | VTuple l, VTuple m => all_eq l m
  | VList l, VList m => all_eq l m
  | (VBool _ | VInt _), (VBool _ | VInt _) => bool_decide (py_num a = py_num b)
  | _, _ => false
  end.

(** [bool(v)] *)
Definition py_truthy (v : pyval) : bool :=
  match v with
  | VNone => false
  | VBool b => b
  | VInt n => negb (bool_decide (n = 0))
  | VStr s => str_truthy s
  | VTuple l => list_truthy l
  | VList l => list_truthy l
  end.

(** The order of Python 2 on values: [None] is below everything, numbers
    are below the other kinds, which are ordered by the name of their type
    (["list" < "str" < "tuple"]); numbers compare by value, strings
    lexicographically, tuples and lists element by element. *)
Definition py_rank (v : pyval) : Z :=
  match v with
  | VNone => 0
  | VBool _ | VInt _ => 1
  | VList _ => 2
  | VStr _ => 3
  | VTuple _ => 4
  end.

Fixpoint py_cmp (a b : pyval) {struct a} : comparison :=
  let fix seq_cmp (l m : list pyval) {struct l} : comparison :=
    match l, m with
    | [], [] => Eq
    | [], _ :: _ => Lt
    | _ :: _, [] => Gt
    | x :: l', y :: m' =>
        match py_cmp x y with
        | Eq => seq_cmp l' m'
        | c => c
        end
    end in
  match a, b with
  | VStr s, VStr t => String.compare s t
  | VTuple l, VTuple m => seq_cmp l m
  | VList l, VList m => seq_cmp l m
  | (VBool _ | VInt _), (VBool _ | VInt _) =>
      Z.compare (default 0 (py_num a)) (default 0 (py_num b))
  | _, _ => Z.compare (py_rank a) (py_rank b)
  end.

(** [a < b] *)
Definition py_lt (a b : pyval) : bool :=
  match py_cmp a b with
  | Lt => true
  | _ => false
  end.

(** [len(v)] *)
Definition py_len (v : pyval) : outcome Z :=
  match v with
  | VStr s => Return (Z.of_nat (String.length s))
  | VTuple l => Return (Z.of_nat (length l))
  | VList l => Return (Z.of_nat (length l))
  | VNone | VBool _ | VInt _ => Raise (TypeError "object has no len()")
  end.

(** [v[0]] *)
Definition py_first (v : pyval) : outcome pyval :=
  match v with
  | VTuple (x :: _) => Return x
  | VList (x :: _) => Return x
  | VStr (String c _) => Return (VStr (String c EmptyString))
  | VTuple [] | VList [] | VStr EmptyString => Raise (IndexError "index out of range")
  | VNone | VBool _ | VInt _ => Raise (TypeError "object has no attribute '__getitem__'")
  end.

(** [hash(v)] is defined: lists are not hashable, nor are tuples that hold
    one. *)
Fixpoint hashable (v : pyval) : bool :=
  match v with
  | VList _ => false
  | VTuple l => forallb hashable l
  | _ => true
  end.

(** The elements of [set(l)]: each element that is not equal to one
    already kept. *)
Definition py_set (l : list pyval) : list pyval :=
  fold_left (λ acc x, if existsb (λ y, py_eq y x) acc then acc else acc ++ [x]) l [].

(** [s.strip()]: blanks removed at both ends. *)
Fixpoint rstrip (s : string) : string :=
  match s with
  | EmptyString => EmptyString
  | String c s' =>
      match rstrip s' with
      | EmptyString => if is_space c then EmptyString else String c EmptyString
      | t => String c t
      end
  end.

Definition py_strip (s : string) : string := rstrip (skip_spaces s).



(** [is_list(msg, listtypes)] *)
Definition is_list (msg : MsgSource) (listtypes : list pytype) : Validator :=
  λ value,
    if negb (isinstance value listtypes)
    then Raise (Invalid.__init__ [Plain (_msg msg "is_list" "expected list value")] [])
    else Return value.

(** [to_scalar(listtypes)] *)
Definition to_scalar (listtypes : list pytype) : Validator :=
  λ value, if isinstance value listtypes then py_first value else Return value.

(** [to_list(listtypes)] *)
Definition to_list (listtypes : list pytype) : Validator :=
  λ value, if negb (isinstance value listtypes) then Return (VList [value]) else Return value.

(** [default(defaultValue)] *)
Definition default_ (defaultValue : pyval) : Validator :=
  λ value,
    match value with
    | VNone => Return defaultValue
    | _ => Return value
    end.

(** [check(validators)]: every validator is given [value]; what it returns
    is dropped. *)
Definition check (validators : list Validator) : Validator :=
  λ value,
    match foldM (λ (u : unit) v,
                   match v value with
                   | Return _ => Return u
                   | Raise e => Raise e
                   end) validators tt with
    | Return _ => Return value
    | Raise e => Raise e
    end.

(** [excursion(validators)] *)
Definition excursion (validators : list Validator) : Validator :=
  λ value,
    match compose validators value with
    | Return _ => Return value
    | Raise e => Raise e
    end.

(** [equal(val, msg)] *)
Definition equal (val : pyval) (msg : MsgSource) : Validator :=
  λ value,
    if py_eq value val then Return value
    else Raise (Invalid.__init__ [Plain (_msg msg "eq" "invalid value")] []).

(** [not_equal(val, msg)] *)
Definition not_equal (val : pyval) (msg : MsgSource) : Validator :=
  λ value,
    if negb (py_eq value val) then Return value
    else Raise (Invalid.__init__ [Plain (_msg msg "eq" "invalid value")] []).

Definition is_None (v : pyval) : bool :=
  match v with
  | VNone => true
  | _ => false
  end.

(** [empty(msg)] *)
Definition empty (msg : MsgSource) : Validator :=
  λ value,
    if py_eq value (VStr EmptyString) || is_None value then Return value
    else Raise (Invalid.__init__ [Plain (_msg msg "empty" "No value was expected")] []).

(** [not_empty(msg)] *)
Definition not_empty (msg : MsgSource) : Validator :=
  λ value,
    if negb (py_eq value (VStr EmptyString)) && negb (py_eq value VNone)
    then Return value
    else Raise (Invalid.__init__
                  [Plain (_msg msg "notempty" "A non-empty value was expected")] []).

(** [strip(value)]: only a string has [strip]. *)
Definition strip : Validator :=
  λ value,
    match value with
    | VStr s => Return (VStr (py_strip s))
    | _ => Return value
    end.

(** [clamp(min, max, msg)]; [VNone] for a bound that is not given. *)
Definition clamp (min max : pyval) (msg : MsgSource) : Validator :=
  λ value,
    if negb (is_None min) && py_lt value min
    then Raise (Invalid.__init__ [Plain (_msg msg "min" "value below minimum")] [])
    else if negb (is_None max) && py_lt max value
    then Raise (Invalid.__init__ [Plain (_msg msg "max" "value above maximum")] [])
    else Return value.

(** [clamp_length(min, max, msg)] *)
Definition clamp_length (min max : pyval) (msg : MsgSource) : Validator :=
  λ value,
    match py_len value with
    | Raise e => Raise e
    | Return vlen =>
        if negb (is_None min) && py_lt (VInt vlen) min
        then Raise (Invalid.__init__ [Plain (_msg msg "minlen" "too short")] [])
        else if negb (is_None max) && py_lt max (VInt vlen)
        then Raise (Invalid.__init__ [Plain (_msg msg "maxlen" "too long")] [])
        else Return value
    end.

(** [value in domain], for a [domain] that is a list or a tuple. *)
Definition py_in (value : pyval) (domain : list pyval) : bool :=
  existsb (λ x, py_eq x value) domain.

(** [belongs(domain, msg)] *)
Definition belongs (domain : list pyval) (msg : MsgSource) : Validator :=
  λ value,
    if py_in value domain then Return value
    else Raise (Invalid.__init__ [Plain (_msg msg "belongs" "invalid choice")] []).

(** [not_belongs(domain, msg)] *)
Definition not_belongs (domain : list pyval) (msg : MsgSource) : Validator :=
  λ value,
    if negb (py_in value domain) then Return value
    else Raise (Invalid.__init__ [Plain (_msg msg "not_belongs" "invalid choice")] []).

(** [mapping[value]] for a dict [mapping], given by its items: [None] is
    [KeyError]. *)
Fixpoint py_getitem (mapping : list (pyval * pyval)) (value : pyval) : option pyval :=
  match mapping with
  | [] => None
  | (k, v) :: mapping' => if py_eq k value then Some v else py_getitem mapping' value
  end.

(** [translate(mapping, msg)]: a value that cannot be hashed raises
    [TypeError], which is not caught. *)
Definition translate (mapping : list (pyval * pyval)) (msg : MsgSource) : Validator :=
  λ value,
    if hashable value then
      match py_getitem mapping value with
      | Some v => Return v
      | None => Raise (Invalid.__init__ [Plain (_msg msg "belongs" "invalid choice")] [])
      end
    else Raise (TypeError "unhashable type").

(** [boolean(msg)]: [value in [True, False]] *)
Definition boolean (msg : MsgSource) : Validator :=
  λ value,
    if py_in value [VBool true; VBool false] then Return value
    else Raise (Invalid.__init__ [Plain (_msg msg "boolean" "not a boolean")] []).

(** [to_boolean(msg)] *)
Definition to_boolean (msg : MsgSource) : Validator :=
  λ value, Return (VBool (py_truthy value)).

(** [fields_equal(msg, field)]: [len(set(values)) != 1]; [FNone] for a
    [field] that is not given. *)
Definition fields_equal (msg : MsgSource) (field : FieldKey) : Validator :=
  λ values,
    match iterate values with
    | None => Raise (TypeError "object is not iterable")
    | Some l =>
        if forallb hashable l then
          if negb (bool_decide (length (py_set l) = 1%nat)) then
            let m := _msg msg "fields_equal" "fields not equal" in
            match field with
            | FNone => Raise (Invalid.__init__ [Plain m] [])
            | _ => Raise (Invalid.__init__ [Mapping [(field, One (Msg m))]] [])
            end
          else Return values
        else Raise (TypeError "unhashable type")
    end.

(** ** [dict_nest] and [dict_unnest] *)

(** The values of the dicts that [dict_nest] builds and [dict_unnest]
    reads: a dict with string keys, or a value that is not a dict. *)
Inductive nested : Type :=
| Leaf (v : pyval)
| Dict (items : list (string * nested)).

(** [s.split(sep)] for a separator that is not empty: the pieces between
    the occurrences of [sep], found from the left.  [skip] counts the
    characters of an occurrence that are still to be passed over, [cur] is
    the piece being read. *)
Fixpoint split_go (sep : string) (skip : nat) (cur : string) (s : string) : list string :=
  match s with
  | EmptyString => [cur]
  | String c s' =>
      match skip with
      | S n => split_go sep n cur s'
      | O =>
          if String.prefix sep s
          then cur :: split_go sep (String.length sep - 1) EmptyString s'
          else split_go sep O (cur ++ String c EmptyString) s'
      end
  end.

Definition py_split (s sep : string) : list string := split_go sep 0 EmptyString s.

(** The inner loop of [dict_nest] and the assignment that follows it, on
    the dict [d]: [init] is [levels[:-1]] and [last] is [levels[-1]].  A
    value met on the way that is not a dict has no [setdefault]
    ([AttributeError]) and takes no item assignment ([TypeError]). *)
Fixpoint nest_insert (init : list string) (last : string) (v : nested)
    (d : list (string * nested)) : outcome (list (string * nested)) :=
  match init with
  | [] => Return (dset d last v)
  | k1 :: init' =>
      let d := setdefault d k1 (Dict []) in
      match dget d k1 with
      | Some (Dict sub) =>
          match nest_insert init' last v sub with
          | Return sub' => Return (dset d k1 (Dict sub'))
          | Raise e => Raise e
          end
      | Some (Leaf _) =>
          match init' with
          | [] => Raise (TypeError "object does not support item assignment")
          | _ :: _ => Raise (AttributeError "setdefault")
          end
      | None => Raise (KeyError k1)
      end
  end.

(** [dict_nest(data, separator)]; [data] is given by its items, in the
    order in which the dict is iterated.  The result is the dict [res];
    a dict among the values of [data] is stored in [res] as it is and
    grows there when a later key leads into it (in Python that dict is
    then changed for the caller too; the values of [data] are taken to be
    distinct objects). *)
Definition dict_nest (data : list (string * nested)) (separator : string)
    : outcome (list (string * nested)) :=
  foldM
    (λ res (kv : string * nested),
       match separator with
       | EmptyString => Raise (ValueError "empty separator")
       | String _ _ =>
           let levels := py_split kv.1 separator in
           nest_insert (removelast levels) (List.last levels EmptyString) kv.2 res
       end)
    data [].

(** [dict_unnest(data, separator)], on the dict [t]. *)
Fixpoint unnest (separator : string) (t : nested) {struct t} : list (string * pyval) :=
  match t with
  | Leaf _ => []
  | Dict items =>
      (fix go (items : list (string * nested)) (res : list (string * pyval))
         {struct items} : list (string * pyval) :=
         match items with
         | [] => res
         | (k, v) :: items' =>
             match v with
             | Dict _ =>
                 go items'
                   (fold_left
                      (λ res (kv1 : string * pyval),
                         dset res (k ++ separator ++ kv1.1)%string kv1.2)
                      (unnest separator v) res)
             | Leaf x => go items' (dset res k x)
             end
         end) items []
  end.

Definition dict_unnest (data : list (string * nested)) (separator : string)
    : list (string * pyval) :=
  unnest separator (Dict data).

(** * Notions used in the statements *)

Import Invalid.

(** The first message of the list found under a key, if any. *)
Definition first_message (l : option (list string)) : option string :=
  match l with
  | Some (m0 :: _) => Some m0
  | _ => None
  end.

(** Every exception stored as an entry, at any depth, that is not an
    [Invalid] has a first argument ([args] is not empty). *)
Fixpoint well_formed (e : exn) : bool :=
  match e with
  | InvalidExc _ _ errors =>
      forallb
        (λ item : FieldKey * list entry,
           forallb (λ m : entry,
                      match m with
                      | Exc e' => well_formed e'
                      | Msg _ => true
                      end) item.2)
        errors
  | OtherExc _ _ args => list_truthy args
  end.

Definition is_Invalid (e : exn) : bool :=
  match e with
  | InvalidExc _ _ _ => true
  | OtherExc _ _ _ => false
  end.

(** The result [r] lists the message [v] under the key [k]. *)
Definition holds (r : list (FieldKey * list string)) (k : FieldKey) (v : string) : Prop :=
  ∃ l, dget r k = Some l ∧ v ∈ l.

(** The plain messages among the entries [l], in order. *)
Definition plain_messages (l : list entry) : list string :=
  omap (λ m : entry, match m with Msg s => Some s | Exc _ => None end) l.

Definition is_plain (m : entry) : bool :=
  match m with
  | Msg _ => true
  | Exc _ => false
  end.

(** What a result mapping holds for a key whose messages are [l]: no entry
    when there is none. *)
Definition listed (l : list string) : option (list string) :=
  match l with
  | [] => None
  | _ => Some l
  end.

(** The top-level message as the list seeded under [None]. *)
Definition top_messages (message : option string) (k : FieldKey) : list string :=
  match message, k with
  | Some m, FNone => if str_truthy m then [m] else []
  | _, _ => []
  end.

(** No entry of the list is equal, for Python, to a later one. *)
Fixpoint no_dup_entries (same_object : exn → exn → bool) (l : list entry) : bool :=
  match l with
  | [] => true
  | x :: l' =>
      negb (existsb (λ y, entry_eq same_object x y) l')
      && no_dup_entries same_object l'
  end.

(** The invariant of [errors]: every key maps to a non-empty list without
    duplicates. *)
Definition errors_invariant (same_object : exn → exn → bool)
    (errors : list (FieldKey * list entry)) : Prop :=
  Forall (λ item, item.2 ≠ [] ∧ no_dup_entries same_object item.2 = true) errors.

(** The failure, if any, of the subvalidator invocation [call]. *)
Definition failure_of (self : Schema.t) (call : SchemaKey * pyval)
    : option (SchemaKey * exn) :=
  match dget (Schema.subvalidators self) call.1 with
  | Some vfunc =>
      match as_validator vfunc call.2 with
      | Raise e => Some (call.1, e)
      | Return _ => None
      end
  | None => None
  end.

(** The failures among the invocations [calls], in order. *)
Definition failures (self : Schema.t) (calls : list (SchemaKey * pyval))
    : list (SchemaKey * exn) :=
  omap (failure_of self) calls.

(** The exceptions of the failures [fs] that are attributed to [name]. *)
Definition bucket (fs : list (SchemaKey * exn)) (name : FieldKey) : list exn :=
  map snd (filter (λ ke, bucket_name ke.2 ke.1 = name) fs).

(** The contract of the subvalidator of a plural key: given a tuple, what
    it returns can be zipped with the key. *)
Definition plural_results_iterable (self : Schema.t) : Prop :=
  ∀ k vfunc (values : list pyval) tmp,
    dget (Schema.subvalidators self) (Plural k) = Some vfunc →
    as_validator vfunc (VTuple values) = Return tmp →
    is_Some (iterate tmp).

(** [exceptions] holds exactly the failures [fs], by bucket. *)
Definition buckets_of (exceptions : list (FieldKey * list exn))
    (fs : list (SchemaKey * exn)) : Prop :=
  NoDup (dkeys exceptions)
  ∧ ∀ name, dget exceptions name
            = match bucket fs name with
              | [] => None
              | l => Some l
              end.

(** The messages of the three errors that a schema itself raises. *)
Definition schema_error_message (self : Schema.t) : string :=
  _msg (Schema.msg self) "schema.error" "Problems were found in the submitted data.".

(** [k] names the field [x]. *)
Definition mentions (k : SchemaKey) (x : string) : Prop :=
  match k with
  | Singular s => x = s
  | Plural l => x ∈ l
  end.

(** The known key set of a schema: the declared keys, plural keys
    flattened. *)
Definition known_key (self : Schema.t) (x : string) : Prop :=
  ∃ k, k ∈ dkeys (Schema.subvalidators self) ∧ mentions k x.

Definition extra_keys_error (self : Schema.t) : exn :=
  __init__ [Plain (_msg (Schema.msg self) "schema.extra" "extra keys in input")] [].

Definition missing_keys_error (self : Schema.t) : exn :=
  __init__ [Plain (_msg (Schema.msg self) "schema.missing" "missing keys in input")] [].

(** The value a subvalidator is to receive for the field [x], in the words
    of the specification: the value already converted by an earlier key if
    there is one, else the raw input, else [None]. *)
Definition preferred (res data : gmap string pyval) (x : string) : pyval :=
  default (default VNone (data !! x)) (res !! x).

Definition is_singular (k : SchemaKey) : bool :=
  match k with
  | Singular _ => true
  | Plural _ => false
  end.

(** In [l], no plural key stands before a singular key. *)
Fixpoint singular_first (l : list SchemaKey) : Prop :=
  match l with
  | [] => True
  | Singular _ :: l' => singular_first l'
  | Plural _ :: l' => Forall (λ k, is_singular k = false) l'
  end.

(** The object that [res] refers to in a call on [data] in the store [w]. *)
Definition res_of (self : Schema.t) (data : nat) (w : world) : nat :=
  if Schema.filter_extra self then length (heap w) else data.

(** ** Notions for the other validators and for [Invalid] *)

(** [v] returns its argument unchanged whenever it returns. *)
Definition pass_through (v : Validator) : Prop :=
  ∀ x r, v x = Return r → r = x.

(** The [Invalid] that a leaf validator raises: the message looked up under
    [key] in [msg], with its default. *)
Definition invalid_of (msg : MsgSource) (key default : string) : exn :=
  __init__ [Plain (_msg msg key default)] [].

(** A bound of [clamp]: [None] when it is not given. *)
Definition bound (b : option Z) : pyval :=
  match b with
  | Some n => VInt n
  | None => VNone
  end.

Definition above (lo : option Z) (n : Z) : Prop :=
  match lo with
  | Some m => m ≤ n
  | None => True
  end.

Definition below (hi : option Z) (n : Z) : Prop :=
  match hi with
  | Some m => n ≤ m
  | None => True
  end.

(** The digits and what follows them, as [int_of_str] reads them. *)
Definition digits_then_end (s : string) (acc : Z) (seen : bool) : option Z :=
  match read_digits s acc seen with
  | (Some n, rest) =>
      match skip_spaces rest with
      | EmptyString => Some n
      | _ => None
      end
  | (None, _) => None
  end.

(** What the positional mappings among [args] supply for the key [k]: the
    entries of each mapping that has [k], in the order of the arguments;
    [None] when no mapping has [k]. *)
Fixpoint supplied (args : list init_arg) (k : FieldKey) : option (list entry) :=
  match args with
  | [] => None
  | Plain _ :: args' => supplied args' k
  | Mapping a :: args' =>
      match dget a k with
      | Some v => Some (dval_items v ++ default [] (supplied args' k))
      | None => supplied args' k
      end
  end.

(** The plain messages among [args]. *)
Definition plain_args (args : list init_arg) : list string :=
  omap (λ a, match a with Plain m => Some m | Mapping _ => None end) args.

Definition exn_message (e : exn) : option string :=
  match e with
  | InvalidExc _ m _ => m
  | OtherExc _ _ _ => None
  end.

(** An [Invalid] that carries nothing: no message (or an empty one) and no
    errors. *)
Definition blank (e : exn) : Prop :=
  ∃ f m, e = InvalidExc f m [] ∧ message_truthy m = false.

(** An [Invalid] as the validators of this module raise it: one message,
    not empty, and no errors. *)
Definition simple (e : exn) : Prop :=
  ∃ f m, e = InvalidExc f (Some m) [] ∧ str_truthy m = true.

(** Every subvalidator of the schema fails with such an [Invalid] only. *)
Definition simple_failures (self : Schema.t) : Prop :=
  ∀ k vfunc x e,
    dget (Schema.subvalidators self) k = Some vfunc →
    as_validator vfunc x = Raise e → simple e.

(** The messages of the exceptions [l], in order. *)
Definition messages_of (l : list exn) : list string := omap exn_message l.

(** ** Notions for [dict_nest] and [dict_unnest] *)

(** [separator.join(path)] *)
Fixpoint join (separator : string) (path : list string) : string :=
  match path with
  | [] => EmptyString
  | [k] => k
  | k :: path' => (k ++ separator ++ join separator path')%string
  end.

(** What the path [p] leads to in [t]. *)
Fixpoint tget (t : nested) (p : list string) : option nested :=
  match p with
  | [] => Some t
  | k :: p' =>
      match t with
      | Dict items =>
          match dget items k with
          | Some t' => tget t' p'
          | None => None
          end
      | Leaf _ => None
      end
  end.

(** The values that are not dicts in [t], each with the path to it. *)
Fixpoint leaves_of (t : nested) : list (list string * pyval) :=
  match t with
  | Leaf x => [([], x)]
  | Dict items =>
      flat_map (λ kv : string * nested,
                  map (λ px : list string * pyval, (kv.1 :: px.1, px.2)) (leaves_of kv.2))
        items
  end.

(** No key of [keys], split, is the beginning of another one. *)
Definition prefix_free (separator : string) (keys : list string) : Prop :=
  ∀ k k', k ∈ keys → k' ∈ keys → k ≠ k' →
          ¬ (py_split k separator `prefix_of` py_split k' separator).

(** Every dict in [t] has its keys once. *)
Inductive unique_keys : nested → Prop :=
| unique_keys_Leaf x : unique_keys (Leaf x)
| unique_keys_Dict items :
    NoDup (dkeys items) →
    Forall (λ kv : string * nested, unique_keys kv.2) items →
    unique_keys (Dict items).

(** [t'] holds the same values at the same paths as [t]. *)
Definition same_leaves (t t' : nested) : Prop :=
  ∀ p x, tget t' p = Some (Leaf x) ↔ tget t p = Some (Leaf x).

(** [s] without its first [n] characters. *)
Fixpoint sdrop (n : nat) (s : string) : string :=
  match n, s with
  | O, _ => s
  | S n', String _ s' => sdrop n' s'
  | S _, EmptyString => EmptyString
  end.

(** ** Notions for the unpacked lists *)

(** Every key of the result has at least one message. *)
Definition no_empty_list (r : list (FieldKey * list string)) : Prop :=
  ∀ k l, dget r k = Some l → l ≠ [].

(** * Facts *)

(** ** Ordered dictionaries *)

Section pydict_facts.
Context {K V : Type} `{EqDecision K}.
Implicit Types (d : list (K * V)) (k : K) (v : V).

Lemma dget_app d d' k :
  dget (d ++ d') k = match dget d k with Some v => Some v | None => dget d' k end.
Proof.
  induction d as [|[k0 v0] d IH]; simpl; [done|].
  destruct (decide (k0 = k)); done.
Qed.

Lemma dget_None d k : dget d k = None ↔ k ∉ dkeys d.
Proof.
  induction d as [|[k0 v0] d IH]; simpl.
  - split; [intros _; apply not_elem_of_nil | done].
  - rewrite not_elem_of_cons. destruct (decide (k0 = k)) as [->|Hne].
    + split; [done | intros [? _]; done].
    + rewrite IH. split; [intros ?; split; [congruence | done] | intros [_ ?]; done].
Qed.

Lemma dget_Some_keys d k v : dget d k = Some v → k ∈ dkeys d.
Proof.
  intros Hget. destruct (decide (k ∈ dkeys d)) as [|Hn]; [done|].
  apply dget_None in Hn. congruence.
Qed.

Lemma dget_is_Some d k : k ∈ dkeys d → is_Some (dget d k).
Proof.
  intros Hin. destruct (dget d k) eqn:E; [eauto|].
  apply dget_None in E. done.
Qed.

Lemma dget_elem_of d k v : dget d k = Some v → (k, v) ∈ d.
Proof.
  induction d as [|[k0 v0] d IH]; simpl; [done|].
  destruct (decide (k0 = k)) as [->|Hne].
  - intros [= ->]. apply elem_of_cons. by left.
  - intros Hd. apply elem_of_cons. right. by apply IH.
Qed.

Lemma dget_dset_eq d k v : dget (dset d k v) k = Some v.
Proof.
  induction d as [|[k0 v0] d IH]; simpl.
  - by rewrite decide_True.
  - destruct (decide (k0 = k)) as [->|Hne]; simpl.
    + by rewrite decide_True.
    + by rewrite decide_False.
Qed.

Lemma dget_dset_ne d k k' v : k ≠ k' → dget (dset d k v) k' = dget d k'.
Proof.
  intros Hne. induction d as [|[k0 v0] d IH]; simpl.
  - by rewrite decide_False.
  - destruct (decide (k0 = k)) as [->|Hne0]; simpl.
    + by rewrite !decide_False.
    + destruct (decide (k0 = k')); done.
Qed.

Lemma dget_dalter (f : V → V) d k k' :
  dget (dalter f k d) k' = if decide (k = k') then f <$> dget d k' else dget d k'.
Proof.
  induction d as [|[k0 v0] d IH]; simpl.
  - by destruct (decide (k = k')).
  - destruct (decide (k0 = k)) as [->|Hne0]; simpl.
    + destruct (decide (k = k')) as [->|Hne]; done.
    + destruct (decide (k0 = k')) as [->|Hne1]; [|apply IH].
      destruct (decide (k = k')); [congruence | done].
Qed.

Lemma dget_setdefault d k k' v :
  dget (setdefault d k v) k'
  = match dget d k' with
    | Some x => Some x
    | None => if decide (k = k') then Some v else None
    end.
Proof.
  unfold setdefault. destruct (dget d k) eqn:Ek.
  - destruct (dget d k') eqn:Ek'; [done|].
    destruct (decide (k = k')) as [->|]; [congruence | done].
  - rewrite dget_app. simpl. by destruct (dget d k').
Qed.

Lemma dkeys_dalter (f : V → V) d k : dkeys (dalter f k d) = dkeys d.
Proof.
  induction d as [|[k0 v0] d IH]; simpl; [done|].
  destruct (decide (k0 = k)); simpl; [done | by rewrite IH].
Qed.

Lemma dset_fresh d k v : k ∉ dkeys d → dset d k v = d ++ [(k, v)].
Proof.
  induction d as [|[k0 v0] d IH]; simpl; [done|].
  rewrite not_elem_of_cons. intros [Hne Hn].
  rewrite decide_False by done. by rewrite IH.
Qed.

Lemma dkeys_dset_present d k v : k ∈ dkeys d → dkeys (dset d k v) = dkeys d.
Proof.
  induction d as [|[k0 v0] d IH]; simpl.
  - intros Hin. by apply elem_of_nil in Hin.
  - intros Hin. destruct (decide (k0 = k)) as [->|Hne]; simpl; [done|].
    apply elem_of_cons in Hin as [->|Hin]; [done|]. by rewrite IH.
Qed.

Lemma NoDup_dkeys_snoc d k v :
  NoDup (dkeys d) → k ∉ dkeys d → NoDup (dkeys (d ++ [(k, v)])).
Proof.
  intros Hnd Hn. unfold dkeys. rewrite map_app. simpl.
  apply NoDup_app. split; [done|]. split.
  - intros x Hx Hx'. apply list_elem_of_singleton in Hx'. by subst.
  - apply NoDup_singleton.
Qed.

Lemma NoDup_dkeys_dset d k v : NoDup (dkeys d) → NoDup (dkeys (dset d k v)).
Proof.
  intros Hnd. destruct (decide (k ∈ dkeys d)) as [Hin|Hn].
  - by rewrite dkeys_dset_present.
  - rewrite dset_fresh by done. by apply NoDup_dkeys_snoc.
Qed.

Lemma NoDup_dkeys_setdefault d k v :
  NoDup (dkeys d) → NoDup (dkeys (setdefault d k v)).
Proof.
  intros Hnd. unfold setdefault. destruct (dget d k) eqn:E; [done|].
  apply NoDup_dkeys_snoc; [done|]. by apply dget_None.
Qed.

Lemma fold_dset_fresh d items :
  NoDup (dkeys (d ++ items)) →
  fold_left (λ d kv, dset d kv.1 kv.2) items d = d ++ items.
Proof.
  revert d. induction items as [|[k v] items IH]; intros d Hnd; simpl.
  - by rewrite app_nil_r.
  - assert (k ∉ dkeys d) as Hk.
    { unfold dkeys in Hnd. rewrite map_app in Hnd. simpl in Hnd.
      apply NoDup_app in Hnd as (_ & Hdisj & _).
      intros Hin. apply (Hdisj k Hin). apply elem_of_cons. by left. }
    rewrite dset_fresh by done.
    rewrite IH; rewrite <- app_assoc; done.
Qed.

Lemma dict_of_items_NoDup (items : list (K * V)) :
  NoDup (dkeys items) → dict_of_items items = items.
Proof. intros Hnd. unfold dict_of_items. by rewrite fold_dset_fresh. Qed.

End pydict_facts.

(** ** Loops that may raise *)

Section foldM_facts.
Context {A B : Type} (f : A → B → outcome A).

Lemma foldM_invariant (P : A → Prop) (l : list B) :
  (∀ a x a', P a → f a x = Return a' → P a') →
  ∀ a r, P a → foldM f l a = Return r → P r.
Proof.
  intros Hstep. induction l as [|x l IH]; intros a r Ha; simpl.
  - by intros [= <-].
  - destruct (f a x) as [a'|e] eqn:E; [|done]. apply IH. by eapply Hstep.
Qed.

Lemma foldM_establish (Q : A → Prop) (l : list B) (x : B) :
  x ∈ l →
  (∀ a a', f a x = Return a' → Q a') →
  (∀ a y a', Q a → f a y = Return a' → Q a') →
  ∀ a r, foldM f l a = Return r → Q r.
Proof.
  intros Hin Hx Hkeep. induction l as [|y l IH]; intros a r; simpl.
  - by apply elem_of_nil in Hin.
  - destruct (f a y) as [a'|e] eqn:E; [|done].
    apply elem_of_cons in Hin as [<-|Hin].
    + apply (foldM_invariant Q l Hkeep). by eapply Hx.
    + by apply IH.
Qed.

Lemma foldM_total (l : list B) :
  (∀ a x, x ∈ l → ∃ a', f a x = Return a') →
  ∀ a, ∃ r, foldM f l a = Return r.
Proof.
  induction l as [|x l IH]; intros Hstep a; simpl; [eauto|].
  destruct (Hstep a x) as [a' ->]; [apply elem_of_cons; by left|].
  apply IH. intros a0 y Hy. apply Hstep. apply elem_of_cons. by right.
Qed.

End foldM_facts.

Lemma unpack_errors_Invalid f message errors force_dict list_of_errors :
  unpack_errors (InvalidExc f message errors) force_dict list_of_errors
  = if list_truthy errors || force_dict then
      match
        (if list_truthy errors
         then unpack_loop errors
                (match message with
                 | Some m => if str_truthy m then [(FNone, [m])] else []
                 | None => []
                 end)
         else Return (match message with
                      | Some m => if str_truthy m then [(FNone, [m])] else []
                      | None => []
                      end))
      with
      | Raise e => Raise e
      | Return result =>
          if list_of_errors then Return (UList result)
          else Return (UDict (collapse result))
      end
    else Return (UMsg message).
Proof. reflexivity. Qed.

(** The dicts built while unpacking have unique keys. *)

Lemma _safe_append_NoDup r k s :
  NoDup (dkeys r) → NoDup (dkeys (_safe_append r k s)).
Proof.
  intros Hnd. unfold _safe_append. destruct (dget r k).
  - by rewrite dkeys_dalter.
  - by apply NoDup_dkeys_dset.
Qed.

Lemma _join_dicts_NoDup {A} (r : list (FieldKey * list A)) d :
  NoDup (dkeys r) → NoDup (dkeys (_join_dicts r d)).
Proof.
  unfold _join_dicts. revert r.
  induction d as [|[k v] d IH]; intros r Hnd; simpl; [done|].
  apply IH. destruct v; rewrite dkeys_dalter; by apply NoDup_dkeys_setdefault.
Qed.

Lemma unpack_entry_NoDup unpack name r m r' :
  NoDup (dkeys r) → unpack_entry unpack name r m = Return r' → NoDup (dkeys r').
Proof.
  intros Hnd. unfold unpack_entry.
  destruct m as [s|[f msg errs|cls f args]].
  - intros [= <-]. by apply _safe_append_NoDup.
  - destruct (unpack _) as [[u|d|d]|e]; [| | |done].
    + destruct (message_truthy u); intros [= <-]; [by apply _safe_append_NoDup | done].
    + intros [= <-]. by apply _join_dicts_NoDup.
    + intros [= <-]. by apply _join_dicts_NoDup.
  - destruct args; [done|]. intros [= <-]. by apply _safe_append_NoDup.
Qed.

Lemma unpack_loop_NoDup errors r r' :
  NoDup (dkeys r) → unpack_loop errors r = Return r' → NoDup (dkeys r').
Proof.
  intros Hnd. unfold unpack_loop.
  apply (foldM_invariant _ (λ r, NoDup (dkeys r))); [|done].
  intros a item a' Ha.
  apply (foldM_invariant _ (λ r, NoDup (dkeys r))); [|done].
  intros b m b' Hb. by apply unpack_entry_NoDup.
Qed.

Lemma initial_result_NoDup (message : option string) :
  NoDup (dkeys (match message with
                | Some m => if str_truthy m then [(FNone, [m])] else []
                | None => []
                end : list (FieldKey * list string))).
Proof.
  destruct message as [m|]; [destruct (str_truthy m)|]; simpl;
    auto using NoDup_nil_2, NoDup_singleton.
Qed.

Lemma dkeys_omap_sub {A B} (g : FieldKey * A → option (FieldKey * B)) r k :
  (∀ x y, g x = Some y → y.1 = x.1) →
  k ∈ dkeys (omap g r) → k ∈ dkeys r.
Proof.
  intros Hg. induction r as [|x r IH]; simpl; [done|].
  destruct (g x) as [y|] eqn:E; simpl.
  - rewrite !elem_of_cons. intros [->|Hin]; [left; by apply Hg | right; by apply IH].
  - intros Hin. apply elem_of_cons. right. by apply IH.
Qed.

Lemma collapse_lookup r k :
  NoDup (dkeys r) → dget (collapse r) k = first_message (dget r k).
Proof.
  intros Hnd. unfold collapse.
  set (g := λ em : FieldKey * list string,
              match em.2 with [] => None | m0 :: _ => Some (em.1, m0) end).
  assert (Hg : ∀ x y, g x = Some y → y.1 = x.1).
  { intros [k0 [|m0 l0]] y; unfold g; simpl; [done|]. by intros [= <-]. }
  assert (NoDup (dkeys (omap g r))) as Hnd'.
  { clear k. induction r as [|[k0 l0] r IH]; simpl; [apply NoDup_nil_2|].
    simpl in Hnd. apply NoDup_cons in Hnd as [Hk0 Hnd].
    destruct (g (k0, l0)) as [[k1 m1]|] eqn:E; simpl; [|by apply IH].
    apply NoDup_cons. split; [|by apply IH].
    apply Hg in E. simpl in E. subst k1.
    intros Hin. apply Hk0. by eapply dkeys_omap_sub. }
  rewrite dict_of_items_NoDup by done. clear Hnd'.
  induction r as [|[k0 l0] r IH]; simpl; [done|].
  simpl in Hnd. apply NoDup_cons in Hnd as [Hk0 Hnd].
  destruct (decide (k0 = k)) as [->|Hne].
  - destruct l0 as [|m0 l0]; unfold g at 1; simpl.
    + apply dget_None. intros Hin. apply Hk0. by eapply dkeys_omap_sub.
    + by rewrite decide_True.
  - destruct l0 as [|m0 l0]; unfold g at 1; simpl; [by apply IH|].
    rewrite decide_False by done. by apply IH.
Qed.

Lemma unpack_errors_list_NoDup self force_dict r :
  unpack_errors self force_dict true = Return (UList r) → NoDup (dkeys r).
Proof.
  destruct self as [f message errors|cls f args]; [|done].
  rewrite unpack_errors_Invalid.
  destruct (list_truthy errors || force_dict); [|done].
  destruct (list_truthy errors).
  - destruct (unpack_loop errors _) as [r'|e] eqn:E; [|done].
    intros [= <-]. eapply unpack_loop_NoDup; [|exact E]. apply initial_result_NoDup.
  - intros [= <-]. apply initial_result_NoDup.
Qed.

(** Induction on exceptions through their nested entries. *)
Section exn_induction.
Variable P : exn → Prop.
Hypothesis P_Invalid :
  ∀ f message errors,
    Forall (λ item : FieldKey * list entry,
              Forall (λ m : entry,
                        match m with
                        | Exc e => P e
                        | Msg _ => True
                        end) item.2) errors →
    P (InvalidExc f message errors).
Hypothesis P_Other : ∀ cls f args, P (OtherExc cls f args).

Fixpoint exn_nested_ind (e : exn) : P e :=
  match e with
  | InvalidExc f message errors =>
      P_Invalid f message errors
        ((fix items (l : list (FieldKey * list entry)) :
            Forall (λ item : FieldKey * list entry,
                      Forall (λ m : entry,
                                match m with
                                | Exc e => P e
                                | Msg _ => True
                                end) item.2) l :=
            match l with
            | [] => Forall_nil_2 _
            | item :: l' =>
                Forall_cons_2 _ item l'
                  ((fix entries (ms : list entry) :
                      Forall (λ m : entry,
                                match m with
                                | Exc e => P e
                                | Msg _ => True
                                end) ms :=
                      match ms with
                      | [] => Forall_nil_2 _
                      | m :: ms' =>
                          Forall_cons_2 _ m ms'
                            (match m as m0
                               return match m0 with
                                      | Exc e => P e
                                      | Msg _ => True
                                      end
                             with
                             | Exc e => exn_nested_ind e
                             | Msg _ => I
                             end)
                            (entries ms')
                      end) item.2)
                  (items l')
            end) errors)
  | OtherExc cls f args => P_Other cls f args
  end.
End exn_induction.

Lemma unpack_errors_total (e : exn) :
  is_Invalid e = true → well_formed e = true →
  ∀ force_dict list_of_errors, ∃ u, unpack_errors e force_dict list_of_errors = Return u.
Proof.
  induction e as [f message errors IH|cls f args] using exn_nested_ind; [|done].
  intros _ Hwf force_dict list_of_errors. rewrite unpack_errors_Invalid.
  destruct (list_truthy errors || force_dict); [|eauto].
  assert (∀ r, ∃ r', unpack_loop errors r = Return r') as Hloop.
  { unfold unpack_loop. apply foldM_total. intros a item Hitem.
    apply foldM_total. intros b m Hm.
    apply list_elem_of_In in Hitem. apply list_elem_of_In in Hm.
    simpl in Hwf. rewrite forallb_forall in Hwf. specialize (Hwf item Hitem).
    rewrite forallb_forall in Hwf. specialize (Hwf m Hm).
    rewrite List.Forall_forall in IH. specialize (IH item Hitem).
    rewrite List.Forall_forall in IH. specialize (IH m Hm).
    unfold unpack_entry. destruct m as [s|[f' msg' errs'|cls' f' args']]; [eauto| |].
    - destruct (IH eq_refl Hwf false false) as [u ->].
      destruct u as [u| |]; [destruct (message_truthy u)| |]; eauto.
    - simpl in Hwf. destruct args'; [done | eauto]. }
  destruct (list_truthy errors).
  - destruct (Hloop (match message with
                     | Some m => if str_truthy m then [(FNone, [m])] else []
                     | None => []
                     end)) as [r' ->].
    destruct list_of_errors; simpl; eauto.
  - destruct list_of_errors; simpl; eauto.
Qed.

(** Unpacking only ever adds messages to the result. *)

Lemma holds_dalter_app r k k' v l' :
  holds r k v → holds (dalter (λ l, l ++ l') k' r) k v.
Proof.
  intros (l & Hl & Hv). unfold holds. rewrite dget_dalter, Hl.
  destruct (decide (k' = k)); simpl; [|eauto].
  exists (l ++ l'). split; [done|]. apply elem_of_app. by left.
Qed.

Lemma holds_setdefault r k k' v :
  holds r k v → holds (setdefault r k' []) k v.
Proof.
  intros (l & Hl & Hv). exists l. split; [|done]. by rewrite dget_setdefault, Hl.
Qed.

Lemma holds_safe_append r k k' v s :
  holds r k v → holds (_safe_append r k' s) k v.
Proof.
  intros Hh. unfold _safe_append. destruct (dget r k') eqn:E.
  - by apply holds_dalter_app.
  - destruct Hh as (l & Hl & Hv). exists l. split; [|done].
    rewrite dget_dset_ne; [done|]. intros ->. congruence.
Qed.

Lemma holds_join_dicts r d k v :
  holds r k v → holds (_join_dicts r d) k v.
Proof.
  unfold _join_dicts. revert r.
  induction d as [|[k' x] d IH]; intros r Hh; simpl; [done|].
  apply IH. destruct x; by apply holds_dalter_app, holds_setdefault.
Qed.

Lemma holds_join_dicts_new r (d : list (FieldKey * dval string)) k x v :
  (k, x) ∈ d → v ∈ dval_items x → holds (_join_dicts r d) k v.
Proof.
  unfold _join_dicts. revert r.
  induction d as [|[k' x'] d IH]; intros r Hin Hv; simpl.
  - by apply elem_of_nil in Hin.
  - apply elem_of_cons in Hin as [[= <- <-]|Hin]; [|by apply IH].
    apply (holds_join_dicts _ d).
    assert (∃ l, dget (setdefault r k []) k = Some l) as [l Hl].
    { rewrite dget_setdefault. destruct (dget r k); [eauto|].
      rewrite decide_True by done. eauto. }
    assert (∀ l', v ∈ l' → holds (dalter (λ l, l ++ l') k (setdefault r k [])) k v) as H.
    { intros l' Hl'. exists (l ++ l'). rewrite dget_dalter, Hl, decide_True by done.
      split; [done|]. apply elem_of_app. by right. }
    destruct x as [a|l']; simpl in Hv; by apply H.
Qed.

Lemma holds_unpack_entry unpack name r m r' k v :
  holds r k v → unpack_entry unpack name r m = Return r' → holds r' k v.
Proof.
  intros Hh. unfold unpack_entry.
  destruct m as [s|[f msg errs|cls f args]].
  - intros [= <-]. by apply holds_safe_append.
  - destruct (unpack _) as [[u|d|d]|e]; [| | |done].
    + destruct (message_truthy u); intros [= <-]; [by apply holds_safe_append | done].
    + intros [= <-]. by apply holds_join_dicts.
    + intros [= <-]. by apply holds_join_dicts.
  - destruct args; [done|]. intros [= <-]. by apply holds_safe_append.
Qed.

Lemma unpack_loop_merges errors name msglist inner d r0 r k v :
  (name, msglist) ∈ errors →
  Exc inner ∈ msglist →
  unpack_errors inner false false = Return (UDict d) →
  dget d k = Some v →
  unpack_loop errors r0 = Return r →
  holds r k v.
Proof.
  intros Hitem Hm Hinner Hd. unfold unpack_loop.
  apply (foldM_establish _ (λ r, holds r k v) errors (name, msglist) Hitem).
  - intros a a'. simpl.
    apply (foldM_establish _ (λ r, holds r k v) msglist (Exc inner) Hm).
    + intros b b'. unfold unpack_entry.
      destruct inner as [f msg errs|cls f args]; [|done].
      rewrite Hinner. intros [= <-].
      apply (holds_join_dicts_new _ _ k (One v) v).
      * apply dget_elem_of in Hd.
        change (k, One v) with ((λ kv : FieldKey * string, (kv.1, One kv.2)) (k, v)).
        by apply list_elem_of_fmap_2.
      * simpl. apply list_elem_of_singleton. done.
    + intros b m b' Hb. by apply holds_unpack_entry.
  - intros a item a' Ha.
    apply (foldM_invariant _ (λ r, holds r k v)); [|done].
    intros b m b' Hb. by apply holds_unpack_entry.
Qed.

(** Unpacking an [Invalid] whose entries are all plain messages. *)

Lemma dget_safe_append r k k' s :
  dget (_safe_append r k s) k'
  = if decide (k = k') then Some (default [] (dget r k) ++ [s]) else dget r k'.
Proof.
  unfold _safe_append. destruct (dget r k) as [l|] eqn:E.
  - rewrite dget_dalter. destruct (decide (k = k')) as [<-|]; [|done].
    by rewrite E.
  - destruct (decide (k = k')) as [<-|Hne].
    + by rewrite dget_dset_eq.
    + by rewrite dget_dset_ne.
Qed.

Lemma unpack_plain_entries unpack name (ss : list string) :
  ∀ r, ∃ r',
    foldM (unpack_entry unpack name) (map Msg ss) r = Return r'
    ∧ ∀ k, dget r' k
           = if decide (name = k)
             then match ss with
                  | [] => dget r k
                  | _ => Some (default [] (dget r k) ++ ss)
                  end
             else dget r k.
Proof.
  induction ss as [|s ss IH]; intros r; simpl.
  - exists r. split; [done|]. intros k. by destruct (decide (name = k)).
  - destruct (IH (_safe_append r name s)) as (r' & -> & Hr').
    exists r'. split; [done|]. intros k. rewrite Hr', !dget_safe_append.
    destruct (decide (name = k)) as [<-|Hne]; [|done].
    destruct ss; simpl; [done|]. by rewrite <- app_assoc.
Qed.

Lemma plain_entries (l : list entry) :
  forallb is_plain l = true → l = map Msg (plain_messages l).
Proof.
  induction l as [|[s|e] l IH]; simpl; [done| |done].
  intros H. unfold plain_messages in *. simpl. by rewrite <- IH.
Qed.

Lemma unpack_loop_plain (errors : list (FieldKey * list entry)) :
  NoDup (dkeys errors) →
  forallb (λ item, forallb is_plain item.2) errors = true →
  ∀ r, ∃ r',
    unpack_loop errors r = Return r'
    ∧ ∀ k, dget r' k
           = match plain_messages (default [] (dget errors k)) with
             | [] => dget r k
             | ss => Some (default [] (dget r k) ++ ss)
             end.
Proof.
  unfold unpack_loop.
  induction errors as [|[name ms] errors IH]; intros Hnd Hplain r; simpl.
  - exists r. done.
  - simpl in Hnd. apply NoDup_cons in Hnd as [Hname Hnd].
    apply andb_true_iff in Hplain as [Hms Hplain]. simpl in Hms.
    rewrite (plain_entries ms Hms).
    destruct (unpack_plain_entries (λ m, unpack_errors m false false) name
                (plain_messages ms) r) as (r1 & -> & Hr1).
    destruct (IH Hnd Hplain r1) as (r' & -> & Hr').
    exists r'. split; [done|]. intros k. rewrite Hr', Hr1.
    rewrite <- (plain_entries ms Hms).
    destruct (decide (name = k)) as [<-|Hne].
    + rewrite (proj2 (dget_None errors name) Hname). simpl.
      by destruct (plain_messages ms).
    + done.
Qed.

Lemma unpack_errors_plain f message errors :
  NoDup (dkeys errors) →
  forallb (λ item, forallb is_plain item.2) errors = true →
  ∃ r,
    unpack_errors (InvalidExc f message errors) true true = Return (UList r)
    ∧ ∀ k, dget r k
           = listed (top_messages message k
                     ++ plain_messages (default [] (dget errors k))).
Proof.
  intros Hnd Hplain. rewrite unpack_errors_Invalid, orb_true_r.
  set (r0 := match message with
             | Some m => if str_truthy m then [(FNone, [m])] else []
             | None => []
             end : list (FieldKey * list string)).
  assert (∀ k, dget r0 k = listed (top_messages message k)
               ∧ default [] (dget r0 k) = top_messages message k) as Hr0.
  { intros k. unfold r0, top_messages.
    destruct message as [m|]; [|by destruct k].
    destruct (str_truthy m); simpl; [|by destruct k].
    destruct (decide (FNone = k)) as [<-|Hne]; [done|]. by destruct k. }
  destruct (unpack_loop_plain errors Hnd Hplain r0) as (r & Hloop & Hr).
  exists r. split.
  - destruct errors; [|by rewrite Hloop]. simpl in Hloop. by injection Hloop as <-.
  - intros k. rewrite Hr. destruct (Hr0 k) as [H1 H2]. rewrite H2, H1.
    destruct (plain_messages _); simpl.
    + by rewrite app_nil_r.
    + by destruct (top_messages message k).
Qed.

(** C3.  For every exception [self], [unpack_errors] with
    [list_of_errors=False] returns, for each key, the first message of the
    list that [list_of_errors=True] returns under that key, and has no
    entry for a key whose list is empty; when one of the two calls raises,
    so does the other, with the same exception.  Both return for an
    [Invalid] in which every other exception stored as an entry has a
    first argument.  When all entries are plain messages, the list
    returned under a key is the whole list of [self.errors] for that key
    (after the top message, under [None]), and a key whose list is empty
    has no entry.  For [Invalid('top', {'x': 'bad'})] the results are
    [{None: 'top', 'x': 'bad'}] and [{None: ['top'], 'x': ['bad']}]. *)
Theorem unpack_errors_first_message_per_key (self : exn) :
  ((∃ r c,
      unpack_errors self true true = Return (UList r)
      ∧ unpack_errors self true false = Return (UDict c)
      ∧ ∀ k, dget c k = first_message (dget r k))
   ∨ (∃ e, unpack_errors self true true = Raise e
           ∧ unpack_errors self true false = Raise e))
  ∧ (is_Invalid self = true → well_formed self = true →
     ∃ r, unpack_errors self true true = Return (UList r))
  ∧ (∀ f message errors,
       self = InvalidExc f message errors →
       NoDup (dkeys errors) →
       forallb (λ item, forallb is_plain item.2) errors = true →
       ∃ r,
         unpack_errors self true true = Return (UList r)
         ∧ ∀ k, dget r k
                = listed (top_messages message k
                          ++ plain_messages (default [] (dget errors k))))
  ∧ unpack_errors (__init__ [Plain "top"; Mapping [(FName "x", One (Msg "bad"))]] [])
      true false
    = Return (UDict [(FNone, "top"); (FName "x", "bad")])
  ∧ unpack_errors (__init__ [Plain "top"; Mapping [(FName "x", One (Msg "bad"))]] [])
      true true
    = Return (UList [(FNone, ["top"]); (FName "x", ["bad"])]).
Proof.
  assert (∀ b, unpack_errors self true b
               = match unpack_errors self true true with
                 | Return (UList r) => if b then Return (UList r) else Return (UDict (collapse r))
                 | other => other
                 end) as Hshape.
  { intros b. destruct self as [f message errors|cls f args]; [|done].
    rewrite !unpack_errors_Invalid, orb_true_r.
    destruct (if list_truthy errors then _ else _); [|done]. by destruct b. }
  split; [|split; [|split; [|split; reflexivity]]].
  - destruct (unpack_errors self true true) as [[u|d|r]|e] eqn:E.
    + destruct self; [|done]. rewrite unpack_errors_Invalid, orb_true_r in E.
      by destruct (if list_truthy errors then _ else _).
    + destruct self; [|done]. rewrite unpack_errors_Invalid, orb_true_r in E.
      by destruct (if list_truthy errors then _ else _).
    + left. exists r, (collapse r). split; [done|].
      split; [rewrite Hshape; by rewrite ?E|].
      intros k. apply collapse_lookup. by eapply unpack_errors_list_NoDup.
    + right. exists e. split; [done|]. rewrite Hshape. by rewrite ?E.
  - intros Hinv Hwf. destruct (unpack_errors_total self Hinv Hwf true true) as [u Hu].
    destruct self as [f message errors|cls f args]; [|done].
    rewrite unpack_errors_Invalid, orb_true_r in Hu |- *.
    destruct (if list_truthy errors then _ else _); [eauto | done].
  - intros f message errors -> Hnd Hplain. by apply unpack_errors_plain.
Qed.

(** Two messages under ['y'] and a [KeyError('k')] under ['x']. *)
Lemma unpack_errors_first_message_per_key_witness :
  let self :=
    __init__ [Mapping [(FName "y", Many [Msg "one"; Msg "two"]);
                       (FName "x", One (Exc (OtherExc "KeyError" None ["k"])))]] [] in
  is_Invalid self = true
  ∧ well_formed self = true
  ∧ ∃ r, unpack_errors self true true = Return (UList r).
Proof.
  split; [reflexivity|]. split; [reflexivity|].
  exact (proj1 (proj2 (unpack_errors_first_message_per_key
                         (__init__ [Mapping [(FName "y", Many [Msg "one"; Msg "two"]);
                                             (FName "x", One (Exc (OtherExc "KeyError" None ["k"])))]] [])))
           eq_refl eq_refl).
Defined.

Lemma _join_dicts_keys (r : list (FieldKey * list string))
    (d : list (FieldKey * dval string)) k :
  is_Some (dget (_join_dicts r d) k) ↔ is_Some (dget r k) ∨ k ∈ dkeys d.
Proof.
  unfold _join_dicts. revert r.
  induction d as [|[k' x] d IH]; intros r; simpl.
  - rewrite elem_of_nil. tauto.
  - rewrite elem_of_cons.
    assert (∀ l', is_Some (dget (dalter (λ l, l ++ l') k' (setdefault r k' [])) k)
                  ↔ is_Some (dget r k) ∨ k = k') as Hstep.
    { intros l'. rewrite dget_dalter, dget_setdefault.
      destruct (decide (k' = k)) as [->|Hne]; destruct (dget r k); simpl;
        (split; [intros [? ?]; eauto; discriminate
                |intros [[? ?]|?]; eauto; congruence]). }
    destruct x; rewrite IH, Hstep; tauto.
Qed.

(** C2.  When [self.errors] holds, under some key [name], a nested
    [Invalid] whose own unpacking (with [force_dict=False]) is a mapping
    [d], [unpack_errors] merges [d] into the result of [self]: every key
    [k] of [d] is a key of the result itself, with the message of [d]
    among the messages listed under [k].  When that nested [Invalid] is
    the only entry of [self.errors], the result has no other key, apart
    from [None] for the top message: [name] is a key only if [d] has it.
    For [Invalid({'x': Invalid({'y': 'deep'})})] the result is
    [{'y': 'deep'}], with no entry for ['x'].  The hypothesis
    [well_formed] says that every exception stored as an entry which is
    not an [Invalid] has a first argument; without it unpacking raises
    [IndexError]. *)
Theorem unpack_errors_flattens_nested
    f message errors name msglist inner d force_dict :
  well_formed (InvalidExc f message errors) = true →
  (name, msglist) ∈ errors →
  Exc inner ∈ msglist →
  unpack_errors inner false false = Return (UDict d) →
  (∃ r c,
     unpack_errors (InvalidExc f message errors) force_dict true = Return (UList r)
     ∧ unpack_errors (InvalidExc f message errors) force_dict false = Return (UDict c)
     ∧ ∀ k v, dget d k = Some v →
         (∃ l, dget r k = Some l ∧ v ∈ l) ∧ is_Some (dget c k))
  ∧ (∃ r,
       unpack_errors (InvalidExc f message [(name, [Exc inner])]) force_dict true
       = Return (UList r)
       ∧ ∀ k, is_Some (dget r k) →
              (k = FNone ∧ message_truthy message = true) ∨ is_Some (dget d k))
  ∧ unpack_errors
      (__init__ [Mapping [(FName "x", One (Exc (__init__ [Mapping [(FName "y", One (Msg "deep"))]] [])))]] [])
      true false
    = Return (UDict [(FName "y", "deep")]).
Proof.
  intros Hwf Hitem Hm Hinner. split; [|split; [|reflexivity]].
  - assert (list_truthy errors = true) as Hne.
    { destruct errors; [by apply elem_of_nil in Hitem | done]. }
    destruct (unpack_errors_total (InvalidExc f message errors) eq_refl Hwf force_dict true)
      as [u Hu].
    rewrite unpack_errors_Invalid in Hu |- *. rewrite unpack_errors_Invalid.
    rewrite Hne in Hu |- *. simpl in Hu |- *.
    destruct (unpack_loop errors _) as [r|e] eqn:E; [|done].
    exists r, (collapse r). split; [done|]. split; [done|].
    intros k v Hd.
    pose proof (unpack_loop_merges _ _ _ _ _ _ _ _ _ Hitem Hm Hinner Hd E) as Hh.
    split; [exact Hh|].
    rewrite collapse_lookup.
    + destruct Hh as (l & -> & Hv). destruct l; [by apply elem_of_nil in Hv | done].
    + eapply unpack_loop_NoDup; [|exact E]. apply initial_result_NoDup.
  - rewrite unpack_errors_Invalid. simpl. unfold unpack_loop. simpl.
    destruct inner as [f' message' errors'|cls f' args]; [|done].
    unfold unpack_entry. rewrite Hinner. eexists. split; [reflexivity|].
    intros k Hk. apply _join_dicts_keys in Hk as [Hk|Hk].
    + left. destruct message as [m|]; simpl in *; [|by destruct Hk].
      destruct (str_truthy m); simpl in Hk; [|by destruct Hk].
      destruct (decide (FNone = k)) as [<-|]; [done | by destruct Hk].
    + right. apply dget_is_Some. unfold dkeys in *. by rewrite map_map in Hk.
Qed.

Lemma unpack_errors_flattens_nested_witness :
  let inner := __init__ [Mapping [(FName "y", One (Msg "deep"))]] [] in
  let errors : list (FieldKey * list entry) :=
    [(FName "x", [Msg "shallow"; Exc inner])] in
  ∃ r c,
    unpack_errors (InvalidExc None (Some "top") errors) true true = Return (UList r)
    ∧ unpack_errors (InvalidExc None (Some "top") errors) true false = Return (UDict c)
    ∧ ∀ k v, dget [(FName "y", "deep")] k = Some v →
        (∃ l, dget r k = Some l ∧ v ∈ l) ∧ is_Some (dget c k).
Proof.
  exact (proj1 (unpack_errors_flattens_nested None (Some "top")
                  [(FName "x", [Msg "shallow"; Exc (__init__ [Mapping [(FName "y", One (Msg "deep"))]] [])])]
                  (FName "x")
                  [Msg "shallow"; Exc (__init__ [Mapping [(FName "y", One (Msg "deep"))]] [])]
                  (__init__ [Mapping [(FName "y", One (Msg "deep"))]] [])
                  [(FName "y", "deep")] true
                  eq_refl
                  (list_elem_of_here _ _)
                  (list_elem_of_further _ _ _ (list_elem_of_here _ _))
                  eq_refl)).
Defined.

(** ** [add_error_message] *)

Section add_error_message_facts.
Variable same_object : exn → exn → bool.

Lemma no_dup_entries_snoc (l : list entry) (msg : entry) :
  no_dup_entries same_object l = true →
  existsb (λ x, entry_eq same_object x msg) l = false →
  no_dup_entries same_object (l ++ [msg]) = true.
Proof.
  induction l as [|x l IH]; simpl; [done|].
  intros [Hx Hl]%andb_true_iff [Hxm Hlm]%orb_false_iff.
  apply andb_true_iff. split; [|by apply IH].
  rewrite existsb_app. simpl. rewrite Hxm.
  apply negb_true_iff in Hx. by rewrite Hx.
Qed.

Lemma Forall_dalter {V} (P : FieldKey * V → Prop) (f : V → V) k
    (d : list (FieldKey * V)) :
  Forall P d →
  (∀ v, dget d k = Some v → P (k, f v)) →
  Forall P (dalter f k d).
Proof.
  induction d as [|[k0 v0] d IH]; simpl; intros Hd Hk; [done|].
  apply Forall_cons in Hd as [Hd0 Hd].
  destruct (decide (k0 = k)) as [->|Hne]; apply Forall_cons; split; auto.
Qed.

Lemma dalter_snoc_fresh {V} (f : V → V) k v (d : list (FieldKey * V)) :
  k ∉ dkeys d → dalter f k (d ++ [(k, v)]) = d ++ [(k, f v)].
Proof.
  induction d as [|[k0 v0] d IH]; simpl.
  - intros _. by rewrite decide_True.
  - rewrite not_elem_of_cons. intros [Hne Hn].
    rewrite decide_False by done. by rewrite IH.
Qed.

Lemma _add_error_message_invariant errors k msg :
  errors_invariant same_object errors →
  errors_invariant same_object (_add_error_message same_object errors k msg).
Proof.
  intros Hinv. unfold _add_error_message, setdefault.
  destruct (dget errors k) as [l|] eqn:Hget.
  - rewrite Hget. simpl.
    destruct (existsb _ l) eqn:Hex; simpl; [done|].
    apply Forall_dalter; [done|]. intros v Hv. simpl.
    rewrite Hget in Hv. injection Hv as <-.
    split; [by destruct l|].
    apply no_dup_entries_snoc; [|done].
    apply dget_elem_of in Hget.
    unfold errors_invariant in Hinv. rewrite Forall_forall in Hinv.
    by destruct (Hinv _ Hget).
  - assert (k ∉ dkeys errors) as Hfresh by by apply dget_None.
    rewrite dget_app, Hget. simpl. rewrite decide_True by done. simpl.
    rewrite dalter_snoc_fresh by done.
    apply Forall_app. split; [done|]. apply Forall_singleton. done.
Qed.

Lemma add_error_message_invariant (self : exn) k msg :
  errors_invariant same_object (exn_errors self) →
  errors_invariant same_object (exn_errors (add_error_message same_object self k msg)).
Proof.
  destruct self; simpl; [|done]. apply _add_error_message_invariant.
Qed.

Lemma init_plain_only (msgs : list string) :
  exn_errors (__init__ (map Plain msgs) []) = [].
Proof.
  unfold __init__. simpl.
  assert (∀ p, (fold_left
            (λ (dp : list (FieldKey * list entry) * list string) a,
               match a with
               | Mapping a => (_join_dicts dp.1 a, dp.2)
               | Plain a => (dp.1, dp.2 ++ [a])
               end)
            (map Plain msgs) ([], p)).1 = []) as H.
  { induction msgs as [|m msgs IH]; intros p; simpl; [done|]. apply IH. }
  by rewrite H.
Qed.
End add_error_message_facts.

(** C7, amended.  [add_error_message] keeps the invariant of [errors]
    (every key maps to a non-empty list in which no entry is equal to a
    later one): it holds after any sequence of [add_error_message] calls
    on an exception for which it held before, in particular on an
    [Invalid] constructed from plain messages only, whose [errors] is
    empty.  ([same_object] is the identity of exception objects, which
    Python's [==] uses to compare them.) *)
Theorem add_error_message_keeps_invariant
    (same_object : exn → exn → bool) :
  (∀ msgs : list string,
     exn_errors (__init__ (map Plain msgs) []) = [])
  ∧ (∀ (self : exn) (adds : list (FieldKey * entry)),
       errors_invariant same_object (exn_errors self) →
       errors_invariant same_object
         (exn_errors
            (fold_left (λ e a, add_error_message same_object e a.1 a.2) adds self))).
Proof.
  split.
  - apply init_plain_only.
  - intros self adds. revert self.
    induction adds as [|[k m] adds IH]; intros self Hinv; simpl; [done|].
    apply IH. by apply add_error_message_invariant.
Qed.

(** [Invalid('top')], then the same message twice under ['x'] and another
    one under [None]. *)
Lemma add_error_message_keeps_invariant_witness :
  errors_invariant (λ _ _, false)
    (exn_errors
       (fold_left (λ e a, add_error_message (λ _ _, false) e a.1 a.2)
          [(FName "x", Msg "bad"); (FName "x", Msg "bad"); (FNone, Msg "worse")]
          (__init__ [Plain "top"] []))).
Proof.
  refine (proj2 (add_error_message_keeps_invariant (λ _ _, false))
            (__init__ [Plain "top"] []) _ _).
  apply Forall_nil_2.
Defined.

(** C7 as stated fails at construction: a mapping given to [Invalid] is
    stored as it is, duplicates and empty lists included. *)
Lemma init_stores_duplicates_and_empty_lists :
  exn_errors (__init__ [Mapping [(FName "x", Many [Msg "a"; Msg "a"])]] [])
  = [(FName "x", [Msg "a"; Msg "a"])]
  ∧ exn_errors (__init__ [Mapping [(FName "x", Many [])]] []) = [(FName "x", [])]
  ∧ ¬ errors_invariant (λ _ _, false)
        (exn_errors (__init__ [Mapping [(FName "x", Many [Msg "a"; Msg "a"])]] []))
  ∧ ¬ errors_invariant (λ _ _, false)
        (exn_errors (__init__ [Mapping [(FName "x", Many [])]] [])).
Proof.
  split; [reflexivity|]. split; [reflexivity|]. split.
  - intros H. apply Forall_cons in H as [[_ H] _]. discriminate H.
  - intros H. apply Forall_cons in H as [[H _] _]. by apply H.
Qed.

(** ** [either] *)

Lemma either_loop_all_fail (validators : list Validator) (value : pyval) :
  ∀ last_exception calls,
    Forall (λ v, ∃ e, v value = Raise e) validators →
    either_loop validators value last_exception calls
    = (calls ++ replicate (length validators) value,
       match last validators with
       | Some v => v value
       | None =>
           match last_exception with
           | Some e => Raise e
           | None =>
               Raise (UnboundLocalError
                        "local variable 'last_exception' referenced before assignment")
           end
       end).
Proof.
  induction validators as [|v vs IH]; intros last_exception calls Hall; simpl.
  - by rewrite app_nil_r.
  - apply Forall_cons in Hall as [[e He] Hall]. rewrite He.
    rewrite (IH _ _ Hall). rewrite <- app_assoc. simpl. f_equal.
    destruct vs as [|v' vs']; simpl; [by rewrite He |].
    destruct (last (v' :: vs')) eqn:E; [done|]. by apply last_None in E.
Qed.

Lemma either_loop_first_success (validators : list Validator) (value : pyval) :
  ∀ i v r last_exception calls,
    validators !! i = Some v →
    v value = Return r →
    (∀ j w, (j < i)%nat → validators !! j = Some w → ∃ e, w value = Raise e) →
    either_loop validators value last_exception calls
    = (calls ++ replicate (S i) value, Return r).
Proof.
  induction validators as [|v0 vs IH]; intros i v r last_exception calls Hi Hv Hbefore.
  - done.
  - destruct i as [|i]; simpl in *.
    + injection Hi as ->. by rewrite Hv.
    + destruct (Hbefore 0%nat v0) as [e He]; [lia | done |].
      rewrite He. rewrite (IH i v r); [|done|done|].
      * rewrite <- app_assoc. done.
      * intros j w Hj Hw. apply (Hbefore (S j) w); [lia | done].
Qed.

(** C5.  Let [v], at position [i] of [validators], be the first validator
    that succeeds on [value], or the last validator when none before it
    succeeds: every validator before [v] fails on [value].  Then
    [either(validators)(value)] invokes the validators up to [v] and no
    other, each with the original [value], and its outcome is the outcome
    of [v] on [value]: the result of the first success, or the last error
    when all fail.  (Such a [v] exists exactly when [validators] is not
    empty.) *)
Theorem either_first_success_or_last_error
    (validators : list Validator) (value : pyval) (i : nat) (v : Validator) :
  validators !! i = Some v →
  (∀ j u, (j < i)%nat → validators !! j = Some u → ∃ e, u value = Raise e) →
  ((∃ r, v value = Return r) ∨ S i = length validators) →
  either_run validators value = (replicate (S i) value, v value)
  ∧ either validators value = v value.
Proof.
  intros Hi Hbefore Hv.
  assert (either_run validators value = (replicate (S i) value, v value)) as Hrun.
  { unfold either_run. destruct (v value) as [r|e] eqn:Hvalue.
    - by rewrite (either_loop_first_success _ _ i v r None [] Hi Hvalue Hbefore).
    - destruct Hv as [[r Hr]|Hlast]; [congruence|].
      assert (last validators = Some v) as Hlastv.
      { rewrite last_lookup, <- Hlast. done. }
      rewrite either_loop_all_fail, Hlastv, Hvalue, <- Hlast; [done|].
      apply Forall_lookup. intros j u Hj.
      destruct (decide (j < i)%nat) as [Hlt|Hge]; [by eapply Hbefore|].
      assert (j = i) as -> by (apply lookup_lt_Some in Hj; lia).
      rewrite Hi in Hj. injection Hj as <-. eauto. }
  split; [done|]. unfold either. by rewrite Hrun.
Qed.

(** [either(integer(), identity)('x')]: [integer] fails, the second
    validator returns. *)
Lemma either_first_success_or_last_error_witness :
  either_run [integer MsgNone; (λ x, Return x)] (VStr "x")
  = ([VStr "x"; VStr "x"], Return (VStr "x"))
  ∧ either [integer MsgNone; (λ x, Return x)] (VStr "x") = Return (VStr "x").
Proof.
  refine (either_first_success_or_last_error
            [integer MsgNone; (λ x, Return x)] (VStr "x") 1 (λ x, Return x)
            eq_refl _ (or_introl (ex_intro _ (VStr "x") eq_refl))).
  intros j u Hj Hu. destruct j as [|j]; [|lia].
  injection Hu as <-. eexists. reflexivity.
Defined.

(** C6 (the code does not do this).  [either()] with no validators: the
    loop body never runs, the local [last_exception] is still unbound at
    [raise last_exception], and the call raises [UnboundLocalError], which
    is not an [Invalid]. *)
Theorem either_no_validators (value : pyval) :
  either_run [] value
  = ([], Raise (OtherExc "UnboundLocalError" None
                  ["local variable 'last_exception' referenced before assignment"]))
  ∧ ∀ f m errors, either [] value ≠ Raise (InvalidExc f m errors).
Proof. split; [reflexivity | intros f m errors; discriminate]. Qed.

(** ** [Schema.__call__] *)

Lemma insert_key_Permutation k l : insert_key k l ≡ₚ k :: l.
Proof.
  induction l as [|y l IH]; simpl; [done|].
  destruct (key_leb k y); [done|].
  rewrite IH. apply Permutation_swap.
Qed.

Lemma sorted_Permutation l : sorted l ≡ₚ l.
Proof.
  induction l as [|k l IH]; simpl; [done|].
  rewrite insert_key_Permutation. by rewrite IH.
Qed.

Lemma sorted_declared (self : Schema.t) k :
  k ∈ sorted (dkeys (Schema.subvalidators self)) →
  is_Some (dget (Schema.subvalidators self) k).
Proof. rewrite sorted_Permutation. apply dget_is_Some. Qed.

Lemma hread_halloc_empty w l : hread (halloc w ∅).1 l = hread w l.
Proof.
  unfold hread, halloc. simpl.
  destruct (decide (l < length (heap w))%nat) as [Hlt|Hge].
  - by rewrite lookup_app_l.
  - rewrite lookup_app_r by lia. rewrite (lookup_ge_None_2 (heap w)) by lia.
    destruct (l - length (heap w))%nat; simpl; done.
Qed.

Lemma bucket_app fs1 fs2 name : bucket (fs1 ++ fs2) name = bucket fs1 name ++ bucket fs2 name.
Proof. unfold bucket. by rewrite filter_app, map_app. Qed.

Lemma buckets_of_nil : buckets_of [] [].
Proof. split; [apply NoDup_nil_2 | done]. Qed.

Lemma buckets_of_failure exceptions fs k e :
  buckets_of exceptions fs →
  buckets_of
    (dalter (λ l, l ++ [e]) (bucket_name e k)
       (setdefault exceptions (bucket_name e k) []))
    (fs ++ [(k, e)]).
Proof.
  intros [Hnd Hget]. split.
  - rewrite dkeys_dalter. by apply NoDup_dkeys_setdefault.
  - intros name. rewrite dget_dalter, dget_setdefault, bucket_app, Hget.
    assert (bucket [(k, e)] name
            = if decide (bucket_name e k = name) then [e] else []) as ->.
    { unfold bucket. rewrite filter_cons, filter_nil. simpl.
      by destruct (decide (bucket_name e k = name)). }
    destruct (decide (bucket_name e k = name));
      destruct (bucket fs name); simpl; rewrite ?app_nil_r; done.
Qed.

Lemma step_returns (self : Schema.t) data res w exceptions k vfunc :
  dget (Schema.subvalidators self) k = Some vfunc →
  plural_results_iterable self →
  ∃ w',
    Schema.step self data res (w, exceptions) k
    = (w', Return (match as_validator vfunc (Schema.vdata_of w res data k) with
                   | Raise e =>
                       dalter (λ l, l ++ [e]) (bucket_name e k)
                         (setdefault exceptions (bucket_name e k) [])
                   | Return _ => exceptions
                   end))
    ∧ calls w' = calls w ++ [(k, Schema.vdata_of w res data k)].
Proof.
  intros Hk Hplural. unfold Schema.step. rewrite Hk.
  destruct (as_validator vfunc _) as [tmp|e] eqn:Hv.
  - destruct k as [x|xs].
    + eexists. split; [reflexivity|]. done.
    + destruct (Hplural xs vfunc _ tmp Hk Hv) as [ts Hts].
      rewrite Hts. eexists. split; [reflexivity|]. done.
  - eexists. split; [reflexivity|]. done.
Qed.

Lemma loop_cons (self : Schema.t) data res k keys st :
  Schema.loop self data res (k :: keys) st
  = match Schema.step self data res st k with
    | (w, Return exceptions) => Schema.loop self data res keys (w, exceptions)
    | (w, Raise e) => (w, Raise e)
    end.
Proof. reflexivity. Qed.

Lemma loop_returns (self : Schema.t) data res keys :
  ∀ w exceptions fs,
    (∀ k, k ∈ keys → is_Some (dget (Schema.subvalidators self) k)) →
    plural_results_iterable self →
    buckets_of exceptions fs →
    ∃ w' exceptions' new,
      Schema.loop self data res keys (w, exceptions) = (w', Return exceptions')
      ∧ calls w' = calls w ++ new
      ∧ map fst new = keys
      ∧ buckets_of exceptions' (fs ++ failures self new).
Proof.
  induction keys as [|k keys IH]; intros w exceptions fs Hdecl Hplural Hb.
  - exists w, exceptions, []. simpl. by rewrite !app_nil_r.
  - rewrite loop_cons. destruct (Hdecl k) as [vfunc Hk]; [apply elem_of_cons; by left|].
    destruct (step_returns self data res w exceptions k vfunc Hk Hplural)
      as (w1 & -> & Hcalls1).
    cbv beta iota.
    pose (c := (k, Schema.vdata_of w res data k)).
    assert (buckets_of
              (match as_validator vfunc (Schema.vdata_of w res data k) with
               | Raise e =>
                   dalter (λ l, l ++ [e]) (bucket_name e k)
                     (setdefault exceptions (bucket_name e k) [])
               | Return _ => exceptions
               end)
              (fs ++ failures self [c])) as Hb1.
    { unfold failures, failure_of. simpl. rewrite Hk.
      destruct (as_validator vfunc _); simpl.
      - by rewrite app_nil_r.
      - by apply buckets_of_failure. }
    destruct (IH w1 _ _ (λ k' Hk', Hdecl k' (proj2 (elem_of_cons _ _ _) (or_intror Hk')))
                Hplural Hb1) as (w' & exceptions' & new & -> & Hcalls & Hkeys & Hb').
    exists w', exceptions', (c :: new). split; [done|].
    split; [by rewrite Hcalls, Hcalls1, <- app_assoc|].
    split; [simpl; by rewrite Hkeys|].
    unfold failures in *. rewrite <- app_assoc in Hb'.
    change (c :: new) with ([c] ++ new). by rewrite omap_app.
Qed.

Lemma _join_dicts_fresh {A} (r : list (FieldKey * list A)) (d : list (FieldKey * list A)) :
  NoDup (dkeys (r ++ d)) →
  _join_dicts r (map (λ kv, (kv.1, Many kv.2)) d) = r ++ d.
Proof.
  unfold _join_dicts. revert r.
  induction d as [|[k l] d IH]; intros r Hnd; simpl.
  - by rewrite app_nil_r.
  - assert (k ∉ dkeys r) as Hk.
    { unfold dkeys in Hnd. rewrite map_app in Hnd. simpl in Hnd.
      apply NoDup_app in Hnd as (_ & Hdisj & _).
      intros Hin. apply (Hdisj k Hin). apply elem_of_cons. by left. }
    unfold setdefault. rewrite (proj2 (dget_None r k) Hk).
    rewrite dalter_snoc_fresh by done. simpl.
    rewrite IH; rewrite <- app_assoc; done.
Qed.

Lemma init_message_and_buckets (m : string) (exceptions : list (FieldKey * list exn)) :
  NoDup (dkeys exceptions) →
  __init__ [Plain m; Mapping (map (λ kv, (kv.1, Many (map Exc kv.2))) exceptions)] []
  = InvalidExc None (Some m) (map (λ kv, (kv.1, map Exc kv.2)) exceptions).
Proof.
  intros Hnd. unfold __init__. simpl. f_equal.
  pose proof (_join_dicts_fresh [] (map (λ kv : FieldKey * list exn, (kv.1, map (@Exc exn) kv.2)) exceptions)) as H.
  rewrite map_map in H. simpl in H. apply H.
  unfold dkeys. rewrite map_map. simpl. exact Hnd.
Qed.

Lemma dget_map_values {A B} (g : A → B) (d : list (FieldKey * A)) k :
  dget (map (λ kv, (kv.1, g kv.2)) d) k = g <$> dget d k.
Proof.
  induction d as [|[k0 v0] d IH]; simpl; [done|].
  destruct (decide (k0 = k)); done.
Qed.

(** C1.  A schema call on input that passes the checks on the key sets
    invokes the subvalidator of every declared key, once each, in sorted
    order, whether or not earlier ones failed.  When none fails the call
    returns; otherwise it raises one [Invalid] with the schema-level
    message, in which the list under each field name is exactly the list
    of the exceptions raised by the failing keys and attributed to that
    name, and a name to which no failure is attributed has no entry.
    Subvalidators of plural keys are taken to honour their contract: given
    a tuple, they return something that can be zipped with the key.
    [Schema({'a': integer(), 'b': integer()})] on [{'a': '1', 'b': 'x'}]
    raises an error whose unpacked form has an entry for ['b'] and none
    for ['a']. *)
Theorem schema_call_aggregates_failures (self : Schema.t) (data : nat) (w : world) :
  Schema.key_checks self (hread w data) = None →
  plural_results_iterable self →
  (∃ w' out new,
     Schema.__call__ self data w = (w', out)
     ∧ calls w' = calls w ++ new
     ∧ map fst new = sorted (dkeys (Schema.subvalidators self))
     ∧ match failures self new with
       | [] => ∃ res, out = Return res
       | fs =>
           ∃ errors,
             out = Raise (InvalidExc None (Some (schema_error_message self)) errors)
             ∧ ∀ name, dget errors name
                       = match bucket fs name with
                         | [] => None
                         | l => Some (map Exc l)
                         end
       end)
  ∧ (let self :=
       Schema.Make [(Singular "a", VFunc (integer MsgNone));
                    (Singular "b", VFunc (integer MsgNone))]
         MsgNone true true true in
     ∃ w' e d,
       call_on self (<["a" := VStr "1"]> (<["b" := VStr "x"]> ∅)) = (w', Raise e)
       ∧ unpack_errors e true false = Return (UDict d)
       ∧ dget d (FName "b") = Some "not an integer"
       ∧ dget d (FName "a") = None).
Proof.
  intros Hchecks Hplural. split.
  - unfold Schema.__call__.
    set (wr := if negb (Schema.filter_extra self) then (w, data) else halloc w ∅).
    assert (hread wr.1 data = hread w data ∧ calls wr.1 = calls w) as [Hread Hcalls0].
    { unfold wr. destruct (Schema.filter_extra self); simpl; [|done].
      split; [apply hread_halloc_empty | done]. }
    destruct wr as [w0 res]. simpl in Hread, Hcalls0. rewrite Hread, Hchecks.
    destruct (loop_returns self data res (sorted (dkeys (Schema.subvalidators self)))
                w0 [] [] (sorted_declared self) Hplural buckets_of_nil)
      as (w' & exceptions & new & -> & Hcalls & Hkeys & [Hnd Hb]).
    simpl in Hb.
    destruct (failures self new) as [|f fs] eqn:Hf.
    + assert (exceptions = []) as ->.
      { destruct exceptions as [|[name l] exceptions]; [done|].
        specialize (Hb name). simpl in Hb. by rewrite decide_True in Hb. }
      exists w', (Return res), new. rewrite Hcalls, Hcalls0, Hf. simpl. eauto.
    + assert (list_truthy exceptions = true) as ->.
      { destruct exceptions; [|done]. specialize (Hb (bucket_name f.2 f.1)).
        unfold bucket in Hb. rewrite filter_cons, decide_True in Hb by done. done. }
      eexists w', _, new. split; [reflexivity|]. rewrite Hcalls, Hcalls0, Hf.
      split; [done|]. split; [done|].
      eexists. split.
      * unfold schema_error_message. by rewrite init_message_and_buckets.
      * intros name. rewrite dget_map_values, Hb. by destruct (bucket (f :: fs) name).
  - vm_compute. do 3 eexists. split; [reflexivity|]. split; [reflexivity|]. done.
Qed.

(** A schema with a plural key whose validator returns its tuple, on input
    where ['b'] is not an integer. *)
Lemma schema_call_aggregates_failures_witness :
  let self :=
    Schema.Make
      [(Singular "a", VFunc (integer MsgNone));
       (Singular "b", VFunc (integer MsgNone));
       (Plural ["a"; "b"], VFunc (λ v, Return v))]
      MsgNone true true true in
  let w := World [<["a" := VStr "1"]> (<["b" := VStr "x"]> ∅)] [] in
  ∃ w' out new,
    Schema.__call__ self 0%nat w = (w', out)
    ∧ calls w' = calls w ++ new
    ∧ map fst new = [Singular "a"; Singular "b"; Plural ["a"; "b"]].
Proof.
  simpl.
  assert (plural_results_iterable
            (Schema.Make
               [(Singular "a", VFunc (integer MsgNone));
                (Singular "b", VFunc (integer MsgNone));
                (Plural ["a"; "b"], VFunc (λ v, Return v))]
               MsgNone true true true)) as Hplural.
  { intros k vfunc values tmp Hk Hv. simpl in Hk.
    destruct (decide (Plural ["a"; "b"] = Plural k)) as [_|_]; [|discriminate Hk].
    injection Hk as <-. simpl in Hv. injection Hv as <-. by eexists. }
  destruct (proj1 (schema_call_aggregates_failures
                     (Schema.Make
                        [(Singular "a", VFunc (integer MsgNone));
                         (Singular "b", VFunc (integer MsgNone));
                         (Plural ["a"; "b"], VFunc (λ v, Return v))]
                        MsgNone true true true)
                     0%nat
                     (World [<["a" := VStr "1"]> (<["b" := VStr "x"]> ∅)] [])
                     eq_refl Hplural))
    as (w' & out & new & Hcall & Hcalls & Hkeys & _).
  exists w', out, new. split; [exact Hcall|]. split; [exact Hcalls|]. exact Hkeys.
Defined.

Lemma elem_of_fold_union (l : list string) (acc : gset string) x :
  x ∈ fold_left (λ schemakeys x1, schemakeys ∪ {[x1]}) l acc ↔ x ∈ acc ∨ x ∈ l.
Proof.
  revert acc. induction l as [|y l IH]; intros acc; simpl.
  - rewrite elem_of_nil. tauto.
  - rewrite IH, elem_of_union, elem_of_singleton, elem_of_cons. tauto.
Qed.

Lemma elem_of_fold_keys (keys : list SchemaKey) (acc : gset string) x :
  x ∈ fold_left
        (λ schemakeys k,
           match k with
           | Plural l => fold_left (λ schemakeys x1, schemakeys ∪ {[x1]}) l schemakeys
           | Singular s => schemakeys ∪ {[s]}
           end)
        keys acc
  ↔ x ∈ acc ∨ ∃ k, k ∈ keys ∧ mentions k x.
Proof.
  revert acc. induction keys as [|k keys IH]; intros acc; simpl.
  - split; [by left | intros [?|(k & Hk & _)]; [done | by apply elem_of_nil in Hk]].
  - rewrite IH. split.
    + intros [Hacc|(k' & Hk' & Hm)].
      * destruct k as [s|l].
        -- apply elem_of_union in Hacc as [?|Hs]; [by left|].
           apply elem_of_singleton in Hs. right. exists (Singular s).
           split; [apply elem_of_cons; by left | done].
        -- apply elem_of_fold_union in Hacc as [?|Hl]; [by left|].
           right. exists (Plural l). split; [apply elem_of_cons; by left | done].
      * right. exists k'. split; [apply elem_of_cons; by right | done].
    + intros [Hacc|(k' & Hk' & Hm)].
      * left. destruct k; [apply elem_of_union; by left|].
        apply elem_of_fold_union. by left.
      * apply elem_of_cons in Hk' as [->|Hk'].
        -- left. destruct k as [s|l]; simpl in Hm.
           ++ apply elem_of_union. right. by apply elem_of_singleton.
           ++ apply elem_of_fold_union. by right.
        -- right. eauto.
Qed.

Lemma _keys_known (self : Schema.t) x : x ∈ Schema._keys self ↔ known_key self x.
Proof.
  unfold Schema._keys, known_key. rewrite elem_of_fold_keys.
  split; [intros [H|H]; [by apply elem_of_empty in H | done] | by right].
Qed.

Lemma key_checks_extra (self : Schema.t) (data : gmap string pyval) x :
  Schema.allow_extra self = false →
  x ∈ dom data → ¬ known_key self x →
  Schema.key_checks self data = Some (extra_keys_error self).
Proof.
  intros Hflag Hin Hnk. unfold Schema.key_checks. rewrite Hflag. simpl.
  rewrite bool_decide_eq_true_2; [done|].
  intros Hempty. assert (x ∈ dom data ∖ Schema._keys self) as Hx.
  { apply elem_of_difference. split; [done|]. by rewrite _keys_known. }
  rewrite Hempty in Hx. by apply elem_of_empty in Hx.
Qed.

Lemma key_checks_missing (self : Schema.t) (data : gmap string pyval) x :
  Schema.allow_missing self = false →
  known_key self x → x ∉ dom data →
  (Schema.allow_extra self = true ∨ (∀ y, y ∈ dom data → known_key self y)) →
  Schema.key_checks self data = Some (missing_keys_error self).
Proof.
  intros Hflag Hk Hnin Hextra. unfold Schema.key_checks. rewrite Hflag.
  rewrite andb_false_r. simpl.
  assert (negb (Schema.allow_extra self)
          && bool_decide (dom data ∖ Schema._keys self ≠ ∅) = false) as ->.
  { destruct Hextra as [->|Hall]; [done|].
    apply andb_false_iff. right. apply bool_decide_eq_false_2.
    intros Hne. apply Hne. apply set_eq. intros y.
    rewrite elem_of_difference, _keys_known. split; [|by intros ?%elem_of_empty].
    intros [Hy Hny]. destruct Hny. by apply Hall. }
  rewrite bool_decide_eq_true_2; [done|].
  intros Hempty. assert (x ∈ Schema._keys self ∖ dom data) as Hx.
  { apply elem_of_difference. split; [by rewrite _keys_known | done]. }
  rewrite Hempty in Hx. by apply elem_of_empty in Hx.
Qed.

Lemma call_key_check_fails (self : Schema.t) data w e :
  Schema.key_checks self (hread w data) = Some e →
  ∃ w', Schema.__call__ self data w = (w', Raise e)
        ∧ calls w' = calls w
        ∧ ∀ l, hread w' l = hread w l.
Proof.
  intros Hchecks. unfold Schema.__call__.
  set (wr := if negb (Schema.filter_extra self) then (w, data) else halloc w ∅).
  assert ((∀ l, hread wr.1 l = hread w l) ∧ calls wr.1 = calls w) as [Hread Hcalls].
  { unfold wr. destruct (Schema.filter_extra self); simpl; [|done].
    split; [apply hread_halloc_empty | done]. }
  destruct wr as [w0 res]. simpl in Hread, Hcalls. rewrite Hread, Hchecks. eauto.
Qed.

(** C9, amended.  With [allow_extra=False], a call on input that has a key
    outside the known key set raises the schema-level "extra keys" error;
    with [allow_missing=False], a call on input that lacks a known key
    raises the schema-level "missing keys" error, unless the check for
    extra keys has already raised (that check comes first).  In both
    cases no subvalidator has been invoked and every dict of the store
    reads as before the call. *)
Theorem key_checks_precede_subvalidators (self : Schema.t) (data : nat) (w : world) :
  (Schema.allow_extra self = false →
   (∃ x, x ∈ dom (hread w data) ∧ ¬ known_key self x) →
   ∃ w', Schema.__call__ self data w = (w', Raise (extra_keys_error self))
         ∧ calls w' = calls w
         ∧ ∀ l, hread w' l = hread w l)
  ∧ (Schema.allow_missing self = false →
     (∃ x, known_key self x ∧ x ∉ dom (hread w data)) →
     (Schema.allow_extra self = true ∨ (∀ y, y ∈ dom (hread w data) → known_key self y)) →
     ∃ w', Schema.__call__ self data w = (w', Raise (missing_keys_error self))
           ∧ calls w' = calls w
           ∧ ∀ l, hread w' l = hread w l).
Proof.
  split.
  - intros Hflag (x & Hin & Hnk). apply call_key_check_fails.
    by apply (key_checks_extra self _ x).
  - intros Hflag (x & Hk & Hnin) Hextra. apply call_key_check_fails.
    by apply (key_checks_missing self _ x).
Qed.

(** [Schema({'a': integer()}, allow_missing=False)] on [{}]. *)
Lemma key_checks_precede_subvalidators_witness :
  let self := Schema.Make [(Singular "a", VFunc (integer MsgNone))]
                MsgNone false true true in
  ∃ w', Schema.__call__ self 0%nat (World [∅] []) = (w', Raise (missing_keys_error self))
        ∧ calls w' = []
        ∧ ∀ l, hread w' l = hread (World [∅] []) l.
Proof.
  refine (proj2 (key_checks_precede_subvalidators
                   (Schema.Make [(Singular "a", VFunc (integer MsgNone))]
                      MsgNone false true true)
                   0%nat (World [∅] []))
            eq_refl
            (ex_intro _ "a" (conj (ex_intro _ (Singular "a")
                                     (conj (list_elem_of_here _ _) eq_refl)) _))
            (or_introl eq_refl)).
  apply not_elem_of_empty.
Defined.

(** C9 as stated fails when both checks are on and the input has both an
    unknown key and a missing one. *)
Lemma extra_check_precedes_missing_check :
  let self := Schema.Make [(Singular "a", VFunc (integer MsgNone))]
                MsgNone false false true in
  let data : gmap string pyval := {["b" := VStr "1"]} in
  Schema.allow_missing self = false
  ∧ known_key self "a"
  ∧ ("a" ∉ dom data)
  ∧ call_on self data
    = (World [data; ∅] [], Raise (InvalidExc None (Some "extra keys in input") []))
  ∧ __init__ [Plain "missing keys in input"] []
    ≠ InvalidExc None (Some "extra keys in input") [].
Proof.
  simpl. split; [done|]. split.
  - exists (Singular "a"). split; [apply elem_of_cons; by left | done].
  - split; [|split; [by vm_compute | discriminate]].
    rewrite dom_singleton. intros H%elem_of_singleton. discriminate H.
Qed.

Lemma gather_preferred res data x : gather res data x = preferred res data x.
Proof. unfold gather, preferred. by destruct (res !! x). Qed.

Lemma fold_insert_other (pairs : list (string * pyval)) (acc : gmap string pyval) x :
  x ∉ pairs.*1 →
  fold_left (λ d kv, <[kv.1 := kv.2]> d) pairs acc !! x = acc !! x.
Proof.
  revert acc. induction pairs as [|[k v] pairs IH]; intros acc Hx; simpl; [done|].
  simpl in Hx. apply not_elem_of_cons in Hx as [Hne Hx].
  rewrite IH by done. by rewrite lookup_insert_ne.
Qed.

Lemma fold_insert_last (pairs : list (string * pyval)) (acc : gmap string pyval) i x t :
  pairs !! i = Some (x, t) →
  (∀ j t', (i < j)%nat → pairs !! j ≠ Some (x, t')) →
  fold_left (λ d kv, <[kv.1 := kv.2]> d) pairs acc !! x = Some t.
Proof.
  revert acc i. induction pairs as [|[k v] pairs IH]; intros acc i Hi Hlast; [done|].
  destruct i as [|i]; simpl in *.
  - injection Hi as -> ->. rewrite fold_insert_other.
    + by rewrite lookup_insert_eq.
    + intros Hin. apply list_elem_of_fmap in Hin as ([x' t'] & Hx' & Hin).
      simpl in Hx'. subst x'. apply list_elem_of_lookup in Hin as [j Hj].
      by apply (Hlast (S j) t'); [lia|].
  - apply (IH _ i); [done|]. intros j t' Hj. apply (Hlast (S j) t'). lia.
Qed.

Lemma dict_zip_last (k : list string) (tmp : list pyval) i x t :
  k !! i = Some x → tmp !! i = Some t →
  (∀ j, (i < j < length tmp)%nat → k !! j ≠ Some x) →
  dict_zip k tmp !! x = Some t.
Proof.
  intros Hk Ht Hlast. unfold dict_zip. apply (fold_insert_last _ _ i).
  - apply lookup_zip_with_Some. eauto.
  - intros j t' Hj Hzip. apply lookup_zip_with_Some in Hzip as (x' & t'' & [= <- <-] & Hkj & Htj).
    apply (Hlast j); [|done]. split; [done|]. by eapply lookup_lt_Some.
Qed.

Lemma dict_zip_other (k : list string) (tmp : list pyval) x :
  x ∉ take (length tmp) k → dict_zip k tmp !! x = None.
Proof.
  intros Hx. unfold dict_zip. rewrite fold_insert_other; [done|].
  intros Hin. apply Hx. apply list_elem_of_fmap in Hin as ([x' t'] & Hx' & Hin).
  simpl in Hx'. subst x'. apply list_elem_of_lookup in Hin as [j Hj].
  apply lookup_zip_with_Some in Hj as (x' & t'' & [= <- <-] & Hkj & Htj).
  apply list_elem_of_lookup. exists j. rewrite lookup_take_lt; [done|].
  by eapply lookup_lt_Some.
Qed.

Lemma hread_hwrite w res d l :
  hread (hwrite w res d) l
  = if decide (l = res ∧ (res < length (heap w))%nat) then d else hread w l.
Proof.
  unfold hread, hwrite. simpl.
  destruct (decide (l = res ∧ (res < length (heap w))%nat)) as [[-> Hlt]|Hn].
  - by rewrite list_lookup_insert_eq.
  - destruct (decide (l = res)) as [->|Hne].
    + rewrite list_insert_ge; [done|]. lia.
    + by rewrite list_lookup_insert_ne.
Qed.

Lemma hread_log_call w k v l : hread (log_call w k v) l = hread w l.
Proof. done. Qed.

(** C4.  In one iteration of the loop of a schema call, the subvalidator
    of a singular key [x] is invoked with the value that [res] holds for
    [x] if it has one (the value converted by an earlier key), else the
    raw input for [x], else [None]; the subvalidator of a plural key is
    invoked with the tuple of these values for its fields.  When the
    subvalidator of a plural key succeeds, the key is zipped with the
    result and every pair is stored in [res] (for a field named twice the
    last pair stays), the other fields of [res] being left as they were;
    the result for a singular key is stored under that key.  With
    [{'a': integer(), ('a', 'b'): identity}] on [{'a': '1', 'b': '2'}]
    the plural validator is invoked with [(1, '2')]. *)
Theorem step_gathers_and_stores (self : Schema.t) (data res : nat) (w : world)
    (exceptions : list (FieldKey * list exn)) (k : SchemaKey) (vfunc : SubValidator) :
  dget (Schema.subvalidators self) k = Some vfunc →
  (res < length (heap w))%nat →
  (∃ w' out,
     Schema.step self data res (w, exceptions) k = (w', out)
     ∧ calls w'
       = calls w
         ++ [(k, match k with
                 | Singular x => preferred (hread w res) (hread w data) x
                 | Plural xs => VTuple (map (preferred (hread w res) (hread w data)) xs)
                 end)]
     ∧ (∀ x tmp,
          k = Singular x →
          as_validator vfunc (preferred (hread w res) (hread w data) x) = Return tmp →
          out = Return exceptions
          ∧ hread w' res = <[x := tmp]> (hread w res))
     ∧ (∀ xs tmp ts,
          k = Plural xs →
          as_validator vfunc (VTuple (map (preferred (hread w res) (hread w data)) xs))
          = Return tmp →
          iterate tmp = Some ts →
          out = Return exceptions
          ∧ (∀ i x t,
               xs !! i = Some x → ts !! i = Some t →
               (∀ j, (i < j < length ts)%nat → xs !! j ≠ Some x) →
               hread w' res !! x = Some t)
          ∧ (∀ x, x ∉ take (length ts) xs → hread w' res !! x = hread w res !! x)))
  ∧ (let self :=
       Schema.Make
         [(Plural ["a"; "b"], VFunc (λ v, Return v));
          (Singular "a", VFunc (integer MsgNone))]
         MsgNone true true true in
     call_on self (<["a" := VStr "1"]> (<["b" := VStr "2"]> ∅))
     = (World [<["a" := VStr "1"]> (<["b" := VStr "2"]> ∅);
               <["a" := VInt 1]> (<["b" := VStr "2"]> ∅)]
          [(Singular "a", VStr "1");
           (Plural ["a"; "b"], VTuple [VInt 1; VStr "2"])],
        Return 1%nat)).
Proof.
  intros Hk Hres. split; [|by vm_compute].
  unfold Schema.step. rewrite Hk.
  assert (Schema.vdata_of w res data k
          = match k with
            | Singular x => preferred (hread w res) (hread w data) x
            | Plural xs => VTuple (map (preferred (hread w res) (hread w data)) xs)
            end) as Hvdata.
  { destruct k as [x|xs]; [apply gather_preferred | reflexivity]. }
  rewrite Hvdata.
  destruct k as [x|xs].
  - destruct (as_validator vfunc _) as [tmp|e] eqn:Hv.
    + eexists _, _. split; [reflexivity|]. split; [done|]. split; [|done].
      intros x' tmp' [= <-] Hv'. rewrite Hv in Hv'. injection Hv' as <-.
      split; [done|].
      rewrite hread_hwrite, decide_True; [done|]. by split.
    + eexists _, _. split; [reflexivity|]. split; [done|]. split; [|done].
      intros x' tmp' [= <-] Hv'. congruence.
  - destruct (as_validator vfunc _) as [tmp|e] eqn:Hv.
    + destruct (iterate tmp) as [ts|] eqn:Hts.
      * eexists _, _. split; [reflexivity|]. split; [done|]. split; [done|].
        intros xs' tmp' ts' [= <-] Hv' Hts'. rewrite Hv in Hv'. injection Hv' as <-.
        rewrite Hts in Hts'. injection Hts' as <-.
        split; [done|].
        assert (hread (hwrite (log_call w (Plural xs) (VTuple (map (preferred (hread w res) (hread w data)) xs))) res
                         (dict_zip xs ts ∪ hread (log_call w (Plural xs) (VTuple (map (preferred (hread w res) (hread w data)) xs))) res)) res
                = dict_zip xs ts ∪ hread w res) as ->.
        { rewrite hread_hwrite, decide_True; [done|]. by split. }
        split.
        -- intros i x t Hx Ht Hlast. apply lookup_union_Some_l.
           by apply (dict_zip_last xs ts i).
        -- intros x Hx. rewrite lookup_union_r; [done|]. by apply dict_zip_other.
      * eexists _, _. split; [reflexivity|]. split; [done|]. split; [done|].
        intros xs' tmp' ts' [= <-] Hv' Hts'. congruence.
    + eexists _, _. split; [reflexivity|]. split; [done|]. split; [done|].
      intros xs' tmp' ts' [= <-] Hv'. congruence.
Qed.

(** The plural key [('p', 'q')] with [res = {'p': 1}] and
    [data = {'p': '1', 'q': '2'}]. *)
Lemma step_gathers_and_stores_witness :
  let self := Schema.Make [(Plural ["p"; "q"], VFunc (λ v, Return v))]
                MsgNone true true true in
  let w := World [<["p" := VStr "1"]> (<["q" := VStr "2"]> ∅); {["p" := VInt 1]}] [] in
  ∃ w' out,
    Schema.step self 0%nat 1%nat (w, []) (Plural ["p"; "q"]) = (w', out)
    ∧ calls w' = [(Plural ["p"; "q"], VTuple [VInt 1; VStr "2"])].
Proof.
  simpl.
  destruct (proj1 (step_gathers_and_stores
                     (Schema.Make [(Plural ["p"; "q"], VFunc (λ v, Return v))]
                        MsgNone true true true)
                     0%nat 1%nat
                     (World [<["p" := VStr "1"]> (<["q" := VStr "2"]> ∅); {["p" := VInt 1]}] [])
                     [] (Plural ["p"; "q"]) (VFunc (λ v, Return v))
                     eq_refl (le_n 2)))
    as (w' & out & Hstep & Hcalls & _).
  exists w', out. split; [exact Hstep|]. exact Hcalls.
Defined.

(** C8 (the code does not do this).  With [filter_extra=False] the code
    binds [res] to the input dict itself, not to a copy: the call stores
    the converted value of ['a'] into the caller's dict and returns that
    same object. *)
Theorem call_without_filter_extra_changes_input :
  let self := Schema.Make [(Singular "a", VFunc (integer MsgNone))]
                MsgNone true true false in
  let data : gmap string pyval := <["a" := VStr "1"]> (<["z" := VStr "q"]> ∅) in
  call_on self data
  = (World [<["a" := VInt 1]> (<["z" := VStr "q"]> ∅)] [(Singular "a", VStr "1")],
     Return 0%nat)
  ∧ hread (call_on self data).1 0%nat ≠ data.
Proof.
  simpl. split; [by vm_compute|].
  intros H. apply (f_equal (λ d : gmap string pyval, d !! "a")) in H.
  vm_compute in H. discriminate H.
Qed.

Lemma insert_key_singular_first k l :
  singular_first l → singular_first (insert_key k l).
Proof.
  induction l as [|y l IH]; intros Hl; simpl.
  - by destruct k.
  - destruct (key_leb k y) eqn:Hle.
    + destruct k as [s|p]; [done|]. simpl.
      destruct y as [s'|p']; [done|]. simpl in Hl. by apply Forall_cons.
    + destruct y as [s'|p']; simpl in *.
      * by apply IH.
      * destruct k as [s|p]; [done|].
        rewrite insert_key_Permutation. by apply Forall_cons.
Qed.

Lemma sorted_singular_first l : singular_first (sorted l).
Proof.
  induction l as [|k l IH]; simpl; [done|]. by apply insert_key_singular_first.
Qed.

Lemma singular_first_before before s after :
  singular_first (before ++ Singular s :: after) →
  Forall (λ k, is_singular k = true) before.
Proof.
  induction before as [|[s'|p] before IH]; simpl; intros H.
  - done.
  - apply Forall_cons. split; [done | by apply IH].
  - rewrite Forall_app, Forall_cons in H. by destruct H as (_ & H & _).
Qed.

Lemma sorted_split (keys : list SchemaKey) s :
  NoDup keys → Singular s ∈ keys →
  ∃ before after,
    sorted keys = before ++ Singular s :: after
    ∧ Forall (λ k, is_singular k = true) before
    ∧ (Singular s ∉ before)
    ∧ (Singular s ∉ after).
Proof.
  intros Hnd Hin. rewrite <- sorted_Permutation in Hin, Hnd.
  apply list_elem_of_split in Hin as (before & after & Heq).
  exists before, after. split; [done|].
  pose proof (sorted_singular_first keys) as Hsf. rewrite Heq in Hsf, Hnd.
  split; [by eapply singular_first_before|].
  apply NoDup_app in Hnd as (_ & Hdisj & Hnd).
  apply NoDup_cons in Hnd as [Hafter _]. split; [|done].
  intros Hb. apply (Hdisj _ Hb). apply elem_of_cons. by left.
Qed.

Lemma key_checks_pass (self : Schema.t) (data : gmap string pyval) :
  Schema.allow_missing self = true →
  (Schema.allow_extra self = true ∨ (∀ y, y ∈ dom data → known_key self y)) →
  Schema.key_checks self data = None.
Proof.
  intros Hmissing Hextra. unfold Schema.key_checks. rewrite Hmissing.
  destruct (Schema.allow_extra self) eqn:He; simpl; [done|].
  destruct Hextra as [?|Hall]; [done|].
  rewrite bool_decide_eq_false_2; [done|].
  intros Hne. apply Hne. apply set_eq. intros y.
  rewrite elem_of_difference, _keys_known. split; [|by intros ?%elem_of_empty].
  intros [Hy Hny]. destruct Hny. by apply Hall.
Qed.

Lemma length_heap_hwrite w res d : length (heap (hwrite w res d)) = length (heap w).
Proof. unfold hwrite. simpl. apply length_insert. Qed.

(** A step leaves alone the fields that its key does not name. *)
Lemma step_unmentioned (self : Schema.t) data res w exceptions key w' out x :
  ¬ mentions key x →
  Schema.step self data res (w, exceptions) key = (w', out) →
  (∀ l, hread w' l !! x = hread w l !! x)
  ∧ length (heap w') = length (heap w)
  ∧ ∃ new, calls w' = calls w ++ new.
Proof.
  intros Hx. unfold Schema.step.
  destruct (dget (Schema.subvalidators self) key) as [vfunc|]; [|intros [= <- <-]].
  2: { split; [done|]. split; [done|]. exists []. by rewrite app_nil_r. }
  destruct (as_validator vfunc _) as [tmp|e].
  - destruct key as [s|xs].
    + intros [= <- <-]. split; [|split; [by rewrite length_heap_hwrite | by eexists]].
      intros l. rewrite hread_hwrite. case_decide as Hl; [|done].
      destruct Hl as [-> _]. rewrite hread_log_call.
      apply lookup_insert_ne. simpl in Hx. congruence.
    + destruct (iterate tmp) as [ts|]; intros [= <- <-].
      * split; [|split; [by rewrite length_heap_hwrite | by eexists]].
        intros l. rewrite hread_hwrite. case_decide as Hl; [|done].
        destruct Hl as [-> _]. rewrite hread_log_call.
        apply lookup_union_r. apply dict_zip_other.
        intros Hin. apply Hx. simpl.
        apply elem_of_take in Hin as (i & Hi & _).
        by eapply list_elem_of_lookup_2.
      * split; [done|]. split; [done|]. by eexists.
  - intros [= <- <-]. split; [done|]. split; [done|]. by eexists.
Qed.

Lemma loop_unmentioned (self : Schema.t) data res keys x :
  ∀ w exceptions w' out,
    Forall (λ key, ¬ mentions key x) keys →
    Schema.loop self data res keys (w, exceptions) = (w', out) →
    (∀ l, hread w' l !! x = hread w l !! x)
    ∧ length (heap w') = length (heap w)
    ∧ ∃ new, calls w' = calls w ++ new.
Proof.
  induction keys as [|key keys IH]; intros w exceptions w' out Hkeys.
  - simpl. intros [= <- <-]. split; [done|]. split; [done|].
    exists []. by rewrite app_nil_r.
  - apply Forall_cons in Hkeys as [Hkey Hkeys]. rewrite loop_cons.
    destruct (Schema.step self data res (w, exceptions) key) as [w1 [exceptions1|e]] eqn:Hstep.
    + destruct (step_unmentioned _ _ _ _ _ _ _ _ _ Hkey Hstep) as (Hr1 & Hl1 & new1 & Hc1).
      intros Hloop. destruct (IH _ _ _ _ Hkeys Hloop) as (Hr & Hl & new & Hc).
      split; [intros l; by rewrite Hr, Hr1|]. split; [by rewrite Hl, Hl1|].
      exists (new1 ++ new). by rewrite Hc, Hc1, <- app_assoc.
    + intros [= <- <-]. by apply (step_unmentioned _ _ _ _ _ _ _ _ _ Hkey Hstep).
Qed.

Lemma loop_grows_calls (self : Schema.t) data res keys :
  ∀ w exceptions w' out,
    Schema.loop self data res keys (w, exceptions) = (w', out) →
    ∃ new, calls w' = calls w ++ new.
Proof.
  induction keys as [|key keys IH]; intros w exceptions w' out.
  - simpl. intros [= <- <-]. exists []. by rewrite app_nil_r.
  - rewrite loop_cons.
    destruct (Schema.step self data res (w, exceptions) key) as [w1 out1] eqn:Hstep.
    assert (∃ new1, calls w1 = calls w ++ new1) as [new1 Hc1].
    { revert Hstep. unfold Schema.step.
      destruct (dget (Schema.subvalidators self) key) as [vfunc|]; [|intros [= <- <-]].
      2: { exists []. by rewrite app_nil_r. }
      destruct (as_validator vfunc _) as [tmp|e]; [|intros [= <- <-]; by eexists].
      destruct key as [s|xs]; [intros [= <- <-]; by eexists|].
      destruct (iterate tmp); intros [= <- <-]; by eexists. }
    destruct out1 as [exceptions1|e].
    + intros Hloop. destruct (IH _ _ _ _ Hloop) as [new Hc].
      exists (new1 ++ new). by rewrite Hc, Hc1, <- app_assoc.
    + intros [= <- <-]. eauto.
Qed.

Lemma loop_app (self : Schema.t) data res keys1 keys2 st :
  Schema.loop self data res (keys1 ++ keys2) st
  = match Schema.loop self data res keys1 st with
    | (w, Return exceptions) => Schema.loop self data res keys2 (w, exceptions)
    | (w, Raise e) => (w, Raise e)
    end.
Proof.
  revert st. induction keys1 as [|key keys1 IH]; intros st.
  - by destruct st.
  - simpl app. rewrite !loop_cons.
    destruct (Schema.step self data res st key) as [w1 [exceptions1|e]]; [apply IH | done].
Qed.

Lemma step_singular_returns (self : Schema.t) data res w exceptions s vfunc :
  dget (Schema.subvalidators self) (Singular s) = Some vfunc →
  ∃ w' exceptions',
    Schema.step self data res (w, exceptions) (Singular s) = (w', Return exceptions').
Proof.
  intros Hk. unfold Schema.step. rewrite Hk.
  destruct (as_validator vfunc _); eauto.
Qed.

Lemma loop_singular_returns (self : Schema.t) data res keys :
  ∀ w exceptions,
    Forall (λ k, is_singular k = true) keys →
    (∀ k, k ∈ keys → is_Some (dget (Schema.subvalidators self) k)) →
    ∃ w' exceptions',
      Schema.loop self data res keys (w, exceptions) = (w', Return exceptions').
Proof.
  induction keys as [|key keys IH]; intros w exceptions Hsing Hdecl.
  - simpl. eauto.
  - apply Forall_cons in Hsing as [Hkey Hsing]. rewrite loop_cons.
    destruct key as [s|xs]; [|done].
    destruct (Hdecl (Singular s)) as [vfunc Hk]; [apply elem_of_cons; by left|].
    destruct (step_singular_returns self data res w exceptions s vfunc Hk)
      as (w1 & exceptions1 & ->).
    apply IH; [done|]. intros k Hin. apply Hdecl. apply elem_of_cons. by right.
Qed.

(** C10.  In a call of a schema with [allow_missing=True] whose check for
    extra keys passes, on an input dict that lacks the declared singular
    key [k]: the subvalidator of [k] is invoked, with [None] ([k] is then
    in neither [res] nor [data]); and when it returns [t] on [None], [t]
    is stored under [k] in the dict that the call returns when it
    returns, where it stays unless a plural key that names [k] overwrites
    it. *)
Theorem absent_singular_key_gets_None (self : Schema.t) (data : nat) (w : world)
    (k : string) (vfunc : SubValidator) :
  Schema.allow_missing self = true →
  (Schema.allow_extra self = true
   ∨ (∀ y, y ∈ dom (hread w data) → known_key self y)) →
  NoDup (dkeys (Schema.subvalidators self)) →
  dget (Schema.subvalidators self) (Singular k) = Some vfunc →
  hread w data !! k = None →
  (data < length (heap w))%nat →
  ∃ w' out new,
    Schema.__call__ self data w = (w', out)
    ∧ calls w' = calls w ++ new
    ∧ (Singular k, VNone) ∈ new
    ∧ (∀ r, out = Return r → r = res_of self data w)
    ∧ ∀ t,
        as_validator vfunc VNone = Return t →
        (∀ xs, Plural xs ∈ dkeys (Schema.subvalidators self) → k ∉ xs) →
        hread w' (res_of self data w) !! k = Some t.
Proof.
  intros Hmissing Hextra Hnd Hk Hdata Hvalid.
  assert (Singular k ∈ dkeys (Schema.subvalidators self)) as Hin
    by by eapply dget_Some_keys.
  destruct (sorted_split _ k Hnd Hin) as (before & after & Hsorted & Hsing & Hnb & Hna).
  unfold Schema.__call__.
  set (wr := if negb (Schema.filter_extra self) then (w, data) else halloc w ∅).
  assert (wr.2 = res_of self data w
          ∧ (∀ l, hread wr.1 l = hread w l)
          ∧ calls wr.1 = calls w
          ∧ (wr.2 < length (heap wr.1))%nat) as (Hres & Hread & Hcalls0 & Hrvalid).
  { unfold wr, res_of. destruct (Schema.filter_extra self); simpl; [|done].
    split; [done|]. split; [apply hread_halloc_empty|]. split; [done|].
    rewrite length_app. simpl. lia. }
  destruct wr as [w0 res]. simpl in Hres, Hread, Hcalls0, Hrvalid. subst res.
  rewrite Hread, (key_checks_pass self _ Hmissing Hextra), Hsorted, loop_app.
  assert (∀ key, key ∈ before ++ Singular k :: after →
                 is_Some (dget (Schema.subvalidators self) key)) as Hdecl.
  { intros key Hkey. apply sorted_declared. by rewrite Hsorted. }
  destruct (loop_singular_returns self data (res_of self data w) before w0 []
              Hsing (λ key Hkey, Hdecl key (proj2 (elem_of_app _ _ _) (or_introl Hkey))))
    as (w1 & exceptions1 & Hloop1).
  rewrite Hloop1.
  assert (Forall (λ key, ¬ mentions key k) before) as Hbefore.
  { rewrite Forall_forall in Hsing |- *. intros key Hkey Hm.
    specialize (Hsing key Hkey). destruct key as [s|xs]; [|done].
    simpl in Hm. by subst s. }
  destruct (loop_unmentioned _ _ _ _ _ _ _ _ _ Hbefore Hloop1) as (Hr1 & Hl1 & new1 & Hc1).
  rewrite loop_cons.
  assert (Schema.vdata_of w1 (res_of self data w) data (Singular k) = VNone) as Hvdata.
  { unfold Schema.vdata_of, gather. rewrite !Hr1, !Hread, Hdata.
    assert (hread w (res_of self data w) !! k = None) as ->; [|done].
    unfold res_of. destruct (Schema.filter_extra self); [|done].
    unfold hread. by rewrite lookup_ge_None_2. }
  destruct (Schema.step self data (res_of self data w) (w1, exceptions1) (Singular k))
    as [w2 out2] eqn:Hstep.
  assert (calls w2 = calls w1 ++ [(Singular k, VNone)]
          ∧ length (heap w2) = length (heap w1)
          ∧ (∃ exceptions2, out2 = Return exceptions2)
          ∧ ∀ t, as_validator vfunc VNone = Return t →
                 hread w2 (res_of self data w) !! k = Some t)
    as (Hc2 & Hl2 & [exceptions2 ->] & Hstored).
  { revert Hstep. unfold Schema.step. rewrite Hk, Hvdata.
    destruct (as_validator vfunc VNone) as [t|e]; intros [= <- <-].
    - split; [done|]. split; [by rewrite length_heap_hwrite|]. split; [by eexists|].
      intros t' [= <-]. rewrite hread_hwrite, decide_True.
      + apply lookup_insert_eq.
      + split; [done|]. simpl. by rewrite Hl1.
    - split; [done|]. split; [done|]. split; [by eexists|]. done. }
  destruct (Schema.loop self data (res_of self data w) after (w2, exceptions2))
    as [w3 out3] eqn:Hloop3.
  destruct (loop_grows_calls _ _ _ _ _ _ _ _ Hloop3) as [new3 Hc3].
  assert (∃ out, (match out3 with
                  | Return exceptions =>
                      if list_truthy exceptions
                      then (w3, Raise (__init__
                                         [Plain (_msg (Schema.msg self) "schema.error"
                                                   "Problems were found in the submitted data.");
                                          Mapping (map (λ kv, (kv.1, Many (map Exc kv.2))) exceptions)]
                                         []))
                      else (w3, Return (res_of self data w))
                  | Raise e => (w3, Raise e)
                  end) = (w3, out)
                 ∧ ∀ r, out = Return r → r = res_of self data w) as (out & -> & Hout).
  { destruct out3 as [exceptions3|e]; [destruct (list_truthy exceptions3)|];
      eexists; (split; [reflexivity|]); intros r [= <-]; done. }
  exists w3, out, (new1 ++ (Singular k, VNone) :: new3).
  split; [done|]. split.
  { rewrite Hc3, Hc2, Hc1, Hcalls0, <- !app_assoc. done. }
  split.
  { apply elem_of_app. right. apply elem_of_cons. by left. }
  split; [done|].
  intros t Ht Hplural.
  assert (Forall (λ key, ¬ mentions key k) after) as Hafter.
  { apply Forall_forall. intros key Hkey Hm. destruct key as [s|xs]; simpl in Hm.
    - subst s. done.
    - apply (Hplural xs); [|done]. rewrite <- (sorted_Permutation (dkeys _)), Hsorted.
      apply elem_of_app. right. apply elem_of_cons. by right. }
  destruct (loop_unmentioned _ _ _ _ _ _ _ _ _ Hafter Hloop3) as (Hr3 & _ & _).
  rewrite Hr3. by apply Hstored.
Qed.

(** [Schema({'a': either(integer(), identity), 'b': integer()})] on
    [{'b': '2'}]. *)
Lemma absent_singular_key_gets_None_witness :
  let self :=
    Schema.Make
      [(Singular "b", VFunc (integer MsgNone));
       (Singular "a", VFunc (either [integer MsgNone; (λ v, Return v)]))]
      MsgNone true true true in
  let w := World [{["b" := VStr "2"]}] [] in
  ∃ w' out new,
    Schema.__call__ self 0%nat w = (w', out)
    ∧ calls w' = calls w ++ new
    ∧ (Singular "a", VNone) ∈ new
    ∧ (∀ r, out = Return r → r = res_of self 0%nat w)
    ∧ ∀ t,
        either [integer MsgNone; (λ v, Return v)] VNone = Return t →
        (∀ xs, Plural xs ∈ [Singular "b"; Singular "a"] → "a" ∉ xs) →
        hread w' (res_of self 0%nat w) !! "a" = Some t.
Proof.
  refine (absent_singular_key_gets_None
            (Schema.Make
               [(Singular "b", VFunc (integer MsgNone));
                (Singular "a", VFunc (either [integer MsgNone; (λ v, Return v)]))]
               MsgNone true true true)
            0%nat (World [{["b" := VStr "2"]}] []) "a"
            (VFunc (either [integer MsgNone; (λ v, Return v)]))
            eq_refl (or_introl eq_refl) _ eq_refl eq_refl (le_n 1)).
  apply NoDup_cons. split.
  - intros H. apply list_elem_of_singleton in H. discriminate H.
  - apply NoDup_singleton.
Defined.

(** * More facts: combinators, leaf validators, [Invalid] and [Schema] *)

(** ** [compose], [check], [excursion] *)

Lemma compose_app_eq (fs gs : list Validator) (x : pyval) :
  compose (fs ++ gs) x
  = match compose fs x with
    | Return y => compose gs y
    | Raise e => Raise e
    end.
Proof.
  unfold compose. revert x. induction fs as [|f fs IH]; intros x; simpl; [done|].
  destruct (f x); [apply IH | done].
Qed.

(** X1.  [compose] threads the value from left to right and stops at the
    first failure: [compose(fs + gs)(x)] is [compose(gs)] applied to what
    [compose(fs)(x)] returns, or the error that [compose(fs)(x)] raises.
    So a [compose] nested in a [compose] can be flattened, and [compose()]
    returns its argument. *)
Theorem compose_threads_and_flattens (fs gs : list Validator) (x : pyval) :
  compose (fs ++ gs) x
  = match compose fs x with
    | Return y => compose gs y
    | Raise e => Raise e
    end
  ∧ compose [compose fs; compose gs] x = compose (fs ++ gs) x
  ∧ compose [] x = Return x.
Proof.
  split; [apply compose_app_eq|]. split; [|done].
  rewrite compose_app_eq. unfold compose at 1. simpl.
  destruct (compose fs x); [|done]. by destruct (compose gs a).
Qed.

(** X2.  When the validators before [v] succeed in sequence, taking [x] to
    [y], and [v] fails on [y], [compose] raises the error of [v], whatever
    validators follow. *)
Theorem compose_stops_at_first_failure
    (fs gs : list Validator) (v : Validator) (x y : pyval) (e : exn) :
  compose fs x = Return y →
  v y = Raise e →
  compose (fs ++ v :: gs) x = Raise e.
Proof.
  intros Hfs Hv. rewrite compose_app_eq, Hfs. unfold compose. simpl. by rewrite Hv.
Qed.

Lemma compose_stops_at_first_failure_witness :
  compose ([strip] ++ integer MsgNone :: [to_boolean MsgNone]) (VStr " x ")
  = Raise (__init__ [Plain "not an integer"] []).
Proof.
  exact (compose_stops_at_first_failure [strip] [to_boolean MsgNone]
           (integer MsgNone) (VStr " x ") (VStr "x") _ eq_refl eq_refl).
Defined.

Lemma check_cons (v : Validator) (vs : list Validator) (x : pyval) :
  check (v :: vs) x
  = match v x with
    | Return _ => check vs x
    | Raise e => Raise e
    end.
Proof. unfold check. simpl. by destruct (v x). Qed.

(** X3.  [check] gives every validator the original value: it returns that
    value when all of them succeed on it, and otherwise raises the error
    of the first one that fails on it. *)
Theorem check_returns_input_or_first_error (validators : list Validator) (x : pyval) :
  (Forall (λ v, ∃ r, v x = Return r) validators → check validators x = Return x)
  ∧ (∀ i v e,
       validators !! i = Some v →
       v x = Raise e →
       (∀ j u, (j < i)%nat → validators !! j = Some u → ∃ r, u x = Return r) →
       check validators x = Raise e).
Proof.
  split.
  - induction validators as [|v vs IH]; intros Hall; [done|].
    apply Forall_cons in Hall as [[r Hr] Hall]. rewrite check_cons, Hr. by apply IH.
  - induction validators as [|u vs IH]; intros i v e Hi Hv Hbefore; [done|].
    rewrite check_cons. destruct i as [|i]; simpl in Hi.
    + injection Hi as ->. by rewrite Hv.
    + destruct (Hbefore 0%nat u) as [r ->]; [lia | done |].
      apply (IH i v e); [done | done |].
      intros j w Hj Hw. apply (Hbefore (S j) w); [lia | done].
Qed.

Lemma check_returns_input_or_first_error_witness :
  check [not_empty MsgNone; integer MsgNone] (VStr "12") = Return (VStr "12").
Proof.
  refine (proj1 (check_returns_input_or_first_error
                   [not_empty MsgNone; integer MsgNone] (VStr "12")) _).
  apply Forall_cons. split; [by eexists|].
  apply Forall_cons. split; [by eexists|]. apply Forall_nil_2.
Defined.

(** X4.  For validators that return their argument unchanged when they
    succeed, [compose], [check] and [excursion] are the same validator. *)
Theorem pass_through_combinators_agree (validators : list Validator) (x : pyval) :
  Forall pass_through validators →
  compose validators x = check validators x
  ∧ excursion validators x = check validators x.
Proof.
  intros Hpass.
  assert (compose validators x = check validators x) as Hcc.
  { induction validators as [|v vs IH]; [done|].
    apply Forall_cons in Hpass as [Hv Hpass]. rewrite check_cons.
    change (v :: vs) with ([v] ++ vs). rewrite compose_app_eq.
    unfold compose at 1. simpl. destruct (v x) as [r|e] eqn:E; [|done].
    apply Hv in E as ->. by apply IH. }
  split; [done|]. unfold excursion. rewrite Hcc.
  assert (∀ r, check validators x = Return r → r = x) as Hx.
  { unfold check. intros r. by destruct (foldM _ validators tt); intros [= <-]. }
  destruct (check validators x) as [r|e] eqn:E; [|done]. by rewrite (Hx r).
Qed.

Lemma pass_through_combinators_agree_witness :
  compose [not_empty MsgNone; equal (VStr "a") MsgNone] (VStr "b")
  = check [not_empty MsgNone; equal (VStr "a") MsgNone] (VStr "b")
  ∧ excursion [not_empty MsgNone; equal (VStr "a") MsgNone] (VStr "b")
    = check [not_empty MsgNone; equal (VStr "a") MsgNone] (VStr "b").
Proof.
  refine (pass_through_combinators_agree
            [not_empty MsgNone; equal (VStr "a") MsgNone] (VStr "b") _).
  apply Forall_cons. split.
  - intros x r. unfold not_empty. by destruct (_ && _); intros [= <-].
  - apply Forall_cons. split; [|apply Forall_nil_2].
    intros x r. unfold equal. by destruct (py_eq x _); intros [= <-].
Defined.

(** ** [either], nested *)

Lemma either_cons (v : Validator) (vs : list Validator) (x : pyval) :
  vs ≠ [] →
  either (v :: vs) x
  = match v x with
    | Return r => Return r
    | Raise _ => either vs x
    end.
Proof.
  intros Hvs. unfold either, either_run. simpl.
  destruct (v x) as [r|e]; [done|].
  assert (∀ l1 l2 c1 c2, (either_loop vs x (Some l1) c1).2 = (either_loop vs x l2 c2).2) as H.
  { clear e. induction vs as [|u vs IH]; [done|]. intros l1 l2 c1 c2. simpl.
    destruct (u x) as [r|e]; [done|].
    destruct vs as [|u' vs']; [done|]. by apply IH. }
  apply H.
Qed.

Lemma either_singleton (v : Validator) (x : pyval) : either [v] x = v x.
Proof. unfold either, either_run. simpl. by destruct (v x). Qed.

Lemma either_app (vs ws : list Validator) (x : pyval) :
  ws ≠ [] →
  either (vs ++ ws) x
  = match either vs x with
    | Return r => Return r
    | Raise _ => either ws x
    end.
Proof.
  intros Hws. induction vs as [|v vs IH]; [done|].
  simpl app. rewrite either_cons by (by destruct vs).
  destruct vs as [|v' vs'].
  - rewrite either_singleton. by destruct (v x).
  - rewrite (either_cons v (v' :: vs')) by done.
    destruct (v x); [done|]. apply IH.
Qed.

(** X5.  Alternatives nest: when [ws] is not empty,
    [either(either(vs), either(ws))] is [either(vs + ws)]: the first
    success among all the validators in order, or the error of the last
    one.  (With [ws] empty the inner [either()] raises [UnboundLocalError],
    which replaces the last error of [vs].) *)
Theorem either_flattens (vs ws : list Validator) (x : pyval) :
  ws ≠ [] →
  either [either vs; either ws] x = either (vs ++ ws) x.
Proof.
  intros Hws. rewrite either_cons by done. rewrite either_singleton.
  by rewrite either_app.
Qed.

Lemma either_flattens_witness :
  either [either [integer MsgNone]; either [empty MsgNone; strip]] (VStr " x")
  = either ([integer MsgNone] ++ [empty MsgNone; strip]) (VStr " x").
Proof.
  exact (either_flattens [integer MsgNone] [empty MsgNone; strip] (VStr " x")
           (λ H, eq_ind [empty MsgNone; strip]
                   (λ l, match l with [] => False | _ => True end) I [] H)).
Defined.

(** ** Values *)

Section pyval_induction.
Variable P : pyval → Prop.
Hypothesis P_None : P VNone.
Hypothesis P_Bool : ∀ b, P (VBool b).
Hypothesis P_Int : ∀ n, P (VInt n).
Hypothesis P_Str : ∀ s, P (VStr s).
Hypothesis P_Tuple : ∀ l, Forall P l → P (VTuple l).
Hypothesis P_List : ∀ l, Forall P l → P (VList l).

Fixpoint pyval_nested_ind (v : pyval) : P v :=
  let fix all (l : list pyval) : Forall P l :=
    match l with
    | [] => Forall_nil_2 P
    | x :: l' => Forall_cons_2 P x l' (pyval_nested_ind x) (all l')
    end in
  match v with
  | VNone => P_None
  | VBool b => P_Bool b
  | VInt n => P_Int n
  | VStr s => P_Str s
  | VTuple l => P_Tuple l (all l)
  | VList l => P_List l (all l)
  end.
End pyval_induction.

Lemma py_eq_refl (v : pyval) : py_eq v v = true.
Proof.
  induction v as [|b|n|s|l IH|l IH] using pyval_nested_ind;
    try done; try (simpl; by apply bool_decide_eq_true_2).
  - simpl. induction IH as [|x l Hx _ IHl]; [done|]. by rewrite Hx, IHl.
  - simpl. induction IH as [|x l Hx _ IHl]; [done|]. by rewrite Hx, IHl.
Qed.

Lemma py_eq_empty_str (v : pyval) : py_eq v (VStr EmptyString) = true ↔ v = VStr EmptyString.
Proof.
  destruct v as [|b|n|s|l|l]; simpl; try (split; [discriminate | discriminate]).
  rewrite bool_decide_eq_true. split; [by intros -> | by intros [= ->]].
Qed.

Lemma py_eq_None (v : pyval) : py_eq v VNone = is_None v.
Proof. by destruct v. Qed.

Lemma is_None_true (v : pyval) : is_None v = true ↔ v = VNone.
Proof. by destruct v. Qed.

(** ** [empty] and [not_empty] *)

(** X6.  [empty] accepts exactly [None] and the empty string, and
    [not_empty] accepts exactly the other values ([0], [False] and empty
    lists and tuples among them); each returns the value unchanged, and
    the one that refuses raises its own [Invalid]. *)
Theorem empty_and_not_empty_are_complementary (msg msg' : MsgSource) (value : pyval) :
  ((value = VNone ∨ value = VStr EmptyString)
   ∧ empty msg value = Return value
   ∧ not_empty msg' value
     = Raise (invalid_of msg' "notempty" "A non-empty value was expected"))
  ∨ (value ≠ VNone ∧ value ≠ VStr EmptyString
     ∧ empty msg value = Raise (invalid_of msg "empty" "No value was expected")
     ∧ not_empty msg' value = Return value).
Proof.
  unfold empty, not_empty. rewrite py_eq_None.
  destruct (py_eq value (VStr EmptyString)) eqn:Es.
  - left. apply py_eq_empty_str in Es as ->. auto.
  - destruct (is_None value) eqn:En.
    + left. apply is_None_true in En as ->. auto.
    + right. simpl. split; [intros ->; done|]. split; [|done].
      intros ->. by rewrite py_eq_refl in Es.
Qed.

(** ** [equal] and [not_equal] *)

(** X7.  [equal(val)] and [not_equal(val)] split the values between them:
    each value is accepted, unchanged, by exactly one of the two, and
    refused by the other with the [Invalid] of the message key ['eq'],
    which both use.  [equal(val)] accepts [val] itself. *)
Theorem equal_and_not_equal_are_complementary
    (val : pyval) (msg msg' : MsgSource) (value : pyval) :
  ((equal val msg value = Return value
    ∧ not_equal val msg' value = Raise (invalid_of msg' "eq" "invalid value"))
   ∨ (equal val msg value = Raise (invalid_of msg "eq" "invalid value")
      ∧ not_equal val msg' value = Return value))
  ∧ equal val msg val = Return val.
Proof.
  unfold equal, not_equal. split.
  - destruct (py_eq value val); simpl; auto.
  - by rewrite py_eq_refl.
Qed.

(** ** [belongs], [not_belongs] and [translate] *)

Lemma py_getitem_in (mapping : list (pyval * pyval)) (value : pyval) :
  py_in value (map fst mapping) = true ↔ is_Some (py_getitem mapping value).
Proof.
  unfold py_in. induction mapping as [|[k v] mapping IH]; simpl.
  - split; [done | by intros [? ?]].
  - destruct (py_eq k value); simpl; [|done]. split; eauto.
Qed.

(** X8.  [belongs(domain)] and [not_belongs(domain)] accept complementary
    sets of values.  For a value that can be hashed, [translate(mapping)]
    succeeds exactly when [belongs] of the keys of [mapping] does, and
    otherwise raises the very same [Invalid] (both use the message key
    ['belongs']); a value that cannot be hashed makes [translate] raise
    [TypeError]. *)
Theorem translate_agrees_with_belongs
    (mapping : list (pyval * pyval)) (domain : list pyval)
    (msg msg' : MsgSource) (value : pyval) :
  ((belongs domain msg value = Return value
    ∧ not_belongs domain msg' value = Raise (invalid_of msg' "not_belongs" "invalid choice"))
   ∨ (belongs domain msg value = Raise (invalid_of msg "belongs" "invalid choice")
      ∧ not_belongs domain msg' value = Return value))
  ∧ (if hashable value then
       match belongs (map fst mapping) msg value with
       | Return _ => ∃ v, translate mapping msg value = Return v
                          ∧ py_getitem mapping value = Some v
       | Raise e => translate mapping msg value = Raise e
       end
     else ∃ e, translate mapping msg value = Raise e ∧ exn_cls e = "TypeError"%string).
Proof.
  split.
  - unfold belongs, not_belongs. destruct (py_in value domain); simpl; auto.
  - unfold translate, belongs. destruct (hashable value); [|by eexists].
    destruct (py_in value (map fst mapping)) eqn:E.
    + apply py_getitem_in in E as [v ->]. eauto.
    + destruct (py_getitem mapping value) as [v|] eqn:G; [|done].
      assert (py_in value (map fst mapping) = true) as E'
        by (apply py_getitem_in; rewrite G; eauto).
      congruence.
Qed.

(** ** [boolean] and [to_boolean] *)

(** X9.  [boolean] accepts the two booleans and, because it tests with
    [in], the integers [0] and [1], and nothing else; [to_boolean]
    followed by [boolean] accepts every value and returns its truth
    value. *)
Theorem boolean_accepts_booleans_and_0_1 (msg msg' : MsgSource) (value : pyval) :
  (boolean msg value = Return value
   ↔ (∃ b, value = VBool b) ∨ value = VInt 0 ∨ value = VInt 1)
  ∧ (boolean msg value = Return value
     ∨ boolean msg value = Raise (invalid_of msg "boolean" "not a boolean"))
  ∧ compose [to_boolean msg'; boolean msg] value = Return (VBool (py_truthy value)).
Proof.
  split; [|split].
  - unfold boolean, py_in. destruct value as [|b|n|s|l|l]; simpl;
      try (split; [discriminate | intros [[? [=]]|[[=]|[=]]]]).
    + split; [eauto | by destruct b].
    + destruct (bool_decide (Some 1 = Some n)) eqn:E1; simpl.
      * apply bool_decide_eq_true in E1. injection E1 as <-. split; auto.
      * destruct (bool_decide (Some 0 = Some n)) eqn:E0; simpl.
        -- apply bool_decide_eq_true in E0. injection E0 as <-. split; auto.
        -- apply bool_decide_eq_false in E1. apply bool_decide_eq_false in E0.
           split; [discriminate|]. intros [[? [=]]|[[= ->]|[= ->]]]; congruence.
  - unfold boolean. destruct (py_in value _); auto.
  - unfold compose, to_boolean, boolean. simpl. by destruct (py_truthy value).
Qed.

(** ** [to_list], [to_scalar], [is_list], [is_scalar] *)

(** X10.  With [list] among [listtypes] (as by default): [to_list] followed
    by [to_scalar] gives back every value that is not of a list type;
    what [to_list] returns is always accepted by [is_list]; and [to_list]
    applied twice is [to_list]. *)
Theorem to_list_normalises (listtypes : list pytype) (msg : MsgSource) (value : pyval) :
  TyList ∈ listtypes →
  (isinstance value listtypes = false →
   compose [to_list listtypes; to_scalar listtypes] value = Return value)
  ∧ (∃ l, to_list listtypes value = Return l ∧ is_list msg listtypes l = Return l)
  ∧ compose [to_list listtypes; to_list listtypes] value = to_list listtypes value.
Proof.
  intros Hlist.
  assert (∀ x, isinstance (VList x) listtypes = true) as Hinst.
  { intros x. unfold isinstance. apply existsb_exists. exists TyList.
    split; [by apply list_elem_of_In | done]. }
  split; [|split].
  - intros Hv. unfold compose, to_list, to_scalar. simpl. rewrite Hv. simpl.
    by rewrite Hinst.
  - unfold to_list, is_list. destruct (isinstance value listtypes) eqn:E; simpl.
    + exists value. by rewrite E.
    + eexists. split; [done|]. by rewrite Hinst.
  - unfold compose, to_list. simpl.
    destruct (isinstance value listtypes) eqn:E; simpl; [by rewrite E|].
    by rewrite Hinst.
Qed.

Lemma to_list_normalises_witness :
  compose [to_list [TyList]; to_scalar [TyList]] (VStr "a") = Return (VStr "a").
Proof.
  exact (proj1 (to_list_normalises [TyList] MsgNone (VStr "a") (list_elem_of_here _ _))
           eq_refl).
Defined.


(** ** [integer] *)

(** X12.  [integer] turns every failure of [int] into its own [Invalid]: on
    any value it returns an integer or raises the [Invalid] of the message
    key ['integer'], nothing else; and it leaves alone what it has
    produced. *)
Theorem integer_returns_int_or_invalid (msg msg' : MsgSource) (value : pyval) :
  ((∃ n, integer msg value = Return (VInt n))
   ∨ integer msg value = Raise (invalid_of msg "integer" "not an integer"))
  ∧ ∀ r, integer msg value = Return r → integer msg' r = Return r.
Proof.
  split.
  - unfold integer. destruct value as [|b|n|s|l|l]; simpl; eauto.
    destruct (int_of_str s); simpl; eauto.
  - intros r. unfold integer. destruct (py_int value) as [n|e]; [by intros [= <-]|].
    by destruct (_ || _).
Qed.

(** ** [strip] *)

Lemma rstrip_cons_nonspace c s :
  is_space c = false → rstrip (String c s) = String c (rstrip s).
Proof. intros Hc. simpl. rewrite Hc. by destruct (rstrip s). Qed.

Lemma skip_spaces_rstrip s : skip_spaces (rstrip s) = rstrip (skip_spaces s).
Proof.
  induction s as [|c s IH]; [done|].
  destruct (is_space c) eqn:Hc.
  - simpl. rewrite Hc. rewrite <- IH.
    destruct (rstrip s); [done|]. simpl. by rewrite Hc.
  - rewrite rstrip_cons_nonspace by done. simpl. rewrite Hc.
    by rewrite rstrip_cons_nonspace.
Qed.

Lemma skip_spaces_idemp s : skip_spaces (skip_spaces s) = skip_spaces s.
Proof.
  induction s as [|c s IH]; [done|]. simpl.
  destruct (is_space c) eqn:Hc; [done|]. simpl. by rewrite Hc.
Qed.

Lemma rstrip_idemp s : rstrip (rstrip s) = rstrip s.
Proof.
  induction s as [|c s IH]; [done|].
  destruct (is_space c) eqn:Hc.
  - simpl. rewrite Hc. destruct (rstrip s) as [|c' t] eqn:E; [done|].
    simpl. simpl in IH. rewrite IH. done.
  - rewrite !rstrip_cons_nonspace by done. by rewrite IH.
Qed.

Lemma rstrip_empty_iff s : rstrip s = EmptyString ↔ skip_spaces s = EmptyString.
Proof.
  induction s as [|c s IH]; [done|]. simpl.
  destruct (is_space c) eqn:Hc.
  - rewrite <- IH. by destruct (rstrip s).
  - by destruct (rstrip s).
Qed.


Lemma digit_not_space c d : digit_value c = Some d → is_space c = false.
Proof.
  unfold digit_value, is_space. intros H.
  destruct (bool_decide (48 ≤ Z.of_nat (nat_of_ascii c))) eqn:E1; [|done].
  apply bool_decide_eq_true in E1.
  rewrite bool_decide_eq_false_2 by lia. simpl.
  rewrite andb_false_iff. right. apply bool_decide_eq_false_2. lia.
Qed.

Lemma digits_then_end_rstrip s :
  ∀ acc seen, digits_then_end (rstrip s) acc seen = digits_then_end s acc seen.
Proof.
  unfold digits_then_end.
  induction s as [|c s IH]; intros acc seen; [done|].
  destruct (digit_value c) as [d|] eqn:Hd.
  - rewrite rstrip_cons_nonspace by (by eapply digit_not_space).
    simpl. rewrite Hd. apply IH.
  - assert (∀ t, read_digits (String c t) acc seen
                 = (if seen then Some acc else None, String c t)) as Hread.
    { intros t. simpl. by rewrite Hd. }
    rewrite Hread.
    destruct (rstrip (String c s)) as [|c' t'] eqn:E.
    + apply rstrip_empty_iff in E. rewrite E. simpl. by destruct seen.
    + assert (c' = c) as ->.
      { simpl in E. destruct (rstrip s); [destruct (is_space c)|]; congruence. }
      rewrite Hread. rewrite <- E, skip_spaces_rstrip.
      destruct seen; [|done].
      destruct (skip_spaces (String c s)) eqn:E2.
      * done.
      * destruct (rstrip (String a s0)) eqn:E3; [|done].
        apply rstrip_empty_iff in E3. rewrite <- E2, skip_spaces_idemp, E2 in E3.
        done.
Qed.

Lemma int_of_str_digits s :
  int_of_str s
  = let s := skip_spaces s in
    match s with
    | String "+"%char s' => option_map (Z.mul 1) (digits_then_end (skip_spaces s') 0 false)
    | String "-"%char s' => option_map (Z.mul (-1)) (digits_then_end (skip_spaces s') 0 false)
    | _ => option_map (Z.mul 1) (digits_then_end (skip_spaces s) 0 false)
    end.
Proof.
  unfold int_of_str, digits_then_end. simpl.
  destruct (skip_spaces s) as [|c t] eqn:E; [done|].
  assert (∀ sign u,
            match read_digits (skip_spaces u) 0 false with
            | (Some n, rest) =>
                match skip_spaces rest with
                | EmptyString => Some (sign * n)
                | String _ _ => None
                end
            | (None, _) => None
            end
            = option_map (Z.mul sign)
                match read_digits (skip_spaces u) 0 false with
                | (Some n, rest) =>
                    match skip_spaces rest with
                    | EmptyString => Some n
                    | String _ _ => None
                    end
                | (None, _) => None
                end) as H.
  { intros sign u. destruct (read_digits (skip_spaces u) 0 false) as [[n|] rest]; [|done].
    by destruct (skip_spaces rest). }
  destruct c as [[] [] [] [] [] [] [] []]; try apply (H 1 (String _ t)); apply H.
Qed.

Lemma int_of_str_strip s : int_of_str (py_strip s) = int_of_str s.
Proof.
  rewrite !int_of_str_digits. unfold py_strip. simpl.
  rewrite skip_spaces_rstrip, skip_spaces_idemp.
  destruct (skip_spaces s) as [|c t] eqn:E; [done|].
  assert (is_space c = false) as Hc.
  { destruct (is_space c) eqn:Hc; [|done]. exfalso.
    assert (skip_spaces (skip_spaces s) = skip_spaces s) as Hi by apply skip_spaces_idemp.
    rewrite E in Hi. simpl in Hi. rewrite Hc in Hi.
    clear E. induction t as [|c' t IH]; [done|]. simpl in Hi.
    destruct (is_space c') eqn:Hc'.
    - apply (f_equal String.length) in Hi. simpl in Hi.
      assert (∀ u, (String.length (skip_spaces u) ≤ String.length u)%nat) as Hlen.
      { induction u as [|a u IHu]; simpl; [lia|]. destruct (is_space a); simpl; lia. }
      specialize (Hlen t). lia.
    - apply (f_equal String.length) in Hi. simpl in Hi. lia. }
  rewrite rstrip_cons_nonspace by done.
  assert (∀ u, digits_then_end (skip_spaces (rstrip u)) 0 false
               = digits_then_end (skip_spaces u) 0 false) as Hd.
  { intros u. by rewrite skip_spaces_rstrip, digits_then_end_rstrip. }
  assert (digits_then_end (skip_spaces (String c (rstrip t))) 0 false
          = digits_then_end (skip_spaces (String c t)) 0 false) as Hd'.
  { rewrite <- (rstrip_cons_nonspace c t Hc). apply Hd. }
  destruct c as [[] [] [] [] [] [] [] []]; rewrite ?Hd, ?Hd'; done.
Qed.

Lemma py_strip_idemp s : py_strip (py_strip s) = py_strip s.
Proof.
  unfold py_strip. by rewrite skip_spaces_rstrip, skip_spaces_idemp, rstrip_idemp.
Qed.

(** X13.  [strip] never raises and changes only strings; stripping twice is
    stripping once; and since [int] skips the blanks around a number,
    [strip] followed by [integer] is [integer]. *)
Theorem strip_is_idempotent_and_redundant_before_integer
    (msg : MsgSource) (value : pyval) :
  (∃ r, strip value = Return r ∧ strip r = Return r)
  ∧ ((∀ s, value ≠ VStr s) → strip value = Return value)
  ∧ compose [strip; integer msg] value = integer msg value.
Proof.
  split; [|split].
  - destruct value as [|b|n|s|l|l]; simpl; eauto.
    eexists. split; [done|]. simpl. by rewrite py_strip_idemp.
  - intros Hs. destruct value as [|b|n|s|l|l]; simpl; try done. by destruct (Hs s).
  - destruct value as [|b|n|s|l|l]; try done.
    unfold compose, strip, integer, py_int. cbn [foldM]. rewrite int_of_str_strip.
    by destruct (int_of_str s).
Qed.

(** ** [clamp] and [clamp_length] *)

Lemma py_lt_int n m : py_lt (VInt n) (VInt m) = bool_decide (n < m).
Proof.
  unfold py_lt. simpl. destruct (Z.compare_spec n m).
  - by rewrite bool_decide_eq_false_2 by lia.
  - by rewrite bool_decide_eq_true_2 by lia.
  - by rewrite bool_decide_eq_false_2 by lia.
Qed.

Lemma clamp_bounds (lo hi : option Z) (n : Z) :
  (negb (is_None (bound lo)) && py_lt (VInt n) (bound lo) = false ↔ above lo n)
  ∧ (negb (is_None (bound hi)) && py_lt (bound hi) (VInt n) = false ↔ below hi n).
Proof.
  split.
  - destruct lo as [m|]; simpl; [|done]. rewrite py_lt_int.
    rewrite bool_decide_eq_false. lia.
  - destruct hi as [m|]; simpl; [|done]. rewrite py_lt_int.
    rewrite bool_decide_eq_false. lia.
Qed.

(** X14.  On an integer, with integer bounds (each may be absent), [clamp]
    does not clamp: it returns the value unchanged when it is within the
    bounds, and raises otherwise, the [Invalid] of the key ['min'] when the
    value is below the minimum (whatever the maximum), and of the key
    ['max'] when it is only above the maximum. *)
Theorem clamp_on_integers (lo hi : option Z) (msg : MsgSource) (n : Z) :
  (above lo n → below hi n →
   clamp (bound lo) (bound hi) msg (VInt n) = Return (VInt n))
  ∧ (¬ above lo n →
     clamp (bound lo) (bound hi) msg (VInt n)
     = Raise (invalid_of msg "min" "value below minimum"))
  ∧ (above lo n → ¬ below hi n →
     clamp (bound lo) (bound hi) msg (VInt n)
     = Raise (invalid_of msg "max" "value above maximum")).
Proof.
  destruct (clamp_bounds lo hi n) as [Hlo Hhi]. unfold clamp.
  destruct (negb (is_None (bound lo)) && py_lt (VInt n) (bound lo)).
  - assert (¬ above lo n) as Hn by (intros Ha; by apply Hlo in Ha).
    split; [tauto|]. split; [done | tauto].
  - assert (above lo n) as Ha by by apply Hlo.
    destruct (negb (is_None (bound hi)) && py_lt (bound hi) (VInt n)).
    + assert (¬ below hi n) as Hn by (intros Hb; by apply Hhi in Hb).
      split; [tauto|]. split; [tauto | done].
    + assert (below hi n) as Hb by by apply Hhi.
      split; [done|]. split; tauto.
Qed.

Lemma clamp_on_integers_witness :
  clamp (VInt 1) (VInt 10) MsgNone (VInt 5) = Return (VInt 5).
Proof.
  refine (proj1 (clamp_on_integers (Some 1) (Some 10) MsgNone 5) _ _); simpl; lia.
Defined.



(** X16.  [clamp_length] measures strings, tuples and lists: with integer
    bounds it returns the value when its length is within them, raises the
    [Invalid] of ['minlen'] when it is too short and of ['maxlen'] when it
    is only too long.  On [None] or a number [len] raises [TypeError],
    which [clamp_length] lets through. *)
Theorem clamp_length_on_sized_values (lo hi : option Z) (msg : MsgSource) (value : pyval) :
  (∀ n, py_len value = Return n →
     (above lo n → below hi n →
      clamp_length (bound lo) (bound hi) msg value = Return value)
     ∧ (¬ above lo n →
        clamp_length (bound lo) (bound hi) msg value
        = Raise (invalid_of msg "minlen" "too short"))
     ∧ (above lo n → ¬ below hi n →
        clamp_length (bound lo) (bound hi) msg value
        = Raise (invalid_of msg "maxlen" "too long")))
  ∧ ((∀ n, py_len value ≠ Return n) →
     ∃ e, clamp_length (bound lo) (bound hi) msg value = Raise e
          ∧ exn_cls e = "TypeError"%string)
  ∧ ((∀ n, py_len value ≠ Return n) ↔ value = VNone ∨ py_num value ≠ None).
Proof.
  split; [|split].
  - intros n Hn. destruct (clamp_bounds lo hi n) as [Hlo Hhi]. unfold clamp_length.
    rewrite Hn.
    destruct (negb (is_None (bound lo)) && py_lt (VInt n) (bound lo)).
    + assert (¬ above lo n) as Hna by (intros Ha; by apply Hlo in Ha).
      split; [tauto|]. split; [done | tauto].
    + assert (above lo n) as Ha by by apply Hlo.
      destruct (negb (is_None (bound hi)) && py_lt (bound hi) (VInt n)).
      * assert (¬ below hi n) as Hnb by (intros Hb; by apply Hhi in Hb).
        split; [tauto|]. split; [tauto | done].
      * assert (below hi n) as Hb by by apply Hhi.
        split; [done|]. split; tauto.
  - intros Hn. unfold clamp_length.
    destruct value as [|b|n|s|l|l]; simpl; eauto; by edestruct Hn.
  - destruct value as [|b|n|s|l|l]; simpl.
    + split; [by left | done].
    + split; [by right | done].
    + split; [by right | done].
    + split; [intros H; by edestruct H | intros [?|?]; done].
    + split; [intros H; by edestruct H | intros [?|?]; done].
    + split; [intros H; by edestruct H | intros [?|?]; done].
Qed.

Lemma clamp_length_on_sized_values_witness :
  clamp_length (VInt 2) VNone MsgNone (VStr "a")
  = Raise (invalid_of MsgNone "minlen" "too short").
Proof.
  refine (proj1 (proj2 (proj1 (clamp_length_on_sized_values (Some 2) None MsgNone (VStr "a"))
                          1 eq_refl)) _).
  simpl. lia.
Defined.

(** ** The constructor of [Invalid] *)

Lemma dget_join_dicts {A} (d : list (FieldKey * list A)) (a : list (FieldKey * dval A)) k :
  NoDup (dkeys a) →
  dget (_join_dicts d a) k
  = match dget a k with
    | Some v => Some (default [] (dget d k) ++ dval_items v)
    | None => dget d k
    end.
Proof.
  unfold _join_dicts. revert d.
  induction a as [|[k0 v0] a IH]; intros d Hnd; simpl; [done|].
  simpl in Hnd. apply NoDup_cons in Hnd as [Hk0 Hnd].
  rewrite IH by done. clear IH.
  assert (dget (match v0 with
                | One x => dalter (λ l, l ++ [x]) k0 (setdefault d k0 [])
                | Many l' => dalter (λ l, l ++ l') k0 (setdefault d k0 [])
                end) k
          = if decide (k0 = k) then Some (default [] (dget d k) ++ dval_items v0)
            else dget d k) as Hstep.
  { assert (∀ l', dget (dalter (λ l, l ++ l') k0 (setdefault d k0 [])) k
                  = if decide (k0 = k) then Some (default [] (dget d k) ++ l')
                    else dget d k) as H.
    { intros l'. rewrite dget_dalter, dget_setdefault.
      destruct (decide (k0 = k)) as [->|Hne]; destruct (dget d k); done. }
    destruct v0; apply H. }
  destruct (decide (k0 = k)) as [->|Hne].
  - rewrite (proj2 (dget_None a k) Hk0). exact Hstep.
  - destruct (dget a k); by rewrite Hstep.
Qed.

Lemma init_args_fold (args : list init_arg) :
  ∀ d p k,
    (∀ a, Mapping a ∈ args → NoDup (dkeys a)) →
    let dp :=
      fold_left
        (λ (dp : list (FieldKey * list entry) * list string) a,
           match a with
           | Mapping a => (_join_dicts dp.1 a, dp.2)
           | Plain a => (dp.1, dp.2 ++ [a])
           end)
        args (d, p) in
    dget dp.1 k
    = match supplied args k with
      | Some l => Some (default [] (dget d k) ++ l)
      | None => dget d k
      end
    ∧ dp.2 = p ++ plain_args args.
Proof.
  induction args as [|[m|a] args IH]; intros d p k Hnd; simpl.
  - by rewrite app_nil_r.
  - destruct (IH d (p ++ [m]) k) as [H1 H2].
    { intros a Ha. apply Hnd. apply elem_of_cons. by right. }
    split; [exact H1|]. rewrite H2. unfold plain_args. simpl. by rewrite <- app_assoc.
  - destruct (IH (_join_dicts d a) p k) as [H1 H2].
    { intros a' Ha. apply Hnd. apply elem_of_cons. by right. }
    split; [|exact H2]. rewrite H1, dget_join_dicts.
    + destruct (dget a k) as [v|]; [|done]. simpl.
      destruct (supplied args k); simpl; [by rewrite <- app_assoc | by rewrite app_nil_r].
    + apply Hnd. apply elem_of_cons. by left.
Qed.

Lemma dget_normalize_fold {A} (d : list (FieldKey * dval A)) k :
  NoDup (dkeys d) →
  ∀ res,
    dget (fold_left
            (λ res kv,
               match kv.2 with
               | One a => dset res kv.1 [a]
               | Many l => dset res kv.1 l
               end) d res) k
    = match dget d k with
      | Some v => Some (dval_items v)
      | None => dget res k
      end.
Proof.
  induction d as [|[k0 v0] d IH]; intros Hnd res; simpl; [done|].
  simpl in Hnd. apply NoDup_cons in Hnd as [Hk0 Hnd]. rewrite IH by done.
  destruct (decide (k0 = k)) as [->|Hne].
  - rewrite (proj2 (dget_None d k) Hk0). destruct v0; simpl; apply dget_dset_eq.
  - destruct (dget d k); [done|]. destruct v0; simpl; by apply dget_dset_ne.
Qed.

Lemma dget_dupdate {V} (d n : list (FieldKey * V)) k :
  NoDup (dkeys n) →
  dget (dupdate d n) k = match dget n k with Some v => Some v | None => dget d k end.
Proof.
  unfold dupdate. revert d.
  induction n as [|[k0 v0] n IH]; intros d Hnd; simpl; [done|].
  simpl in Hnd. apply NoDup_cons in Hnd as [Hk0 Hnd]. rewrite IH by done.
  destruct (decide (k0 = k)) as [->|Hne].
  - rewrite (proj2 (dget_None n k) Hk0). apply dget_dset_eq.
  - destruct (dget n k); [done|]. by apply dget_dset_ne.
Qed.

Lemma normalize_dict_NoDup {A} (d : list (FieldKey * dval A)) :
  NoDup (dkeys (_normalize_dict d)).
Proof.
  unfold _normalize_dict. destruct (list_truthy d); [|apply NoDup_nil_2].
  assert (∀ res : list (FieldKey * list A), NoDup (dkeys res) →
            NoDup (dkeys (fold_left
                            (λ res kv,
                               match kv.2 with
                               | One a => dset res kv.1 [a]
                               | Many l => dset res kv.1 l
                               end) d res))) as H.
  { induction d as [|[k0 v0] d IH]; intros res Hres; simpl; [done|].
    apply IH. destruct v0; by apply NoDup_dkeys_dset. }
  apply H. apply NoDup_nil_2.
Qed.

Lemma dget_normalize_dict {A} (d : list (FieldKey * dval A)) k :
  NoDup (dkeys d) → dget (_normalize_dict d) k = dval_items <$> dget d k.
Proof.
  intros Hnd. unfold _normalize_dict. destruct d as [|x d]; [done|].
  cbn [list_truthy]. rewrite dget_normalize_fold by done.
  by destruct (dget (x :: d) k).
Qed.

(** X17.  What [Invalid(args..., kw...)] stores.  Its message is the first
    plain argument.  Under a key that is not a keyword, [errors] holds the
    entries that the positional mappings give for it, one mapping after
    the other in argument order; a key that no mapping has is absent.
    Under a keyword, [errors] holds the entries of the keyword argument
    alone: a keyword replaces what the mappings gave for that name, it is
    not merged with it. *)
Theorem init_merges_mappings_and_keywords_replace
    (args : list init_arg) (kw : list (string * dval entry)) :
  (∀ a, Mapping a ∈ args → NoDup (dkeys a)) →
  NoDup (map fst kw) →
  exn_message (__init__ args kw) = head (plain_args args)
  ∧ (∀ k, dget (exn_errors (__init__ args [])) k = supplied args k)
  ∧ (∀ name v, (name, v) ∈ kw →
       dget (exn_errors (__init__ args kw)) (FName name) = Some (dval_items v))
  ∧ (∀ k, (∀ name, name ∈ map fst kw → k ≠ FName name) →
       dget (exn_errors (__init__ args kw)) k = supplied args k).
Proof.
  intros Hargs Hkw.
  assert (NoDup (dkeys (map (λ kv : string * dval entry, (FName kv.1, kv.2)) kw))) as Hkw'.
  { unfold dkeys. rewrite map_map. simpl.
    rewrite <- (map_map fst FName). apply NoDup_fmap_2; [|done].
    intros x y [=]. done. }
  assert (∀ k, dget (map (λ kv : string * dval entry, (FName kv.1, kv.2)) kw) k
               = match k with
                 | FName name => dget kw name
                 | _ => None
                 end) as Hget.
  { intros k. induction kw as [|[n v] kw IH]; simpl; [by destruct k|].
    simpl in Hkw. apply NoDup_cons in Hkw as [_ Hkw].
    simpl in Hkw'. apply NoDup_cons in Hkw' as [_ Hkw'].
    destruct (decide (FName n = k)) as [<-|Hne].
    - by rewrite decide_True.
    - rewrite IH by done. destruct k as [|name|l]; [done| |done].
      rewrite decide_False; [done|]. congruence. }
  unfold __init__.
  split; [|split; [|split]].
  - simpl. by destruct (init_args_fold args [] [] FNone Hargs) as [_ ->].
  - intros k. simpl. destruct (init_args_fold args [] [] k Hargs) as [-> _].
    simpl. by destruct (supplied args k).
  - intros name v Hin. simpl.
    rewrite dget_dupdate by apply normalize_dict_NoDup.
    rewrite dget_normalize_dict, Hget by done.
    assert (dget kw name = Some v) as ->; [|done].
    clear -Hkw Hin. induction kw as [|[n v'] kw IH]; [by apply elem_of_nil in Hin|].
    simpl in *. apply NoDup_cons in Hkw as [Hn Hkw].
    apply elem_of_cons in Hin as [[= <- <-]|Hin]; [by rewrite decide_True|].
    rewrite decide_False; [by apply IH|]. intros ->. apply Hn.
    change name with ((name, v).1). by apply list_elem_of_fmap_2.
  - intros k Hk. simpl.
    rewrite dget_dupdate by apply normalize_dict_NoDup.
    rewrite dget_normalize_dict, Hget by done.
    assert (match k with FName name => dget kw name | _ => None end = None) as ->.
    { destruct k as [|name|l]; [done| |done].
      destruct (dget kw name) eqn:E; [|done]. exfalso. apply (Hk name); [|done].
      clear -E. induction kw as [|[n v'] kw IH]; [done|]. simpl in *.
      destruct (decide (n = name)) as [->|]; [apply elem_of_cons; by left|].
      apply elem_of_cons. right. by apply IH. }
    simpl. destruct (init_args_fold args [] [] k Hargs) as [-> _].
    simpl. by destruct (supplied args k).
Qed.

Lemma init_merges_mappings_and_keywords_replace_witness :
  dget (exn_errors
          (__init__ [Plain "top"; Mapping [(FName "x", One (Msg "a"))];
                     Mapping [(FName "x", Many [Msg "b"; Msg "c"])]]
             [("x", One (Msg "k"))])) (FName "x")
  = Some [Msg "k"].
Proof.
  refine (proj1 (proj2 (proj2
            (init_merges_mappings_and_keywords_replace
               [Plain "top"; Mapping [(FName "x", One (Msg "a"))];
                Mapping [(FName "x", Many [Msg "b"; Msg "c"])]]
               [("x", One (Msg "k"))] _ _))) "x" (One (Msg "k")) (list_elem_of_here _ _)).
  - intros a Ha. apply elem_of_cons in Ha as [[=]|Ha].
    apply elem_of_cons in Ha as [[= ->]|Ha]; [apply NoDup_singleton|].
    apply elem_of_cons in Ha as [[= ->]|Ha]; [apply NoDup_singleton|].
    by apply elem_of_nil in Ha.
  - apply NoDup_singleton.
Defined.

(** ** [add_error_message], once more *)





(** ** Nested errors that carry nothing *)

Section foldM_app.
Context {A B : Type} (f : A → B → outcome A).

Lemma foldM_app (l1 l2 : list B) (a : A) :
  foldM f (l1 ++ l2) a
  = match foldM f l1 a with
    | Return a' => foldM f l2 a'
    | Raise e => Raise e
    end.
Proof.
  revert a. induction l1 as [|x l1 IH]; intros a; simpl; [done|].
  by destruct (f a x).
Qed.

End foldM_app.

(** X19.  A nested [Invalid] with neither a message nor errors leaves no
    trace in what [unpack_errors] returns: the result is the one obtained
    without that entry, whatever stands before and after it. *)
Theorem unpack_errors_skips_blank_nested
    (f : option FieldKey) (m : option string)
    (errors1 errors2 : list (FieldKey * list entry))
    (name : FieldKey) (ms1 ms2 : list entry) (b : exn)
    (force_dict list_of_errors : bool) :
  blank b →
  unpack_errors (InvalidExc f m (errors1 ++ (name, ms1 ++ Exc b :: ms2) :: errors2))
    force_dict list_of_errors
  = unpack_errors (InvalidExc f m (errors1 ++ (name, ms1 ++ ms2) :: errors2))
      force_dict list_of_errors.
Proof.
  intros (fb & mb & -> & Hmb).
  rewrite !unpack_errors_Invalid.
  assert (∀ x y : FieldKey * list entry, list_truthy (errors1 ++ x :: errors2)
                  = list_truthy (errors1 ++ y :: errors2)) as Ht.
  { intros x y. by destruct errors1. }
  rewrite (Ht _ (name, ms1 ++ ms2)).
  assert (∀ r, unpack_loop (errors1 ++ (name, ms1 ++ Exc (InvalidExc fb mb []) :: ms2) :: errors2) r
               = unpack_loop (errors1 ++ (name, ms1 ++ ms2) :: errors2) r) as ->; [|done].
  intros r. unfold unpack_loop. rewrite !foldM_app.
  destruct (foldM _ errors1 r) as [r1|e]; [|done].
  cbn [foldM fst snd]. rewrite !foldM_app.
  destruct (foldM _ ms1 r1) as [r2|e]; [|done].
  cbn [foldM]. unfold unpack_entry at 1.
  rewrite unpack_errors_Invalid. cbn [list_truthy orb]. by rewrite Hmb.
Qed.

Lemma unpack_errors_skips_blank_nested_witness :
  unpack_errors
    (InvalidExc None (Some "top") [(FName "x", [Msg "a"; Exc (InvalidExc None None [])])])
    true true
  = unpack_errors (InvalidExc None (Some "top") [(FName "x", [Msg "a"])]) true true.
Proof.
  apply (unpack_errors_skips_blank_nested None (Some "top") [] [] (FName "x") [Msg "a"] []
           (InvalidExc None None []) true true).
  by exists None, None.
Defined.

(** ** The order of [sorted] *)

Lemma ascii_compare_refl c : Ascii.compare c c = Eq.
Proof. unfold Ascii.compare. apply N.compare_refl. Qed.

Lemma ascii_compare_Eq c1 c2 : Ascii.compare c1 c2 = Eq → c1 = c2.
Proof. apply Ascii.compare_eq_iff. Qed.

Lemma ascii_compare_trans c1 c2 c3 o :
  Ascii.compare c1 c2 = o → Ascii.compare c2 c3 = o → o ≠ Eq → Ascii.compare c1 c3 = o.
Proof.
  unfold Ascii.compare. intros H1 H2 Ho. destruct o; [done| |].
  - rewrite N.compare_lt_iff in *. by etrans.
  - rewrite N.compare_gt_iff in *. by etrans.
Qed.

Lemma string_leb_trans s1 : ∀ s2 s3,
  String.leb s1 s2 = true → String.leb s2 s3 = true → String.leb s1 s3 = true.
Proof.
  unfold String.leb.
  induction s1 as [|c1 s1 IH]; intros [|c2 s2] [|c3 s3]; simpl; try done.
  destruct (Ascii.compare c1 c2) eqn:E12; [| |done].
  - apply ascii_compare_Eq in E12 as ->.
    destruct (Ascii.compare c2 c3) eqn:E23; [apply IH|done|done].
  - destruct (Ascii.compare c2 c3) eqn:E23; [| |done].
    + apply ascii_compare_Eq in E23 as <-. by rewrite E12.
    + by rewrite (ascii_compare_trans c1 c2 c3 Lt).
Qed.

Lemma tuple_leb_total a : ∀ b, tuple_leb a b = true ∨ tuple_leb b a = true.
Proof.
  induction a as [|x a IH]; intros [|y b]; simpl; auto.
  case_bool_decide as Hxy.
  - subst y. rewrite bool_decide_eq_true_2 by done. apply IH.
  - rewrite bool_decide_eq_false_2 by congruence. apply String.leb_total.
Qed.

Lemma tuple_leb_trans a : ∀ b c,
  tuple_leb a b = true → tuple_leb b c = true → tuple_leb a c = true.
Proof.
  induction a as [|x a IH]; intros [|y b] [|z c]; simpl; try done.
  case_bool_decide as Hxy; case_bool_decide as Hyz.
  - subst. rewrite bool_decide_eq_true_2 by done. apply IH.
  - subst. by rewrite bool_decide_eq_false_2.
  - subst. by rewrite bool_decide_eq_false_2.
  - intros H1 H2. case_bool_decide as Hxz.
    + subst z. destruct Hxy. by apply String.leb_antisym.
    + by eapply string_leb_trans.
Qed.

Lemma key_leb_total a b : key_leb a b = true ∨ key_leb b a = true.
Proof.
  destruct a, b; simpl; auto using String.leb_total, tuple_leb_total.
Qed.

Lemma key_leb_trans a b c :
  key_leb a b = true → key_leb b c = true → key_leb a c = true.
Proof.
  destruct a, b, c; simpl; try done; eauto using string_leb_trans, tuple_leb_trans.
Qed.

Lemma insert_key_sorted k l :
  StronglySorted (λ a b, key_leb a b = true) l →
  StronglySorted (λ a b, key_leb a b = true) (insert_key k l).
Proof.
  induction l as [|y l IH]; intros Hs; simpl.
  - constructor; [constructor | done].
  - apply StronglySorted_inv in Hs as [Hs Hy].
    destruct (key_leb k y) eqn:E.
    + constructor; [by constructor|]. constructor; [done|].
      eapply Forall_impl; [exact Hy|]. intros a Ha. by eapply key_leb_trans.
    + constructor; [by apply IH|].
      apply Forall_forall. intros a Ha.
      rewrite insert_key_Permutation in Ha. apply elem_of_cons in Ha as [->|Ha].
      * destruct (key_leb_total k y); congruence.
      * rewrite Forall_forall in Hy. by apply Hy.
Qed.

Lemma sorted_StronglySorted l :
  StronglySorted (λ a b, key_leb a b = true) (sorted l).
Proof.
  induction l as [|k l IH]; simpl; [constructor|]. by apply insert_key_sorted.
Qed.

Lemma StronglySorted_lookup {A} (R : A → A → Prop) (l : list A) :
  StronglySorted R l →
  ∀ i j a b, (i < j)%nat → l !! i = Some a → l !! j = Some b → R a b.
Proof.
  induction 1 as [|x l Hs IH Hx]; intros i j a b Hij Hi Hj; [done|].
  destruct j as [|j]; [lia|]. simpl in Hj. destruct i as [|i]; simpl in Hi.
  - injection Hi as <-. rewrite Forall_forall in Hx. apply Hx.
    by eapply list_elem_of_lookup_2.
  - apply (IH i j); [lia|done|done].
Qed.

(** X20.  The order in which a schema runs its subvalidators.
    [sorted(self.subvalidators)] holds the declared keys, each as often as
    it is declared, in ascending order: strings by their characters,
    tuples element by element, and every string before every tuple.  So a
    singular key is always run before a plural key. *)
Theorem sorted_orders_keys (l : list SchemaKey) :
  sorted l ≡ₚ l
  ∧ (∀ i j a b, (i < j)%nat → sorted l !! i = Some a → sorted l !! j = Some b →
       key_leb a b = true)
  ∧ (∀ i j s xs, sorted l !! i = Some (Singular s) → sorted l !! j = Some (Plural xs) →
       (i < j)%nat).
Proof.
  pose proof (StronglySorted_lookup _ _ (sorted_StronglySorted l)) as Hs.
  split; [apply sorted_Permutation|]. split; [exact Hs|].
  intros i j s xs Hi Hj.
  destruct (decide (i < j)%nat) as [|Hge]; [done|].
  destruct (decide (i = j)) as [->|Hne]; [congruence|].
  assert (j < i)%nat as Hji by lia.
  by specialize (Hs j i _ _ Hji Hj Hi).
Qed.

(** ** What a call leaves alone *)

Lemma dict_zip_is_Some (k : list string) (tmp : list pyval) x :
  is_Some (dict_zip k tmp !! x) → x ∈ k.
Proof.
  intros Hs. destruct (decide (x ∈ take (length tmp) k)) as [Hin|Hnin].
  - apply elem_of_take in Hin as (i & Hi & _). by eapply list_elem_of_lookup_2.
  - rewrite (dict_zip_other _ _ _ Hnin) in Hs. by destruct Hs.
Qed.

(** A step writes to [res] only, creates no dict, deletes no key, and the
    keys it adds are named by its schema key. *)
Lemma step_frame (self : Schema.t) data res w exceptions key w' out :
  Schema.step self data res (w, exceptions) key = (w', out) →
  (∀ l, l ≠ res → hread w' l = hread w l)
  ∧ length (heap w') = length (heap w)
  ∧ (∀ x, is_Some (hread w res !! x) → is_Some (hread w' res !! x))
  ∧ (∀ x, is_Some (hread w' res !! x) → is_Some (hread w res !! x) ∨ mentions key x).
Proof.
  unfold Schema.step.
  destruct (dget (Schema.subvalidators self) key) as [vfunc|]; [|intros [= <- <-]; auto].
  destruct (as_validator vfunc _) as [tmp|e]; [|intros [= <- <-]; auto].
  destruct key as [s|xs].
  - intros [= <- <-]. split; [|split; [by rewrite length_heap_hwrite|split]].
    + intros l Hl. rewrite hread_hwrite. case_decide as Hd; [by destruct Hd|done].
    + intros x Hx. rewrite hread_hwrite. case_decide; [|done].
      rewrite hread_log_call. destruct (decide (s = x)) as [->|Hne].
      * rewrite lookup_insert_eq. eauto.
      * by rewrite lookup_insert_ne.
    + intros x. rewrite hread_hwrite. case_decide; [|auto].
      rewrite hread_log_call. destruct (decide (s = x)) as [->|Hne].
      * right. done.
      * rewrite lookup_insert_ne by done. auto.
  - destruct (iterate tmp) as [ts|]; intros [= <- <-]; [|auto].
    split; [|split; [by rewrite length_heap_hwrite|split]].
    + intros l Hl. rewrite hread_hwrite. case_decide as Hd; [by destruct Hd|done].
    + intros x Hx. rewrite hread_hwrite. case_decide; [|done].
      rewrite hread_log_call. apply lookup_union_is_Some. by right.
    + intros x. rewrite hread_hwrite. case_decide; [|auto].
      rewrite hread_log_call. intros [Hz|Hr]%lookup_union_is_Some; [|by left].
      right. simpl. by eapply dict_zip_is_Some.
Qed.

Lemma loop_frame (self : Schema.t) data res keys :
  ∀ w exceptions w' out,
    Schema.loop self data res keys (w, exceptions) = (w', out) →
    (∀ l, l ≠ res → hread w' l = hread w l)
    ∧ length (heap w') = length (heap w)
    ∧ (∀ x, is_Some (hread w res !! x) → is_Some (hread w' res !! x))
    ∧ (∀ x, is_Some (hread w' res !! x) →
         is_Some (hread w res !! x) ∨ ∃ key, key ∈ keys ∧ mentions key x).
Proof.
  induction keys as [|key keys IH]; intros w exceptions w' out.
  - simpl. intros [= <- <-]. auto.
  - rewrite loop_cons.
    destruct (Schema.step self data res (w, exceptions) key) as [w1 out1] eqn:Hstep.
    destruct (step_frame _ _ _ _ _ _ _ _ Hstep) as (Ho1 & Hl1 & Hk1 & Hn1).
    assert (∀ x, is_Some (hread w1 res !! x) →
                 is_Some (hread w res !! x) ∨ ∃ key0, key0 ∈ key :: keys ∧ mentions key0 x)
      as Hn1'.
    { intros x Hx. destruct (Hn1 x Hx) as [?|?]; [by left|].
      right. exists key. split; [apply elem_of_cons; by left | done]. }
    destruct out1 as [exceptions1|e]; [|intros [= <- <-]; auto].
    intros Hloop. destruct (IH _ _ _ _ Hloop) as (Ho & Hl & Hk & Hn).
    split; [intros l Hne; by rewrite Ho, Ho1|]. split; [by rewrite Hl, Hl1|].
    split; [intros x Hx; by apply Hk, Hk1|].
    intros x Hx. destruct (Hn x Hx) as [Hx1|(key0 & Hin & Hm)]; [by apply Hn1'|].
    right. exists key0. split; [apply elem_of_cons; by right | done].
Qed.

Lemma call_unfold (self : Schema.t) data w :
  Schema.__call__ self data w
  = let wr := if negb (Schema.filter_extra self) then (w, data) else halloc w ∅ in
    match Schema.key_checks self (hread wr.1 data) with
    | Some e => (wr.1, Raise e)
    | None =>
        match Schema.loop self data wr.2 (sorted (dkeys (Schema.subvalidators self)))
                (wr.1, []) with
        | (w, Raise e) => (w, Raise e)
        | (w, Return exceptions) =>
            if list_truthy exceptions then
              (w, Raise (__init__
                           [Plain (schema_error_message self);
                            Mapping (map (λ kv, (kv.1, Many (map Exc kv.2))) exceptions)]
                           []))
            else (w, Return wr.2)
        end
    end.
Proof. unfold Schema.__call__. by destruct (if negb _ then _ else _). Qed.

(** X21.  With [filter_extra=True] (the default) a call leaves every dict
    it was given as it is, whether it returns or raises; the dict it
    returns is a new one, and all its keys are keys that the schema
    names. *)
Theorem call_with_filter_extra_builds_new_dict
    (self : Schema.t) (data : nat) (w w' : world) (out : outcome nat) :
  Schema.filter_extra self = true →
  Schema.__call__ self data w = (w', out) →
  (∀ l, (l < length (heap w))%nat → hread w' l = hread w l)
  ∧ ∀ r, out = Return r →
      r = length (heap w)
      ∧ ∀ x, is_Some (hread w' r !! x) → known_key self x.
Proof.
  intros Hf. rewrite call_unfold, Hf. cbn [negb halloc fst snd].
  cbv zeta. cbn [fst snd].
  set (w0 := World (heap w ++ [∅]) (calls w)).
  assert (∀ l, hread w0 l = hread w l) as Hr0 by apply (hread_halloc_empty w).
  destruct (Schema.key_checks self _) as [e|].
  { intros [= <- <-]. split; [intros l _; apply Hr0 | done]. }
  destruct (Schema.loop self data (length (heap w)) _ (w0, [])) as [w1 out1] eqn:Hloop.
  destruct (loop_frame _ _ _ _ _ _ _ _ Hloop) as (Ho & _ & _ & Hn).
  assert (∀ l, (l < length (heap w))%nat → hread w1 l = hread w l) as Hsame.
  { intros l Hl. rewrite Ho by lia. apply Hr0. }
  destruct out1 as [exceptions|e]; [destruct (list_truthy exceptions)|];
    intros [= <- <-]; (split; [done|]); [done| |done].
  intros r [= <-]. split; [done|].
  intros x Hx. destruct (Hn x Hx) as [Hx0|(key & Hin & Hm)].
  - rewrite Hr0 in Hx0. unfold hread in Hx0. rewrite lookup_ge_None_2 in Hx0 by done.
    simpl in Hx0. rewrite lookup_empty in Hx0. by destruct Hx0.
  - exists key. split; [|done]. by rewrite sorted_Permutation in Hin.
Qed.

Lemma call_with_filter_extra_builds_new_dict_witness :
  let self := Schema.Make [(Singular "a", VFunc (integer MsgNone))] MsgNone true true true in
  let data : gmap string pyval := <["a" := VStr "1"]> (<["z" := VStr "q"]> ∅) in
  hread (call_on self data).1 0%nat = data.
Proof.
  intros self data.
  refine (proj1 (call_with_filter_extra_builds_new_dict self 0%nat (World [data] [])
                   (call_on self data).1 (call_on self data).2 eq_refl _) 0%nat _).
  - reflexivity.
  - simpl. lia.
Defined.

(** X22.  With [filter_extra=False] a call creates no dict: what it returns
    is the dict it was given.  In that dict no key is removed, and a key
    that the schema does not name keeps its value, whether the call returns
    or raises; the other dicts are left as they are. *)
Theorem call_without_filter_extra_works_in_place
    (self : Schema.t) (data : nat) (w w' : world) (out : outcome nat) :
  Schema.filter_extra self = false →
  Schema.__call__ self data w = (w', out) →
  length (heap w') = length (heap w)
  ∧ (∀ r, out = Return r → r = data)
  ∧ (∀ l, l ≠ data → hread w' l = hread w l)
  ∧ (∀ x, is_Some (hread w data !! x) → is_Some (hread w' data !! x))
  ∧ (∀ x, ¬ known_key self x → hread w' data !! x = hread w data !! x).
Proof.
  intros Hf. rewrite call_unfold, Hf. cbn [negb]. cbv zeta. cbn [fst snd].
  destruct (Schema.key_checks self _) as [e|].
  { intros [= <- <-]. done. }
  destruct (Schema.loop self data data _ (w, [])) as [w1 out1] eqn:Hloop.
  destruct (loop_frame _ _ _ _ _ _ _ _ Hloop) as (Ho & Hl & Hk & Hn).
  assert (∀ x, ¬ known_key self x → hread w1 data !! x = hread w data !! x) as Hu.
  { intros x Hx.
    assert (Forall (λ key, ¬ mentions key x) (sorted (dkeys (Schema.subvalidators self))))
      as Hkeys.
    { apply Forall_forall. intros key Hin Hm. apply Hx. exists key.
      split; [|done]. by rewrite sorted_Permutation in Hin. }
    by destruct (loop_unmentioned _ _ _ _ _ _ _ _ _ Hkeys Hloop) as (-> & _). }
  destruct out1 as [exceptions|e]; [destruct (list_truthy exceptions)|];
    intros [= <- <-]; repeat split; try done.
  by intros r [= <-].
Qed.

Lemma call_without_filter_extra_works_in_place_witness :
  let self := Schema.Make [(Singular "a", VFunc (integer MsgNone))] MsgNone true true false in
  let data : gmap string pyval := <["a" := VStr "1"]> (<["z" := VStr "q"]> ∅) in
  hread (call_on self data).1 0%nat !! "z" = Some (VStr "q").
Proof.
  intros self data.
  refine (eq_trans
            (proj2 (proj2 (proj2 (proj2
               (call_without_filter_extra_works_in_place self 0%nat (World [data] [])
                  (call_on self data).1 (call_on self data).2 eq_refl _)))) "z" _) _).
  - reflexivity.
  - intros (key & Hin & Hm). simpl in Hin. apply list_elem_of_singleton in Hin. subst key.
    simpl in Hm. discriminate.
  - reflexivity.
Defined.

(** ** What a successful call stores *)

Lemma dalter_setdefault_nonempty {V} (g : V → V) (d : list (FieldKey * V)) k v :
  dalter g k (setdefault d k v) ≠ [].
Proof.
  intros H.
  assert (dget (dalter g k (setdefault d k v)) k ≠ None) as Hget.
  { rewrite dget_dalter, decide_True by done. rewrite dget_setdefault.
    rewrite decide_True by done. by destruct (dget d k). }
  by rewrite H in Hget.
Qed.

(** When a step leaves [exceptions] empty, it was empty and the
    subvalidator returned. *)
Lemma step_Return_nil (self : Schema.t) data res w exceptions key w' :
  Schema.step self data res (w, exceptions) key = (w', Return []) →
  exceptions = []
  ∧ ∃ vfunc tmp, dget (Schema.subvalidators self) key = Some vfunc
                 ∧ as_validator vfunc (Schema.vdata_of w res data key) = Return tmp.
Proof.
  unfold Schema.step.
  destruct (dget (Schema.subvalidators self) key) as [vfunc|]; [|done].
  destruct (as_validator vfunc _) as [tmp|e] eqn:E.
  - destruct key as [s|xs]; [intros [= <- <-]; eauto|].
    destruct (iterate tmp); intros [= <- <-]; eauto.
  - intros [= _ H]. by apply dalter_setdefault_nonempty in H.
Qed.

Lemma loop_Return_nil (self : Schema.t) data res keys :
  ∀ w exceptions w',
    Schema.loop self data res keys (w, exceptions) = (w', Return []) → exceptions = [].
Proof.
  induction keys as [|key keys IH]; intros w exceptions w'.
  - simpl. by intros [= _ ->].
  - rewrite loop_cons.
    destruct (Schema.step self data res (w, exceptions) key) as [w1 [exceptions1|e]] eqn:Hstep;
      [|done].
    intros Hloop. apply IH in Hloop. subst exceptions1.
    by apply step_Return_nil in Hstep as [-> _].
Qed.

(** X23.  What a successful call stores for a singular key.  When the call
    returns, the subvalidator of a declared singular key [k] has returned
    on [data.get(k)] (the input value, or [None] when [k] is missing), and
    the returned dict holds that result under [k], provided no plural key
    names [k]. *)
Theorem successful_call_converts_singular_key
    (self : Schema.t) (data : nat) (w w' : world) (r : nat)
    (k : string) (vfunc : SubValidator) :
  NoDup (dkeys (Schema.subvalidators self)) →
  dget (Schema.subvalidators self) (Singular k) = Some vfunc →
  (∀ xs, Plural xs ∈ dkeys (Schema.subvalidators self) → k ∉ xs) →
  (data < length (heap w))%nat →
  Schema.__call__ self data w = (w', Return r) →
  ∃ t, as_validator vfunc (default VNone (hread w data !! k)) = Return t
       ∧ hread w' r !! k = Some t.
Proof.
  intros Hnd Hk Hplural Hvalid.
  assert (Singular k ∈ dkeys (Schema.subvalidators self)) as Hin
    by by eapply dget_Some_keys.
  destruct (sorted_split _ k Hnd Hin) as (before & after & Hsorted & Hsing & Hnb & Hna).
  rewrite call_unfold. cbv zeta.
  set (wr := if negb (Schema.filter_extra self) then (w, data) else halloc w ∅).
  assert ((∀ l, hread wr.1 l = hread w l)
          ∧ (wr.2 < length (heap wr.1))%nat
          ∧ (hread w wr.2 !! k = None ∨ wr.2 = data)) as (Hread & Hrvalid & Hres).
  { unfold wr. destruct (Schema.filter_extra self); simpl; [|by auto].
    split; [apply hread_halloc_empty|]. split; [rewrite length_app; simpl; lia|].
    left. unfold hread. by rewrite lookup_ge_None_2. }
  destruct wr as [w0 res]. simpl in Hread, Hrvalid, Hres.
  destruct (Schema.key_checks self _); [done|].
  rewrite Hsorted, loop_app. cbn [fst snd].
  destruct (Schema.loop self data res before (w0, [])) as [w1 [exceptions1|e]] eqn:Hloop1;
    [|done].
  assert (Forall (λ key, ¬ mentions key k) before) as Hbefore.
  { rewrite Forall_forall in Hsing |- *. intros key Hkey Hm.
    specialize (Hsing key Hkey). destruct key as [s|xs]; [|done].
    simpl in Hm. by subst s. }
  destruct (loop_unmentioned _ _ _ _ _ _ _ _ _ Hbefore Hloop1) as (Hr1 & Hl1 & _).
  rewrite loop_cons.
  destruct (Schema.step self data res (w1, exceptions1) (Singular k))
    as [w2 [exceptions2|e]] eqn:Hstep; [|done].
  destruct (Schema.loop self data res after (w2, exceptions2))
    as [w3 [exceptions3|e]] eqn:Hloop3; [|done].
  destruct exceptions3 as [|x3 exceptions3]; [|done].
  cbn [list_truthy]. intros [= <- <-].
  apply loop_Return_nil in Hloop3 as Hnil. subst exceptions2.
  apply step_Return_nil in Hstep as Hstep'.
  destruct Hstep' as (-> & vfunc' & t & Hk' & Ht).
  rewrite Hk in Hk'. injection Hk' as <-.
  assert (Schema.vdata_of w1 res data (Singular k) = default VNone (hread w data !! k))
    as Hvdata.
  { unfold Schema.vdata_of, gather. rewrite !Hr1, !Hread.
    destruct Hres as [->| ->]; [done|]. by destruct (hread w data !! k). }
  rewrite Hvdata in Ht. exists t. split; [done|].
  assert (Forall (λ key, ¬ mentions key k) after) as Hafter.
  { apply Forall_forall. intros key Hkey Hm. destruct key as [s|xs]; simpl in Hm.
    - subst s. done.
    - apply (Hplural xs); [|done]. rewrite <- (sorted_Permutation (dkeys _)), Hsorted.
      apply elem_of_app. right. apply elem_of_cons. by right. }
  destruct (loop_unmentioned _ _ _ _ _ _ _ _ _ Hafter Hloop3) as (Hr3 & _ & _).
  rewrite Hr3. revert Hstep. unfold Schema.step. rewrite Hk, Hvdata, Ht.
  intros [= <-]. rewrite hread_hwrite, decide_True.
  - apply lookup_insert_eq.
  - split; [done|]. simpl. by rewrite Hl1.
Qed.

Lemma successful_call_converts_singular_key_witness :
  let self :=
    Schema.Make [(Singular "a", VFunc (integer MsgNone));
                 (Singular "b", VFunc (default_ (VInt 7)))]
      MsgNone true true true in
  let w := World [{["a" := VStr "12"]}] [] in
  ∃ t, default_ (VInt 7) (default VNone (hread w 0%nat !! "b")) = Return t
       ∧ hread (Schema.__call__ self 0%nat w).1 1%nat !! "b" = Some t.
Proof.
  intros self w.
  apply (successful_call_converts_singular_key self 0%nat w
           (Schema.__call__ self 0%nat w).1 1%nat "b" (VFunc (default_ (VInt 7)))).
  - simpl. apply NoDup_cons. split; [|apply NoDup_singleton].
    intros H. apply list_elem_of_singleton in H. discriminate.
  - reflexivity.
  - intros xs H. simpl in H. apply elem_of_cons in H as [H|H]; [discriminate|].
    apply list_elem_of_singleton in H. discriminate.
  - simpl. lia.
  - reflexivity.
Defined.

(** ** The checks on the key sets *)

(** X24.  When the checks on the key sets let an input through: with
    [allow_extra=False] every key of the input must be named by the schema,
    with [allow_missing=False] every key that the schema names (the members
    of plural keys included) must be in the input; with both flags [True]
    every input passes. *)
Theorem key_checks_pass_iff (self : Schema.t) (data : gmap string pyval) :
  Schema.key_checks self data = None
  ↔ (Schema.allow_extra self = false → ∀ x, x ∈ dom data → known_key self x)
    ∧ (Schema.allow_missing self = false → ∀ x, known_key self x → x ∈ dom data).
Proof.
  assert (dom data ∖ Schema._keys self = ∅ ↔ ∀ x, x ∈ dom data → known_key self x) as He.
  { split.
    - intros Hempty x Hx. apply _keys_known.
      destruct (decide (x ∈ Schema._keys self)) as [|Hn]; [done|].
      assert (x ∈ dom data ∖ Schema._keys self) as Hd by by apply elem_of_difference.
      rewrite Hempty in Hd. by apply elem_of_empty in Hd.
    - intros Hall. apply set_eq. intros y.
      rewrite elem_of_difference, _keys_known. split; [|by intros ?%elem_of_empty].
      intros [Hy Hny]. destruct Hny. by apply Hall. }
  assert (Schema._keys self ∖ dom data = ∅ ↔ ∀ x, known_key self x → x ∈ dom data) as Hm.
  { split.
    - intros Hempty x Hx. apply _keys_known in Hx.
      destruct (decide (x ∈ dom data)) as [|Hn]; [done|].
      assert (x ∈ Schema._keys self ∖ dom data) as Hd by by apply elem_of_difference.
      rewrite Hempty in Hd. by apply elem_of_empty in Hd.
    - intros Hall. apply set_eq. intros y.
      rewrite elem_of_difference, _keys_known. split; [|by intros ?%elem_of_empty].
      intros [Hy Hny]. destruct Hny. by apply Hall. }
  rewrite <- He, <- Hm. clear He Hm. unfold Schema.key_checks.
  destruct (decide (dom data ∖ Schema._keys self = ∅)) as [E1|E1];
    destruct (decide (Schema._keys self ∖ dom data = ∅)) as [E2|E2];
    destruct (Schema.allow_extra self), (Schema.allow_missing self); simpl;
    rewrite ?(bool_decide_eq_false_2 _ (λ H : dom data ∖ Schema._keys self ≠ ∅, H E1)),
      ?(bool_decide_eq_false_2 _ (λ H : Schema._keys self ∖ dom data ≠ ∅, H E2)),
      ?(bool_decide_eq_true_2 _ E1), ?(bool_decide_eq_true_2 _ E2);
    split; try done; try (intros [H1 H2]; try (by destruct E1; apply H1);
                          by destruct E2; apply H2).
Qed.

(** ** [fields_equal] *)

Lemma py_set_fold_length (l : list pyval) :
  ∀ acc, (length acc ≤ length (fold_left
                      (λ acc x, if existsb (λ y, py_eq y x) acc then acc else acc ++ [x])
                      l acc))%nat.
Proof.
  induction l as [|x l IH]; intros acc; simpl; [done|].
  destruct (existsb _ acc); [apply IH|].
  etrans; [|apply IH]. rewrite length_app. simpl. lia.
Qed.

Lemma py_set_from_one (x : pyval) (xs : list pyval) :
  length (fold_left (λ acc x, if existsb (λ y, py_eq y x) acc then acc else acc ++ [x])
            xs [x]) = 1%nat
  ↔ ∀ y, y ∈ xs → py_eq x y = true.
Proof.
  induction xs as [|y xs IH]; simpl.
  - split; [|done]. intros _ y Hy. by apply elem_of_nil in Hy.
  - rewrite orb_false_r. destruct (py_eq x y) eqn:E.
    + rewrite IH. split.
      * intros H z Hz. apply elem_of_cons in Hz as [->|Hz]; [done | by apply H].
      * intros H z Hz. apply H. apply elem_of_cons. by right.
    + split.
      * intros H. pose proof (py_set_fold_length xs [x; y]) as Hle.
        simpl in Hle. lia.
      * intros H. rewrite H in E; [done|]. apply elem_of_cons. by left.
Qed.

(** X25.  [fields_equal] returns its argument, unchanged, exactly when the
    argument is a collection of hashable values that is not empty and all
    of whose elements are equal to the first.  When it fails for another
    reason than a [TypeError], the error unpacks to the message under
    [field] ([None] when no field is given). *)
Theorem fields_equal_accepts_iff_all_equal
    (msg : MsgSource) (field : FieldKey) (values : pyval) :
  (∀ r, fields_equal msg field values = Return r
        ↔ r = values
          ∧ ∃ x xs, iterate values = Some (x :: xs)
                    ∧ forallb hashable (x :: xs) = true
                    ∧ ∀ y, y ∈ xs → py_eq x y = true)
  ∧ (∀ e, fields_equal msg field values = Raise e →
          is_Invalid e = true →
          str_truthy (_msg msg "fields_equal" "fields not equal") = true →
          unpack_errors e true false
          = Return (UDict [(field, _msg msg "fields_equal" "fields not equal")])).
Proof.
  unfold fields_equal. split.
  - intros r. destruct (iterate values) as [l|]; [|split; [done|]].
    2: { by intros (_ & x & xs & ? & _). }
    destruct (forallb hashable l) eqn:Hh.
    2: { split; [done|]. intros (_ & x & xs & [= ->] & Hh' & _). congruence. }
    destruct l as [|x xs].
    { simpl. split; [by destruct field|]. by intros (_ & x & xs & ? & _). }
    unfold py_set. cbn [fold_left existsb app].
    case_bool_decide as Hlen; cbn [negb].
    + split.
      * intros [= <-]. split; [done|]. exists x, xs. split; [done|]. split; [done|].
        by apply py_set_from_one.
      * by intros [-> _].
    + split; [by destruct field|].
      intros (_ & x' & xs' & [= <- <-] & _ & Heq). destruct Hlen.
      by apply py_set_from_one.
  - intros e. destruct (iterate values) as [l|]; [|by intros [= <-]].
    destruct (forallb hashable l); [|by intros [= <-]].
    destruct (negb _); [|done].
    destruct field as [|name|names]; intros [= <-] _ Hm; unfold __init__; simpl.
    all: rewrite ?decide_True by done; simpl.
    all: by rewrite ?Hm.
Qed.

(** ** From a failed call to the messages by field *)

Lemma plain_messages_Msg (ss : list string) : plain_messages (map Msg ss) = ss.
Proof. unfold plain_messages. induction ss as [|s ss IH]; simpl; [done|]. by f_equal. Qed.

Lemma forallb_is_plain_Msg (ss : list string) : forallb is_plain (map Msg ss) = true.
Proof. by induction ss. Qed.

Lemma unpack_simple_entries name (es : list exn) :
  Forall simple es →
  ∀ r, foldM (unpack_entry (λ m, unpack_errors m false false) name) (map Exc es) r
       = foldM (unpack_entry (λ m, unpack_errors m false false) name)
           (map Msg (messages_of es)) r.
Proof.
  induction 1 as [|e es (f & m & -> & Hm) _ IH]; intros r; [done|].
  unfold messages_of. cbn [map omap exn_message foldM].
  assert (unpack_entry (λ m, unpack_errors m false false) name r
            (Exc (InvalidExc f (Some m) []))
          = Return (_safe_append r name m)) as ->.
  { unfold unpack_entry. rewrite unpack_errors_Invalid. cbn [list_truthy orb].
    unfold message_truthy. by rewrite Hm. }
  cbn [unpack_entry]. apply IH.
Qed.

Lemma unpack_loop_simple (exceptions : list (FieldKey * list exn)) :
  Forall (λ kv, Forall simple kv.2) exceptions →
  ∀ r, unpack_loop (map (λ kv, (kv.1, map Exc kv.2)) exceptions) r
       = unpack_loop (map (λ kv, (kv.1, map Msg (messages_of kv.2))) exceptions) r.
Proof.
  unfold unpack_loop.
  induction 1 as [|[name es] exceptions Hes _ IH]; intros r; [done|].
  cbn [map foldM fst snd]. rewrite (unpack_simple_entries name es Hes).
  destruct (foldM _ (map Msg (messages_of es)) r); [apply IH | done].
Qed.

Lemma failures_simple (self : Schema.t) (new : list (SchemaKey * pyval)) name :
  simple_failures self → Forall simple (bucket (failures self new) name).
Proof.
  intros Hs. apply Forall_forall. intros e He. unfold bucket in He.
  apply list_elem_of_fmap in He as ([k e'] & -> & Hin).
  apply list_elem_of_filter in Hin as [_ Hin]. unfold failures in Hin.
  apply list_elem_of_omap in Hin as ([k' x] & _ & Hf).
  unfold failure_of in Hf. simpl in Hf.
  destruct (dget (Schema.subvalidators self) k') as [vfunc|] eqn:Hk; [|done].
  destruct (as_validator vfunc x) as [t|e0] eqn:E; [done|].
  injection Hf as <- <-. by eapply Hs.
Qed.

(** X26.  From a failed call to the messages by field.  When the key
    checks pass and every subvalidator fails only with a plain [Invalid]
    (one message, no nested errors, as the validators of this module
    raise it), the error that the call raises unpacks, with
    [list_of_errors=True], to the schema's message under [None] and,
    under each field name, to the messages of the failures attributed to
    it, in the order in which the subvalidators ran; a field without
    failure has no entry. *)
Theorem schema_error_unpacks_by_field
    (self : Schema.t) (data : nat) (w w' : world) (e : exn) :
  Schema.key_checks self (hread w data) = None →
  plural_results_iterable self →
  simple_failures self →
  Schema.__call__ self data w = (w', Raise e) →
  ∃ new r,
    calls w' = calls w ++ new
    ∧ unpack_errors e true true = Return (UList r)
    ∧ ∀ name,
        dget r name
        = listed (top_messages (Some (schema_error_message self)) name
                  ++ messages_of (bucket (failures self new) name)).
Proof.
  intros Hchecks Hplural Hsimple. rewrite call_unfold. cbv zeta.
  set (wr := if negb (Schema.filter_extra self) then (w, data) else halloc w ∅).
  assert (hread wr.1 data = hread w data ∧ calls wr.1 = calls w) as [Hread Hcalls0].
  { unfold wr. destruct (Schema.filter_extra self); simpl; [|done].
    split; [apply hread_halloc_empty | done]. }
  destruct wr as [w0 res]. cbn [fst snd] in *. rewrite Hread, Hchecks.
  destruct (loop_returns self data res (sorted (dkeys (Schema.subvalidators self)))
              w0 [] [] (sorted_declared self) Hplural buckets_of_nil)
    as (w1 & exceptions & new & -> & Hcalls & Hkeys & [Hnd Hb]).
  simpl in Hb.
  destruct (list_truthy exceptions) eqn:Ht; [|done]. intros [= <- <-].
  exists new.
  unfold schema_error_message at 1. rewrite init_message_and_buckets by done.
  assert (Forall (λ kv : FieldKey * list exn, Forall simple kv.2) exceptions) as Hall.
  { apply Forall_forall. intros [name es] Hin. simpl.
    assert (dget exceptions name = Some es) as Hget.
    { clear -Hnd Hin. induction exceptions as [|[k0 v0] exceptions IH];
        [by apply elem_of_nil in Hin|].
      simpl in *. apply NoDup_cons in Hnd as [Hk0 Hnd].
      apply elem_of_cons in Hin as [[= <- <-]|Hin]; [by rewrite decide_True|].
      rewrite decide_False; [by apply IH|]. intros ->. apply Hk0.
      change name with ((name, es).1). by apply list_elem_of_fmap_2. }
    rewrite Hb in Hget.
    pose proof (failures_simple self new name Hsimple) as Hf.
    destruct (bucket (failures self new) name); [done|]. by injection Hget as <-. }
  set (plain := map (λ kv : FieldKey * list exn,
                        (kv.1, map Msg (messages_of kv.2) : list entry))
                  exceptions).
  assert (NoDup (dkeys plain)) as Hndp.
  { unfold plain, dkeys. rewrite map_map. simpl. exact Hnd. }
  assert (forallb (λ item : FieldKey * list entry, forallb is_plain item.2) plain = true)
    as Hplain.
  { unfold plain. clear. induction exceptions as [|[k0 v0] exceptions IH]; [done|].
    simpl. by rewrite forallb_is_plain_Msg, IH. }
  destruct (unpack_errors_plain None (Some (_msg (Schema.msg self) "schema.error"
                                             "Problems were found in the submitted data."))
              plain Hndp Hplain) as (r & Hr & Hlookup).
  exists r. split; [by rewrite Hcalls, Hcalls0|]. split.
  - rewrite unpack_errors_Invalid in Hr |- *.
    assert (list_truthy (map (λ kv : FieldKey * list exn, (kv.1, map Exc kv.2)) exceptions)
            = list_truthy plain) as -> by (unfold plain; by destruct exceptions).
    by rewrite unpack_loop_simple.
  - intros name. rewrite Hlookup. unfold plain.
    rewrite (dget_map_values (λ es, map Msg (messages_of es) : list entry)), Hb.
    unfold schema_error_message.
    destruct (bucket (failures self new) name); simpl; [done|].
    by rewrite plain_messages_Msg.
Qed.

Lemma schema_error_unpacks_by_field_witness :
  let self :=
    Schema.Make [(Singular "a", VFunc (integer MsgNone));
                 (Singular "b", VFunc (not_empty MsgNone))]
      MsgNone true true true in
  let w := World [<["a" := VStr "x"]> (<["b" := VStr "y"]> ∅)] [] in
  ∃ new r,
    calls (Schema.__call__ self 0%nat w).1 = calls w ++ new
    ∧ unpack_errors (InvalidExc None (Some "Problems were found in the submitted data.")
                       [(FName "a", [Exc (InvalidExc None (Some "not an integer") [])])])
        true true = Return (UList r)
    ∧ ∀ name,
        dget r name
        = listed (top_messages (Some (schema_error_message self)) name
                  ++ messages_of (bucket (failures self new) name)).
Proof.
  intros self w.
  apply (schema_error_unpacks_by_field self 0%nat w (Schema.__call__ self 0%nat w).1).
  - reflexivity.
  - intros k vfunc values tmp Hk. simpl in Hk.
    destruct (decide (Singular "a" = Plural k)); [done|].
    destruct (decide (Singular "b" = Plural k)); done.
  - intros k vfunc x e Hk. simpl in Hk.
    destruct (decide (Singular "a" = k)).
    + injection Hk as <-. simpl. unfold integer.
      destruct (py_int x) as [n|ex] eqn:E; [done|].
      assert (exn_cls ex = "TypeError" ∨ exn_cls ex = "ValueError") as Hcls.
      { destruct x as [|b|n|s|l|l]; simpl in E; try (injection E as <-; by left); try done.
        destruct (int_of_str s); [done|]. injection E as <-. by right. }
      destruct Hcls as [-> | ->]; intros [= <-]; by eexists _, _.
    + destruct (decide (Singular "b" = k)); [|done].
      injection Hk as <-. simpl. unfold not_empty.
      destruct (_ && _); [done|]. intros [= <-]. by eexists _, _.
  - reflexivity.
Defined.

(** ** [dict_nest] and [dict_unnest]: the round trip *)

(** *** Splitting and joining *)

Lemma sdrop_empty n : sdrop n EmptyString = EmptyString.
Proof. by destruct n. Qed.

Lemma append_cons c (a b : string) : (String c a ++ b)%string = String c (a ++ b).
Proof. reflexivity. Qed.

Lemma append_nil (b : string) : (EmptyString ++ b)%string = b.
Proof. reflexivity. Qed.

Lemma string_app_nil_r (a : string) : (a ++ EmptyString)%string = a.
Proof. induction a as [|x a IH]; [done|]. rewrite append_cons. by f_equal. Qed.

Lemma string_app_assoc (a b c : string) : ((a ++ b) ++ c = a ++ (b ++ c))%string.
Proof. induction a as [|x a IH]; [done|]. rewrite !append_cons. by f_equal. Qed.

Lemma prefix_sdrop (sep s : string) :
  String.prefix sep s = true → s = (sep ++ sdrop (String.length sep) s)%string.
Proof.
  revert s. induction sep as [|c sep IH]; intros s; [done|].
  destruct s as [|c' s]; [done|]. cbn [String.prefix String.length sdrop].
  destruct (ascii_dec c c') as [->|]; [|done].
  intros H. rewrite append_cons. by rewrite <- IH.
Qed.

Lemma split_go_nonempty sep s : ∀ skip cur, split_go sep skip cur s ≠ [].
Proof.
  induction s as [|c s IH]; intros skip cur; cbn [split_go]; [done|].
  destruct skip; [|apply IH]. destruct (String.prefix sep (String c s)); [done | apply IH].
Qed.

Lemma join_cons sep k path :
  path ≠ [] → join sep (k :: path) = (k ++ sep ++ join sep path)%string.
Proof. by destruct path. Qed.

Lemma split_go_join sep s :
  sep ≠ EmptyString →
  ∀ skip cur, join sep (split_go sep skip cur s) = (cur ++ sdrop skip s)%string.
Proof.
  intros Hsep. induction s as [|c s IH]; intros skip cur.
  - rewrite sdrop_empty, string_app_nil_r. done.
  - cbn [split_go]. destruct skip as [|n]; [|apply IH].
    destruct (String.prefix sep (String c s)) eqn:E.
    + rewrite join_cons by apply split_go_nonempty. rewrite IH, append_nil.
      apply prefix_sdrop in E. cbn [sdrop]. f_equal.
      etrans; [|symmetry; exact E]. f_equal.
      destruct sep as [|c0 sep0]; [done|]. cbn [String.length].
      replace (S (String.length sep0) - 1)%nat with (String.length sep0) by lia.
      done.
    + rewrite IH. cbn [sdrop]. rewrite string_app_assoc. done.
Qed.

Lemma join_py_split sep s : sep ≠ EmptyString → join sep (py_split s sep) = s.
Proof. intros Hsep. unfold py_split. by rewrite split_go_join. Qed.

Lemma py_split_nonempty s sep : py_split s sep ≠ [].
Proof. apply split_go_nonempty. Qed.

(** *** Inserting a value at a path *)

Lemma Forall_dset {V} (Q : V → Prop) (d : list (string * V)) k v :
  Forall (λ kv, Q kv.2) d → Q v → Forall (λ kv, Q kv.2) (dset d k v).
Proof.
  intros Hd Hv. induction Hd as [|[k0 v0] d H0 Hd IH]; simpl.
  - by constructor.
  - destruct (decide (k0 = k)); constructor; done.
Qed.

Lemma Forall_setdefault {V} (Q : V → Prop) (d : list (string * V)) k v :
  Forall (λ kv, Q kv.2) d → Q v → Forall (λ kv, Q kv.2) (setdefault d k v).
Proof.
  intros Hd Hv. unfold setdefault. destruct (dget d k); [done|].
  apply Forall_app. split; [done|]. by constructor.
Qed.

Lemma Forall_dget {V} (Q : V → Prop) (d : list (string * V)) k v :
  Forall (λ kv, Q kv.2) d → dget d k = Some v → Q v.
Proof.
  intros Hd Hget. apply dget_elem_of in Hget.
  rewrite Forall_forall in Hd. by apply (Hd (k, v)).
Qed.

Lemma tget_Leaf x p y : tget (Leaf x) p = Some (Leaf y) ↔ p = [] ∧ x = y.
Proof.
  destruct p as [|k p]; simpl.
  - split; [by intros [= ->] | by intros [_ ->]].
  - split; [done | by intros [? _]].
Qed.

Lemma tget_empty_Dict p x : tget (Dict []) p ≠ Some (Leaf x).
Proof. by destruct p. Qed.

Lemma prefix_of_cons_inv {A} (x y : A) (l m : list A) :
  (x :: l) `prefix_of` (y :: m) ↔ x = y ∧ l `prefix_of` m.
Proof.
  split.
  - intros [r [= -> ->]]. split; [done|]. by exists r.
  - intros [-> [r ->]]. by exists r.
Qed.

Lemma nest_insert_leaf (init : list string) (last : string) (y : pyval) :
  ∀ d,
    (∀ q x, q ≠ [] → q `prefix_of` init → tget (Dict d) q ≠ Some (Leaf x)) →
    ∃ d',
      nest_insert init last (Leaf y) d = Return d'
      ∧ (unique_keys (Dict d) → unique_keys (Dict d'))
      ∧ ∀ p x,
          tget (Dict d') p = Some (Leaf x)
          ↔ (p = init ++ [last] ∧ x = y)
            ∨ (tget (Dict d) p = Some (Leaf x) ∧ ¬ (init ++ [last]) `prefix_of` p).
Proof.
  induction init as [|k1 init IH]; intros d Hfree.
  - exists (dset d last (Leaf y)). split; [done|]. split.
    { intros Hwf. inversion Hwf as [|? Hnd Hall]; subst. constructor.
      - by apply NoDup_dkeys_dset.
      - apply Forall_dset; [done | constructor]. }
    intros p x. destruct p as [|k p]; simpl.
    { split; [done|]. intros [[? _]|[? _]]; done. }
    destruct (decide (last = k)) as [<-|Hne].
    + rewrite dget_dset_eq, tget_Leaf. split.
      * intros [-> ->]. by left.
      * intros [[[= ->] ->]|[_ Hn]]; [done|]. destruct Hn. by exists p.
    + rewrite dget_dset_ne by done. split.
      * intros H. right. split; [done|]. intros [r [= ? _]]. done.
      * intros [[[= ? _] _]|[H _]]; done.
  - cbn [nest_insert]. cbv zeta.
    set (sub := match dget d k1 with Some (Dict s) => s | _ => [] end).
    assert (dget (setdefault d k1 (Dict [])) k1 = Some (Dict sub)) as Hget1.
    { rewrite dget_setdefault, decide_True by done. unfold sub.
      destruct (dget d k1) as [[x|s]|] eqn:E; [|done|done].
      exfalso. apply (Hfree [k1] x); [done| by exists init |]. simpl. by rewrite E. }
    assert (∀ q, q ≠ [] → tget (Dict sub) q = tget (Dict d) (k1 :: q)) as Hsub.
    { intros q Hq. cbn [tget]. unfold sub.
      destruct (dget d k1) as [[x|s]|] eqn:E.
      - exfalso. apply (Hfree [k1] x); [done| by exists init |]. simpl. by rewrite E.
      - by destruct q.
      - by destruct q as [|k q]. }
    destruct (IH sub) as (sub' & Hins & Hwf' & Hleaf).
    { intros q x Hq Hpre. rewrite Hsub by done. apply Hfree; [done|].
      by apply prefix_of_cons_inv. }
    rewrite Hget1, Hins. eexists. split; [done|]. split.
    { intros Hwf. inversion Hwf as [|? Hnd Hall]; subst.
      assert (Forall (λ kv : string * nested, unique_keys kv.2)
                (setdefault d k1 (Dict []))) as Hall1.
      { apply Forall_setdefault; [done|]. constructor; [apply NoDup_nil_2 | constructor]. }
      constructor.
      - by apply NoDup_dkeys_dset, NoDup_dkeys_setdefault.
      - apply Forall_dset; [done|]. apply Hwf'. by eapply (Forall_dget unique_keys). }
    intros p x. destruct p as [|k p].
    { simpl. split; [done|]. intros [[? _]|[? _]]; done. }
    cbn [tget]. destruct (decide (k1 = k)) as [<-|Hne].
    + rewrite dget_dset_eq. rewrite Hleaf. split.
      * intros [[-> ->]|[Hx Hn]]; [by left|]. right.
        destruct p as [|k' p']; [done|]. rewrite Hsub in Hx by done.
        split; [done|]. intros Hp. apply Hn. by apply prefix_of_cons_inv in Hp as [_ ?].
      * intros [[[= ->] ->]|[Hx Hn]]; [by left|]. right.
        destruct p as [|k' p'].
        { exfalso. apply (Hfree [k1] x); [done| by exists init | exact Hx]. }
        rewrite Hsub by done. split; [done|]. intros Hp. apply Hn.
        by apply prefix_of_cons_inv.
    + rewrite dget_dset_ne by done. rewrite dget_setdefault.
      rewrite decide_False by done.
      assert (match dget d k with Some x0 => Some x0 | None => None end = dget d k) as ->
        by by destruct (dget d k).
      split.
      * intros H. right. split; [done|]. intros Hp.
        apply prefix_of_cons_inv in Hp as [? _]. done.
      * intros [[[= ? _] _]|[H _]]; done.
Qed.

(** *** The loop of [dict_nest] *)

Lemma removelast_last_split (l : list string) :
  l ≠ [] → l = removelast l ++ [List.last l EmptyString].
Proof. intros Hl. by apply app_removelast_last. Qed.

Lemma dict_nest_loop (separator : string) (rest : list (string * pyval)) :
  separator ≠ EmptyString →
  ∀ (done : list (string * pyval)) (t : list (string * nested)),
    NoDup (dkeys (done ++ rest)) →
    prefix_free separator (dkeys (done ++ rest)) →
    unique_keys (Dict t) →
    (∀ p x, tget (Dict t) p = Some (Leaf x)
            ↔ ∃ k, (k, x) ∈ done ∧ py_split k separator = p) →
    ∃ t',
      foldM
        (λ res (kv : string * nested),
           match separator with
           | EmptyString => Raise (ValueError "empty separator")
           | String _ _ =>
               let levels := py_split kv.1 separator in
               nest_insert (removelast levels) (List.last levels EmptyString) kv.2 res
           end)
        (map (λ kv : string * pyval, (kv.1, Leaf kv.2)) rest) t
      = Return t'
      ∧ unique_keys (Dict t')
      ∧ ∀ p x, tget (Dict t') p = Some (Leaf x)
               ↔ ∃ k, (k, x) ∈ done ++ rest ∧ py_split k separator = p.
Proof.
  intros Hsep. induction rest as [|[k y] rest IH]; intros done t Hnd Hpf Hwf Hinv.
  - exists t. rewrite app_nil_r. done.
  - cbn [map foldM fst snd].
    destruct separator as [|c0 sep0] eqn:Esep; [done|]. rewrite <- Esep in *. cbv zeta.
    pose proof (removelast_last_split _ (py_split_nonempty k separator)) as Hpath.
    set (init := removelast (py_split k separator)) in *.
    set (last := List.last (py_split k separator) EmptyString) in *.
    assert (k ∈ dkeys (done ++ (k, y) :: rest)) as Hk.
    { unfold dkeys. rewrite map_app. apply elem_of_app. right. apply elem_of_cons. by left. }
    assert (∀ k' x', (k', x') ∈ done → k' ∈ dkeys (done ++ (k, y) :: rest) ∧ k ≠ k')
      as Hdone.
    { intros k' x' Hin. split.
      - unfold dkeys. rewrite map_app. apply elem_of_app. left.
        change k' with ((k', x').1). by apply list_elem_of_fmap_2.
      - intros <-. unfold dkeys in Hnd. rewrite map_app in Hnd.
        apply NoDup_app in Hnd as (_ & Hdisj & _). apply (Hdisj k).
        + change k with ((k, x').1). by apply list_elem_of_fmap_2.
        + apply elem_of_cons. by left. }
    destruct (nest_insert_leaf init last y t) as (t1 & Hins & Hwf1 & Hleaf).
    { intros q x Hq Hpre Hx. apply Hinv in Hx as (k' & Hin & Hk').
      destruct (Hdone _ _ Hin) as [Hk'in Hne].
      apply (Hpf k' k); [done|done|congruence|].
      rewrite Hk', Hpath. by apply prefix_app_r. }
    rewrite Hins.
    destruct (IH (done ++ [(k, y)]) t1) as (t' & Hloop & Hwf' & Hinv').
    + by rewrite <- app_assoc.
    + by rewrite <- app_assoc.
    + by apply Hwf1.
    + intros p x. rewrite Hleaf, Hinv. split.
      * intros [[-> ->]|[(k' & Hin & Hk') _]].
        -- exists k. split; [|exact Hpath]. apply elem_of_app. right.
           apply list_elem_of_here.
        -- exists k'. split; [|done]. apply elem_of_app. left. exact Hin.
      * intros (k' & Hin & Hk'). apply elem_of_app in Hin as [Hin|Hin].
        -- right. split; [by exists k'|]. rewrite <- Hpath, <- Hk'.
           destruct (Hdone _ _ Hin) as [Hk'in Hne]. by apply Hpf.
        -- apply list_elem_of_singleton in Hin. injection Hin as -> ->. left.
           split; [by rewrite <- Hk', Hpath | done].
    + exists t'. split; [done|]. split; [done|].
      intros p x. rewrite Hinv'. by rewrite <- app_assoc.
Qed.

(** *** The leaves of a dict and [dict_unnest] *)

Section nested_induction.
Variable P : nested → Prop.
Hypothesis P_Leaf : ∀ x, P (Leaf x).
Hypothesis P_Dict :
  ∀ items, Forall (λ kv : string * nested, P kv.2) items → P (Dict items).

Fixpoint nested_tree_ind (t : nested) : P t :=
  match t with
  | Leaf x => P_Leaf x
  | Dict items =>
      P_Dict items
        ((fix go (l : list (string * nested)) : Forall (λ kv : string * nested, P kv.2) l :=
            match l with
            | [] => Forall_nil_2 _
            | kv :: l' =>
                Forall_cons_2 _ kv l'
                  (match kv as kv0 return P kv0.2 with
                   | (_, v) => nested_tree_ind v
                   end)
                  (go l')
            end) items)
  end.
End nested_induction.

Lemma elem_of_dget {V} (d : list (string * V)) k v :
  NoDup (dkeys d) → (k, v) ∈ d → dget d k = Some v.
Proof.
  induction d as [|[k0 v0] d IH]; simpl; intros Hnd Hin; [by apply elem_of_nil in Hin|].
  apply NoDup_cons in Hnd as [Hk0 Hnd].
  apply elem_of_cons in Hin as [[= <- <-]|Hin]; [by rewrite decide_True|].
  rewrite decide_False; [by apply IH|]. intros ->. apply Hk0.
  change k with ((k, v).1). by apply list_elem_of_fmap_2.
Qed.

Lemma elem_of_leaves_Dict items p x :
  (p, x) ∈ leaves_of (Dict items)
  ↔ ∃ k v p', (k, v) ∈ items ∧ p = k :: p' ∧ (p', x) ∈ leaves_of v.
Proof.
  cbn [leaves_of]. rewrite list_elem_of_In, in_flat_map. split.
  - intros ([k v] & Hkv & Hin). apply list_elem_of_In in Hkv, Hin.
    apply list_elem_of_fmap in Hin as ([p' x'] & [= -> ->] & Hin).
    by exists k, v, p'.
  - intros (k & v & p' & Hkv & -> & Hin). exists (k, v).
    split; [by apply list_elem_of_In|]. apply list_elem_of_In.
    apply list_elem_of_fmap. by exists (p', x).
Qed.

Lemma leaves_tget (t : nested) :
  unique_keys t → ∀ p x, (p, x) ∈ leaves_of t ↔ tget t p = Some (Leaf x).
Proof.
  induction t as [y|items IH] using nested_tree_ind; intros Hwf p x.
  - rewrite tget_Leaf. simpl. rewrite list_elem_of_singleton.
    split; [by intros [= -> ->] | by intros [-> ->]].
  - inversion Hwf as [|? Hnd Hall]; subst.
    rewrite elem_of_leaves_Dict. split.
    + intros (k & v & p' & Hkv & -> & Hin). cbn [tget].
      rewrite (elem_of_dget _ _ _ Hnd Hkv).
      rewrite Forall_forall in IH, Hall.
      by apply (IH (k, v) Hkv (Hall (k, v) Hkv)).
    + destruct p as [|k p']; [done|]. cbn [tget].
      destruct (dget items k) as [v|] eqn:E; [|done].
      apply dget_elem_of in E. intros Hx. exists k, v, p'.
      split; [done|]. split; [done|].
      rewrite Forall_forall in IH, Hall.
      by apply (IH (k, v) E (Hall (k, v) E)).
Qed.

Lemma leaves_paths_NoDup (t : nested) : unique_keys t → NoDup (map fst (leaves_of t)).
Proof.
  induction t as [y|items IH] using nested_tree_ind; intros Hwf.
  - simpl. apply NoDup_singleton.
  - inversion Hwf as [|? Hnd Hall]; subst. cbn [leaves_of]. clear Hwf.
    revert IH Hnd Hall.
    induction items as [|[k v] items IHl]; intros IH Hnd Hall; [apply NoDup_nil_2|].
    apply Forall_cons in IH as [IHv IH]. apply Forall_cons in Hall as [Hv Hall].
    simpl in Hnd. apply NoDup_cons in Hnd as [Hk Hnd].
    cbn [flat_map]. rewrite map_app. apply NoDup_app. split; [|split].
    + rewrite map_map. cbn [fst]. rewrite <- (map_map fst (cons k)).
      apply NoDup_fmap_2; [|by apply IHv]. by intros a b [= ->].
    + intros p Hp1 Hp2.
      apply list_elem_of_fmap in Hp1 as ([p1 x1] & -> & Hp1).
      apply list_elem_of_fmap in Hp1 as ([p1' x1'] & [= -> ->] & _).
      apply list_elem_of_fmap in Hp2 as ([p2 x2] & Heq & Hp2). cbn [fst] in Heq.
      subst p2. apply (elem_of_leaves_Dict items) in Hp2 as (k2 & v2 & p2' & Hin & [= <- _] & _).
      apply Hk. change k with ((k, v2).1). by apply list_elem_of_fmap_2.
    + by apply IHl.
Qed.

Lemma leaves_Dict_nonempty items p x : (p, x) ∈ leaves_of (Dict items) → p ≠ [].
Proof. intros (k & v & p' & _ & -> & _)%elem_of_leaves_Dict. done. Qed.

Lemma NoDup_app_dkeys_l {V} (a b : list (string * V)) :
  NoDup (dkeys (a ++ b)) → NoDup (dkeys a).
Proof. unfold dkeys. rewrite map_app. by intros (? & _ & _)%NoDup_app. Qed.

Lemma fold_left_fmap {A B C} (f : A → C → A) (g : B → C) (l : list B) :
  ∀ a, fold_left f (map g l) a = fold_left (λ a x, f a (g x)) l a.
Proof. induction l as [|x l IH]; intros a; simpl; [done | apply IH]. Qed.

Lemma unnest_leaves (separator : string) (t : nested) :
  ∀ items, t = Dict items →
    NoDup (map (λ px : list string * pyval, join separator px.1) (leaves_of t)) →
    unnest separator t
    = map (λ px : list string * pyval, (join separator px.1, px.2)) (leaves_of t).
Proof.
  induction t as [y|items0 IH] using nested_tree_ind; intros items [= <-] Hnd.
  cbn [unnest leaves_of].
  set (J := λ px : list string * pyval, (join separator px.1, px.2)).
  set (F := λ kv : string * nested,
              map (λ px : list string * pyval, (kv.1 :: px.1, px.2)) (leaves_of kv.2)).
  assert (∀ (res : list (string * pyval)),
            NoDup (dkeys (res ++ map J (flat_map F items0))) →
            (fix go (items : list (string * nested)) (res : list (string * pyval))
               {struct items} : list (string * pyval) :=
               match items with
               | [] => res
               | (k, v) :: items' =>
                   match v with
                   | Dict _ =>
                       go items'
                         (fold_left
                            (λ res (kv1 : string * pyval),
                               dset res (k ++ separator ++ kv1.1)%string kv1.2)
                            (unnest separator v) res)
                   | Leaf x => go items' (dset res k x)
                   end
               end) items0 res
            = res ++ map J (flat_map F items0)) as Hgo.
  { clear Hnd. induction items0 as [|[k v] items0 IHl]; intros res Hnd.
    - simpl. by rewrite app_nil_r.
    - apply Forall_cons in IH as [IHv IH]. cbn [flat_map] in Hnd |- *.
      rewrite map_app in Hnd |- *. rewrite app_assoc in Hnd |- *.
      destruct v as [x|sub].
      + assert (map J (F (k, Leaf x)) = [(k, x)]) as HF by done.
        rewrite HF in Hnd |- *. rewrite IHl; [|done|].
        * rewrite dset_fresh; [done|].
          apply NoDup_app_dkeys_l in Hnd. unfold dkeys in Hnd. rewrite map_app in Hnd.
          apply NoDup_app in Hnd as (_ & Hdisj & _). intros Hin.
          apply (Hdisj k Hin). apply list_elem_of_here.
        * rewrite dset_fresh; [done|].
          apply NoDup_app_dkeys_l in Hnd. unfold dkeys in Hnd. rewrite map_app in Hnd.
          apply NoDup_app in Hnd as (_ & Hdisj & _). intros Hin.
          apply (Hdisj k Hin). apply list_elem_of_here.
      + assert (map J (F (k, Dict sub))
                = map (λ kv1 : string * pyval,
                         ((k ++ separator ++ kv1.1)%string, kv1.2))
                    (map J (leaves_of (Dict sub)))) as HF.
        { unfold F. cbn [fst snd]. rewrite !map_map.
          apply map_ext_in. intros [p x] Hin%list_elem_of_In. unfold J. cbn [fst snd].
          f_equal. apply join_cons. by eapply leaves_Dict_nonempty. }
        assert (NoDup (dkeys (res ++ map J (F (k, Dict sub))))) as Hnd1
          by by apply NoDup_app_dkeys_l in Hnd.
        assert (unnest separator (Dict sub) = map J (leaves_of (Dict sub))) as Hsub.
        { apply (IHv sub eq_refl).
          rewrite HF in Hnd1. unfold dkeys in Hnd1. rewrite map_app in Hnd1.
          apply NoDup_app in Hnd1 as (_ & _ & Hnd1).
          rewrite !map_map in Hnd1. cbn [fst] in Hnd1.
          rewrite <- (map_map (λ px : list string * pyval, join separator px.1)
                       (λ s, (k ++ separator ++ s)%string)) in Hnd1.
          by apply NoDup_fmap_1 in Hnd1. }
        rewrite Hsub.
        assert (fold_left
                  (λ (res : list (string * pyval)) (kv1 : string * pyval),
                     dset res (k ++ separator ++ kv1.1)%string kv1.2)
                  (map J (leaves_of (Dict sub))) res
                = res ++ map J (F (k, Dict sub))) as ->.
        { rewrite HF.
          rewrite <- (fold_dset_fresh res) by (by rewrite <- HF).
          by rewrite !fold_left_fmap. }
        by apply IHl. }
  rewrite (Hgo []); [done|]. simpl. unfold dkeys. rewrite map_map. exact Hnd.
Qed.

(** X27.  [dict_unnest] undoes [dict_nest].  For a flat dict whose values
    are not dicts and in which no key, split at the separator, is the
    beginning of another key's path, [dict_nest] returns a nested dict, and
    [dict_unnest] of that dict has exactly the keys and values of the flat
    dict.  This holds for every order in which the flat dict is iterated
    ([data] lists its items in that order) and in which the nested dicts
    are iterated ([t'] is any arrangement of the dict returned). *)
Theorem dict_unnest_inverts_dict_nest
    (data : list (string * pyval)) (separator : string) :
  separator ≠ EmptyString →
  NoDup (dkeys data) →
  prefix_free separator (dkeys data) →
  ∃ t,
    dict_nest (map (λ kv : string * pyval, (kv.1, Leaf kv.2)) data) separator = Return t
    ∧ unique_keys (Dict t)
    ∧ ∀ t', unique_keys (Dict t') → same_leaves (Dict t) (Dict t') →
            ∀ k, dget (dict_unnest t' separator) k = dget data k.
Proof.
  intros Hsep Hnd Hpf.
  destruct (dict_nest_loop separator data Hsep [] []) as (t & Hloop & Hwf & Hinv0).
  - done.
  - done.
  - constructor; [apply NoDup_nil_2 | constructor].
  - intros p x. split.
    + intros H. by apply tget_empty_Dict in H.
    + intros (k & Hin & _). by apply elem_of_nil in Hin.
  - exists t. split; [exact Hloop|]. split; [exact Hwf|]. cbn [app] in Hinv0.
    intros t' Hwf' Hsame.
    assert (∀ p x, tget (Dict t') p = Some (Leaf x)
                   ↔ ∃ k, (k, x) ∈ data ∧ py_split k separator = p) as Hinv.
    { intros p x. by rewrite (Hsame p x). }
    clear Hinv0 Hsame Hwf Hloop.
    assert (NoDup (map (λ px : list string * pyval, join separator px.1)
                     (leaves_of (Dict t')))) as Hkeys.
    { rewrite <- (map_map fst (join separator)).
      apply NoDup_fmap_2_strong; [|by apply leaves_paths_NoDup].
      intros p p' Hp Hp' Hjoin.
      apply list_elem_of_fmap in Hp as ([? x] & -> & Hp).
      apply list_elem_of_fmap in Hp' as ([? x'] & -> & Hp'). cbn [fst] in *.
      apply (leaves_tget _ Hwf') in Hp, Hp'.
      apply Hinv in Hp as (k & _ & <-). apply Hinv in Hp' as (k' & _ & <-).
      rewrite !join_py_split in Hjoin by done. by subst. }
    intros k. unfold dict_unnest. rewrite (unnest_leaves _ _ t' eq_refl Hkeys).
    set (L := map (λ px : list string * pyval, (join separator px.1, px.2))
                (leaves_of (Dict t'))).
    assert (NoDup (dkeys L)) as HndL.
    { unfold L, dkeys. by rewrite map_map. }
    apply option_eq. intros x. split.
    + intros Hget. apply dget_elem_of in Hget.
      apply list_elem_of_fmap in Hget as ([p x'] & [= -> ->] & Hp). cbn [fst snd] in *.
      apply (leaves_tget _ Hwf') in Hp. apply Hinv in Hp as (k0 & Hin & <-).
      rewrite join_py_split by done. by apply elem_of_dget.
    + intros Hget. apply dget_elem_of in Hget. apply elem_of_dget; [done|].
      apply list_elem_of_fmap. exists (py_split k separator, x).
      cbn [fst snd]. rewrite join_py_split by done. split; [done|].
      apply (leaves_tget _ Hwf'). apply Hinv. by exists k.
Qed.

Lemma dict_unnest_inverts_dict_nest_witness :
  ∃ t,
    dict_nest [("a.b", Leaf (VInt 1)); ("a.c", Leaf (VInt 2)); ("d", Leaf VNone)] "."
    = Return t
    ∧ unique_keys (Dict t)
    ∧ ∀ t', unique_keys (Dict t') → same_leaves (Dict t) (Dict t') →
            ∀ k, dget (dict_unnest t' ".") k
                 = dget [("a.b", VInt 1); ("a.c", VInt 2); ("d", VNone)] k.
Proof.
  apply (dict_unnest_inverts_dict_nest
           [("a.b", VInt 1); ("a.c", VInt 2); ("d", VNone)] ".").
  - done.
  - refine (@bool_decide_unpack _ (NoDup_dec _) _). vm_compute. exact I.
  - intros k k' Hk Hk' Hne [r Hr]. simpl in Hk, Hk'.
    repeat (apply elem_of_cons in Hk as [->|Hk]);
      repeat (apply elem_of_cons in Hk' as [->|Hk']);
      try done; try (by apply elem_of_nil in Hk); try (by apply elem_of_nil in Hk');
      vm_compute in Hr; discriminate.
Defined.

(** *** A path that runs through a value *)

Lemma nest_insert_through_leaf (init : list string) (last : string) (v : nested) :
  ∀ d q x,
    q ≠ [] → q `prefix_of` init → tget (Dict d) q = Some (Leaf x) →
    ∃ e, nest_insert init last v d = Raise e
         ∧ (exn_cls e = "TypeError"%string ∨ exn_cls e = "AttributeError"%string).
Proof.
  induction init as [|k1 init IH]; intros d q x Hq Hpre Hx.
  - destruct Hpre as [r Hr]. by destruct q.
  - destruct q as [|k q]; [done|].
    apply prefix_of_cons_inv in Hpre as [-> Hpre]. cbn [tget] in Hx.
    destruct (dget d k1) as [t'|] eqn:E; [|done].
    cbn [nest_insert]. cbv zeta.
    assert (dget (setdefault d k1 (Dict [])) k1 = Some t') as ->.
    { by rewrite dget_setdefault, E. }
    destruct t' as [y|sub].
    + destruct init; eexists; split; try reflexivity; auto.
    + destruct q as [|k' q']; [done|].
      destruct (IH sub (k' :: q') x) as (e & -> & He); [done|done|done|].
      by exists e.
Qed.

(** X28.  [dict_nest] fails on a key whose path runs through a value that
    is not a dict: when the keys before [k] have been nested into [t] and
    a proper beginning of the path of [k] leads in [t] to such a value,
    the call raises [TypeError] (the value takes no item assignment) or
    [AttributeError] (it has no [setdefault]), whatever keys follow; and an
    empty separator raises [ValueError] as soon as there is a key. *)
Theorem dict_nest_raises_through_value
    (before after : list (string * nested)) (k : string) (v : nested)
    (separator : string) (t : list (string * nested)) (q : list string) (x : pyval) :
  dict_nest before separator = Return t →
  q ≠ [] →
  q `prefix_of` removelast (py_split k separator) →
  tget (Dict t) q = Some (Leaf x) →
  (∃ e, dict_nest (before ++ (k, v) :: after) separator = Raise e
        ∧ (exn_cls e = "TypeError"%string ∨ exn_cls e = "AttributeError"%string))
  ∧ ∃ e, dict_nest ((k, v) :: after) EmptyString = Raise e
         ∧ exn_cls e = "ValueError"%string.
Proof.
  intros Hbefore Hq Hpre Hx. split; [|by eexists].
  unfold dict_nest in *. rewrite foldM_app, Hbefore. cbn [foldM fst snd].
  destruct separator as [|c0 sep0] eqn:Esep.
  { destruct before; simpl in Hbefore; [|done]. injection Hbefore as <-.
    by apply tget_empty_Dict in Hx. }
  rewrite <- Esep in *. cbv zeta.
  destruct (nest_insert_through_leaf _ (List.last (py_split k separator) EmptyString) v
              t q x Hq Hpre Hx) as (e & -> & He).
  by exists e.
Qed.

Lemma dict_nest_raises_through_value_witness :
  ∃ e, dict_nest ([("a", Leaf (VInt 1))] ++ ("a.b", Leaf (VInt 2)) :: []) "." = Raise e
       ∧ (exn_cls e = "TypeError"%string ∨ exn_cls e = "AttributeError"%string).
Proof.
  refine (proj1 (dict_nest_raises_through_value [("a", Leaf (VInt 1))] [] "a.b"
                   (Leaf (VInt 2)) "." [("a", Leaf (VInt 1))] ["a"] (VInt 1) _ _ _ _)).
  - reflexivity.
  - done.
  - by exists [].
  - reflexivity.
Defined.

(** ** The tests on the type of a value *)


(** ** The lists of an unpacked error *)

Lemma no_empty_list_safe_append r k s :
  no_empty_list r → no_empty_list (_safe_append r k s).
Proof.
  intros Hr k' l. rewrite dget_safe_append.
  destruct (decide (k = k')) as [<-|Hne]; [|apply Hr].
  intros [= <-]. by destruct (default [] (dget r k)).
Qed.

Lemma no_empty_list_join_dicts r (d : list (FieldKey * dval string)) :
  no_empty_list r →
  Forall (λ kv, dval_items kv.2 ≠ []) d →
  no_empty_list (_join_dicts r d).
Proof.
  unfold _join_dicts. intros Hr Hd. revert r Hr.
  induction Hd as [|[k v] d Hv Hd IH]; intros r Hr; simpl; [done|].
  apply IH.
  assert (∀ l', l' ≠ [] →
            no_empty_list (dalter (λ l, l ++ l') k (setdefault r k []))) as H.
  { intros l' Hl' k' l. rewrite dget_dalter, dget_setdefault.
    destruct (decide (k = k')) as [<-|Hne].
    - destruct (dget r k); simpl; intros [= <-]; [by destruct l0 | done].
    - destruct (dget r k') eqn:E; [|done]. intros [= <-]. by eapply Hr. }
  destruct v as [a|l']; apply H; [done | exact Hv].
Qed.

Lemma unpack_errors_never_a_list_mapping (m : exn) d :
  unpack_errors m false false ≠ Return (UList d).
Proof.
  destruct m as [f message errors|cls f args]; [|done].
  rewrite unpack_errors_Invalid.
  destruct (list_truthy errors || false); [|done].
  by destruct (if list_truthy errors then _ else _).
Qed.

Lemma no_empty_list_unpack_entry name r m r' :
  no_empty_list r →
  unpack_entry (λ m, unpack_errors m false false) name r m = Return r' →
  no_empty_list r'.
Proof.
  intros Hr. unfold unpack_entry.
  destruct m as [s|[f msg errs|cls f args]].
  - intros [= <-]. by apply no_empty_list_safe_append.
  - destruct (unpack_errors _ false false) as [[u|d|d]|e] eqn:E; [| | |done].
    + destruct (message_truthy u); intros [= <-]; [by apply no_empty_list_safe_append | done].
    + intros [= <-]. apply no_empty_list_join_dicts; [done|].
      apply Forall_forall. intros kv Hkv.
      apply list_elem_of_fmap in Hkv as (kv' & -> & _). done.
    + by apply unpack_errors_never_a_list_mapping in E.
  - destruct args; [done|]. intros [= <-]. by apply no_empty_list_safe_append.
Qed.

(** X30.  In what [unpack_errors(list_of_errors=True)] returns, every key
    has at least one message.  So the test [if m] with which
    [list_of_errors=False] picks the first message of each list drops
    nothing: the two forms of the result have the same keys. *)
Theorem unpack_errors_lists_are_not_empty
    (self : exn) (force_dict : bool) (r : list (FieldKey * list string)) :
  unpack_errors self force_dict true = Return (UList r) →
  no_empty_list r
  ∧ ∃ c, unpack_errors self force_dict false = Return (UDict c)
         ∧ ∀ k, is_Some (dget c k) ↔ is_Some (dget r k).
Proof.
  intros Hr.
  assert (NoDup (dkeys r)) as Hnd by by eapply unpack_errors_list_NoDup.
  destruct self as [f message errors|cls f args]; [|done].
  rewrite unpack_errors_Invalid in Hr |- *.
  destruct (list_truthy errors || force_dict); [|done].
  set (r0 := match message with
             | Some m => if str_truthy m then [(FNone, [m])] else []
             | None => []
             end : list (FieldKey * list string)) in *.
  assert (no_empty_list r0) as Hr0.
  { unfold r0. intros k l. destruct message as [m|]; [|done].
    destruct (str_truthy m); [|done]. simpl.
    destruct (decide (FNone = k)); [|done]. by intros [= <-]. }
  assert (no_empty_list r ∧ (if list_truthy errors then unpack_loop errors r0
                            else Return r0) = Return r) as [Hne Hloop].
  { destruct (list_truthy errors).
    - destruct (unpack_loop errors r0) as [r'|e] eqn:E; [|done].
      injection Hr as <-. split; [|done]. revert E. unfold unpack_loop.
      apply (foldM_invariant _ no_empty_list); [|done].
      intros a item a' Ha. apply (foldM_invariant _ no_empty_list); [|done].
      intros b m b' Hb. by apply no_empty_list_unpack_entry.
    - injection Hr as <-. done. }
  split; [done|]. rewrite Hloop. eexists. split; [done|].
  intros k. rewrite collapse_lookup by done.
  destruct (dget r k) as [l|] eqn:E; simpl.
  - destruct l as [|m0 l]; [by apply Hne in E|]. split; eauto.
  - done.
Qed.

Lemma unpack_errors_lists_are_not_empty_witness :
  ∃ c, unpack_errors (__init__ [Plain "top"; Mapping [(FName "x", Many [])]] []) true false
       = Return (UDict c)
       ∧ ∀ k, is_Some (dget c k) ↔ is_Some (dget [(FNone, ["top"])] k).
Proof.
  exact (proj2 (unpack_errors_lists_are_not_empty
                  (__init__ [Plain "top"; Mapping [(FName "x", Many [])]] [])
                  true [(FNone, ["top"])] eq_refl)).
Defined.
